(** * CVPuzzleSolver, libimages/algorithms: downsample and blur

    A shallow embedding of [downsample.cpp] and [blur.cpp] and the
    properties their specification states about them.

    Conventions of the embedding:
    - a C++ [int] is a [Z]; every [int] operation that can leave the 32-bit
      range is written with [wrap_int] (two's complement wrap-around);
    - [float] and [double] are IEEE 754 binary32 and binary64 values, taken
      from the Standard Library's executable specification [SpecFloat];
    - a call either returns a value, stops in [rassert] with its tag, or
      leaves the defined behaviour of C++ ([Fault]). *)

From Stdlib Require Import ZArith Lia Bool.
From Stdlib Require Import Floats.SpecFloat.
From stdpp Require Import base tactics option list list_numbers.

Local Open Scope Z_scope.

(** ** Outcomes *)

Inductive fault : Set :=
  | OutOfRange            (* an element access outside its container *)
  | UndefinedConversion   (* float-to-int conversion of a value that does not fit *)
  | LengthError.          (* std::vector asked for more than max_size() elements *)

Inductive res (A : Type) : Type :=
  | Ok (a : A)
  | Abort (tag : Z)       (* rassert failed with this numeric tag *)
  | Fault (f : fault).
Arguments Ok {A} a.
Arguments Abort {A} tag.
Arguments Fault {A} f.

#[export] Instance res_ret : MRet res := fun _ a => Ok a.
#[export] Instance res_bind : MBind res := fun _ _ k c =>
  match c with
  | Ok a => k a
  | Abort tag => Abort tag
  | Fault f => Fault f
  end.

Definition rassert (cond : bool) (tag : Z) : res unit :=
  if cond then Ok tt else Abort tag.

(** [for (int i = lo; i < hi; ++i) s = body(i, s);] *)
Fixpoint for_loop {St : Type} (fuel : nat) (i : Z) (body : Z → St → res St) (s : St) : res St :=
  match fuel with
  | O => Ok s
  | S fuel' => s' ← body i s; for_loop fuel' (i + 1) body s'
  end.

Definition for_range {St : Type} (lo hi : Z) (body : Z → St → res St) (s : St) : res St :=
  for_loop (Z.to_nat (hi - lo)) lo body s.

(** ** Machine integers *)

Definition INT_MIN : Z := - 2 ^ 31.
Definition INT_MAX : Z := 2 ^ 31 - 1.

Definition wrap_int (z : Z) : Z := (z + 2 ^ 31) mod 2 ^ 32 - 2 ^ 31.

(** [static_cast<size_t>] of an [int] and [size_t] arithmetic (64 bits). *)
Definition wrap_size (z : Z) : Z := z mod 2 ^ 64.

(** [static_cast<std::uint8_t>] of an integer. *)
Definition wrap_u8 (z : Z) : Z := z mod 256.

(** [clampi] is defined twice, identically, in both translation units. *)
Definition clampi (v lo hi : Z) : Z := Z.max lo (Z.min hi v).

(** ** IEEE 754 arithmetic *)

Module F32.
Definition prec : Z := 24.
Definition emax : Z := 128.
Definition add := SFadd prec emax.
Definition mul := SFmul prec emax.
Definition div := SFdiv prec emax.
Definition opp := SFopp.
Definition ltb := SFltb.
Definition valid := valid_binary prec emax.
(** int -> float conversion, round to nearest even *)
Definition of_int (z : Z) : spec_float := binary_normalize prec emax z 0 false.
Definition zero : spec_float := S754_zero false.
Definition one : spec_float := Eval vm_compute in of_int 1.
Definition two : spec_float := Eval vm_compute in of_int 2.
Definition three : spec_float := Eval vm_compute in of_int 3.
Definition c255 : spec_float := Eval vm_compute in of_int 255.
(** the literal 0.001f: the binary32 value nearest to 1/1000 *)
Definition milli : spec_float := S754_finite false 8589935 (-33).
(** std::max(a, b) is (a < b) ? b : a *)
Definition max (a b : spec_float) : spec_float := if ltb a b then b else a.
(** std::clamp(v, lo, hi) is (v < lo) ? lo : (hi < v) ? hi : v *)
Definition clamp (v lo hi : spec_float) : spec_float :=
  if ltb v lo then lo else if ltb hi v then hi else v.
End F32.

Module F64.
Definition prec : Z := 53.
Definition emax : Z := 1024.
Definition mul := SFmul prec emax.
Definition div := SFdiv prec emax.
(** int -> double conversion (exact for every int) *)
Definition of_int (z : Z) : spec_float := binary_normalize prec emax z 0 false.
End F64.

Arguments F32.add : simpl never.
Arguments F32.mul : simpl never.
Arguments F32.div : simpl never.
Arguments F32.ltb : simpl never.
Arguments F32.of_int : simpl never.
Arguments F32.max : simpl never.
Arguments F32.clamp : simpl never.
Arguments F64.mul : simpl never.
Arguments F64.div : simpl never.
Arguments F64.of_int : simpl never.

(** The integer nearest to a finite value, ties away from zero. *)
Definition round_half_away (s : bool) (m : positive) (e : Z) : Z :=
  let mag :=
    if 0 <=? e then Z.pos m * 2 ^ e
    else (Z.pos m + 2 ^ (- e - 1)) / 2 ^ (- e) in
  if s then - mag else mag.

(** The least integer not below a finite value. *)
Definition ceil_finite (s : bool) (m : positive) (e : Z) : Z :=
  if 0 <=? e then (if s then - (Z.pos m * 2 ^ e) else Z.pos m * 2 ^ e)
  else if s then - (Z.pos m / 2 ^ (- e))
  else - ((- Z.pos m) / 2 ^ (- e)).

Definition LONG_MIN : Z := - 2 ^ 63.
Definition LONG_MAX : Z := 2 ^ 63 - 1.

(** What the program takes from the C library and does not define itself:
    [expf], and the value [lround] returns when the rounded value does not
    fit in a [long] (unspecified by the C standard, not undefined). *)
Class LibM : Type := {
  expf : spec_float → spec_float;
  lround_unspecified : spec_float → Z
}.

Section Libm.
Context {L : LibM}.

(** std::lround, result type long (64 bits) *)
Definition lround (x : spec_float) : Z :=
  match x with
  | S754_zero _ => 0
  | S754_finite s m e =>
      let r := round_half_away s m e in
      if (LONG_MIN <=? r) && (r <=? LONG_MAX) then r else lround_unspecified x
  | _ => lround_unspecified x
  end.
End Libm.

(** [static_cast<int>(std::ceil(x))] for a float [x]: [std::ceil] is exact,
    and the conversion to [int] is undefined when the value does not fit. *)
Definition ceil_to_int (x : spec_float) : res Z :=
  match x with
  | S754_zero _ => Ok 0
  | S754_finite s m e =>
      let z := ceil_finite s m e in
      if (INT_MIN <=? z) && (z <=? INT_MAX) then Ok z else Fault UndefinedConversion
  | _ => Fault UndefinedConversion
  end.

(** ** Containers *)

(** [v[i]] on a std::vector, the index converted to size_t. *)
Definition vec_get {A : Type} (v : list A) (i : Z) : res A :=
  if (0 <=? i) && (i <? Z.of_nat (length v)) then
    match v !! Z.to_nat i with
    | Some a => Ok a
    | None => Fault OutOfRange
    end
  else Fault OutOfRange.

(** No std::vector holds more than PTRDIFF_MAX elements: a larger request
    throws std::length_error. *)
Definition PTRDIFF_MAX : Z := 2 ^ 63 - 1.

(** [std::vector<A> v(n, a)] and [v.resize(n, a)] on an empty vector, [n]
    already converted to size_t. *)
Definition vec_new {A : Type} (n : Z) (a : A) : res (list A) :=
  if n <=? PTRDIFF_MAX then Ok (replicate (Z.to_nat n) a) else Fault LengthError.

(** [v[i] = a] on a std::vector. *)
Definition vec_set {A : Type} (v : list A) (i : Z) (a : A) : res (list A) :=
  if (0 <=? i) && (i <? Z.of_nat (length v)) then Ok (<[Z.to_nat i := a]> v)
  else Fault OutOfRange.

(** Modelled from the spec: [Color<T>] (libimages/color.h is not among the
    sources): a fixed tuple of 1 or 3 elements of type [T], addressed by
    channel index. *)
Definition Color (T : Type) : Type := list T.

Definition color_channels {T : Type} (c : Color T) : Z := Z.of_nat (length c).

(** [c(ch)] *)
Definition color_get {T : Type} (c : Color T) (ch : Z) : res T := vec_get c ch.

(** [colors[i](ch)] *)
Definition colors_get {T : Type} (colors : list (Color T)) (i ch : Z) : res T :=
  c ← vec_get colors i; color_get c ch.

(** Modelled from the spec: [Image<T>] (libimages/image.h is not among the
    sources): a rectangular raster with width, height and channel count,
    addressed by (row, column[, channel]), row-major with the channels of a
    pixel contiguous. *)
Record Image (T : Type) : Type := mkImage {
  width : Z;
  height : Z;
  channels : Z;
  data : list T
}.
Arguments mkImage {T} _ _ _ _.
Arguments width {T} _.
Arguments height {T} _.
Arguments channels {T} _.
Arguments data {T} _.

(** Position of element (row [y], column [x], channel [c]) of a raster of
    width [W] with [C] channels, in size_t arithmetic; this is also the
    [idx] lambda of [blur]. *)
Definition flat_index (W C x y c : Z) : Z :=
  wrap_size (wrap_size (wrap_size (wrap_size (y * W) + x) * C) + c).

Definition in_image {T : Type} (img : Image T) (y x c : Z) : bool :=
  (0 <=? y) && (y <? height img) && (0 <=? x) && (x <? width img)
  && (0 <=? c) && (c <? channels img).

(** [image(y, x, c)] read; [image(y, x)] is [image(y, x, 0)]. *)
Definition img_get {T : Type} (img : Image T) (y x c : Z) : res T :=
  if in_image img y x c
  then vec_get (data img) (flat_index (width img) (channels img) x y c)
  else Fault OutOfRange.

(** [image(y, x, c) = v] *)
Definition img_set {T : Type} (img : Image T) (y x c : Z) (v : T) : res (Image T) :=
  if in_image img y x c
  then d ← vec_set (data img) (flat_index (width img) (channels img) x y c) v;
       Ok (mkImage (width img) (height img) (channels img) d)
  else Fault OutOfRange.

(** The element types the algorithms are instantiated at. *)
Class Elem (T : Type) : Type := {
  elem_zero : T;
  to_f : T → spec_float;      (* blur.cpp, to_f<T> *)
  from_f : spec_float → T     (* blur.cpp, from_f<T> *)
}.

(** [Image<T> out(w, h, ch)] *)
Definition img_new {T : Type} {E : Elem T} (w h ch : Z) : Image T :=
  mkImage w h ch (replicate (Z.to_nat (w * h * ch)) elem_zero).

(** A raster whose buffer has the size its dimensions announce; the
    dimensions are C++ ints. *)
Definition wf_image {T : Type} (img : Image T) : Prop :=
  0 ≤ width img ≤ INT_MAX ∧ 0 ≤ height img ≤ INT_MAX ∧ 0 ≤ channels img ≤ INT_MAX ∧
  Z.of_nat (length (data img)) = width img * height img * channels img ∧
  Z.of_nat (length (data img)) ≤ PTRDIFF_MAX.

(** ** downsample.cpp *)

Section Downsample.
Context {L : LibM}.

Definition map_index_round (i n m : Z) : Z :=
  let pos :=
    F64.div (F64.mul (F64.of_int i) (F64.of_int (wrap_int (m - 1))))
            (F64.of_int (wrap_int (n - 1))) in
  let idx := wrap_int (lround pos) in
  clampi idx 0 (wrap_int (m - 1)).

Definition safe_mid_index (m : Z) : Z :=
  if m <=? 0 then 0 else Z.quot m 2.

Context {T : Type} {E : Elem T}.

(** One iteration of the inner loop: the copy of one pixel. *)
Definition downsample_pixel (image : Image T) (sy sx y x : Z) (out : Image T)
  : res (Image T) :=
  if channels image =? 1 then
    v ← img_get image sy sx 0; img_set out y x 0 v
  else
    v0 ← img_get image sy sx 0; out ← img_set out y x 0 v0;
    v1 ← img_get image sy sx 1; out ← img_set out y x 1 v1;
    v2 ← img_get image sy sx 2; img_set out y x 2 v2.

Definition downsample_image (image : Image T) (w h : Z) : res (Image T) :=
  _ ← rassert ((0 <? w) && (0 <? h)) 781234981;
  let srcW := width image in
  let srcH := height image in
  let ch := channels image in
  _ ← rassert ((0 <? srcW) && (0 <? srcH)) 781234982;
  _ ← rassert ((ch =? 1) || (ch =? 3)) 781234983;
  let out := img_new w h ch in
  let sx_center := safe_mid_index srcW in
  let sy_center := safe_mid_index srcH in
  for_range 0 h (fun y out =>
    let sy := if h =? 1 then sy_center else map_index_round y h srcH in
    for_range 0 w (fun x out =>
      let sx := if w =? 1 then sx_center else map_index_round x w srcW in
      downsample_pixel image sy sx y x out) out) out.

Definition downsample_colors (colors : list (Color T)) (n : Z) : res (list (Color T)) :=
  if n <=? 0 then Ok []
  else if decide (colors = []) then Ok []
  else
    let m := wrap_int (Z.of_nat (length colors)) in
    if m <=? n then Ok colors
    else if n =? 1 then
      c ← vec_get colors (Z.quot m 2); Ok [c]
    else
      for_range 0 n (fun i out =>
        let idx := map_index_round i n m in
        c ← vec_get colors idx; Ok (out ++ [c])) [].
End Downsample.

(** ** blur.cpp *)

Record Kernel1D : Type := mkKernel {
  kw : list spec_float;
  kr : Z
}.

Section Blur.
Context {L : LibM}.

Definition makeGaussianKernel (sigma : spec_float) : res Kernel1D :=
  if negb (F32.ltb F32.zero sigma) then Ok (mkKernel [] 0)
  else
    let s := F32.max F32.milli sigma in
    c ← ceil_to_int (F32.mul F32.three s);
    let R := Z.max 0 c in
    w ← vec_new (wrap_size (wrap_int (wrap_int (2 * R) + 1))) F32.zero;
    let inv2s2 := F32.div F32.one (F32.mul (F32.mul F32.two s) s) in
    ws ← for_range (- R) (R + 1) (fun i ws =>
           let v := expf (F32.mul (F32.opp (F32.of_int (wrap_int (i * i)))) inv2s2) in
           w ← vec_set ws.1 (wrap_size (wrap_int (i + R))) v;
           Ok (w, F32.add ws.2 v)) (w, F32.zero);
    let sum := ws.2 in
    let w := if F32.ltb F32.zero sum then (λ v, F32.div v sum) <$> ws.1 else ws.1 in
    Ok (mkKernel w R).

(** [from_f<std::uint8_t>] *)
Definition from_f_u8 (v : spec_float) : Z :=
  let v := F32.clamp v F32.zero F32.c255 in
  wrap_u8 (lround v).

(** [from_f<int>] (an integral type other than std::uint8_t) *)
Definition from_f_int (v : spec_float) : Z := wrap_int (lround v).

Definition uint8_elem : Elem Z :=
  {| elem_zero := 0; to_f := F32.of_int; from_f := from_f_u8 |}.
Definition int_elem : Elem Z :=
  {| elem_zero := 0; to_f := F32.of_int; from_f := from_f_int |}.
Definition float_elem : Elem spec_float :=
  {| elem_zero := F32.zero; to_f := λ v, v; from_f := λ v, v |}.

Context {T : Type} {E : Elem T}.

(** [acc += w * v] *)
Definition fma_step (acc w v : spec_float) : spec_float :=
  F32.add acc (F32.mul w v).

(** The horizontal pass at one pixel: the taps of row [y] around column
    [x], into [tmp]. *)
Definition blur_horizontal_pixel (image : Image T) (k : Kernel1D) (y x : Z)
    (tmp : list spec_float) : res (list spec_float) :=
  let W := width image in
  let C := channels image in
  let R := kr k in
  if C =? 1 then
    acc ← for_range (- R) (R + 1) (fun dx acc =>
             let sx := clampi (wrap_int (x + dx)) 0 (wrap_int (W - 1)) in
             w ← vec_get (kw k) (wrap_size (wrap_int (dx + R)));
             p ← img_get image y sx 0;
             Ok (fma_step acc w (to_f p))) F32.zero;
    vec_set tmp (flat_index W C x y 0) acc
  else
    acc ← for_range (- R) (R + 1) (fun dx (acc : spec_float * spec_float * spec_float) =>
             let sx := clampi (wrap_int (x + dx)) 0 (wrap_int (W - 1)) in
             w ← vec_get (kw k) (wrap_size (wrap_int (dx + R)));
             p0 ← img_get image y sx 0;
             p1 ← img_get image y sx 1;
             p2 ← img_get image y sx 2;
             Ok (fma_step acc.1.1 w (to_f p0),
                 fma_step acc.1.2 w (to_f p1),
                 fma_step acc.2 w (to_f p2))) (F32.zero, F32.zero, F32.zero);
    tmp ← vec_set tmp (flat_index W C x y 0) acc.1.1;
    tmp ← vec_set tmp (flat_index W C x y 1) acc.1.2;
    vec_set tmp (flat_index W C x y 2) acc.2.

(** The vertical pass at one pixel: the taps of column [x] of [tmp]
    around row [y], converted into [out]. *)
Definition blur_vertical_pixel (W H C : Z) (k : Kernel1D) (tmp : list spec_float)
    (y x : Z) (out : Image T) : res (Image T) :=
  let R := kr k in
  if C =? 1 then
    acc ← for_range (- R) (R + 1) (fun dy acc =>
             let sy := clampi (wrap_int (y + dy)) 0 (wrap_int (H - 1)) in
             w ← vec_get (kw k) (wrap_size (wrap_int (dy + R)));
             t ← vec_get tmp (flat_index W C x sy 0);
             Ok (fma_step acc w t)) F32.zero;
    img_set out y x 0 (from_f acc)
  else
    acc ← for_range (- R) (R + 1) (fun dy (acc : spec_float * spec_float * spec_float) =>
             let sy := clampi (wrap_int (y + dy)) 0 (wrap_int (H - 1)) in
             w ← vec_get (kw k) (wrap_size (wrap_int (dy + R)));
             t0 ← vec_get tmp (flat_index W C x sy 0);
             t1 ← vec_get tmp (flat_index W C x sy 1);
             t2 ← vec_get tmp (flat_index W C x sy 2);
             Ok (fma_step acc.1.1 w t0, fma_step acc.1.2 w t1, fma_step acc.2 w t2))
           (F32.zero, F32.zero, F32.zero);
    out ← img_set out y x 0 (from_f acc.1.1);
    out ← img_set out y x 1 (from_f acc.1.2);
    img_set out y x 2 (from_f acc.2).

Definition blur_image (image : Image T) (strength : spec_float) : res (Image T) :=
  if negb (F32.ltb F32.zero strength) then Ok image
  else
    let W := width image in
    let H := height image in
    let C := channels image in
    _ ← rassert ((0 <? W) && (0 <? H)) 981234001;
    _ ← rassert ((C =? 1) || (C =? 3)) 981234002;
    k ← makeGaussianKernel strength;
    if kr k =? 0 then Ok image
    else
      tmp ← vec_new (wrap_size (wrap_size (W * H) * C)) F32.zero;
      tmp ← for_range 0 H (fun y tmp =>
               for_range 0 W (fun x tmp => blur_horizontal_pixel image k y x tmp) tmp) tmp;
      let out := img_new W H C in
      for_range 0 H (fun y out =>
        for_range 0 W (fun x out => blur_vertical_pixel W H C k tmp y x out) out) out.

Definition blur_colors (colors : list (Color T)) (strength : spec_float)
    : res (list (Color T)) :=
  if negb (F32.ltb F32.zero strength) then Ok colors
  else if decide (colors = []) then Ok []
  else
    k ← makeGaussianKernel strength;
    if kr k =? 0 then Ok colors
    else
      let R := kr k in
      let n := wrap_int (Z.of_nat (length colors)) in
      c0 ← vec_get colors 0;
      let C := color_channels c0 in
      _ ← rassert ((C =? 1) || (C =? 3)) 981234003;
      row ← vec_new (wrap_size n) F32.zero;
      tmp ← vec_new (wrap_size C) row;
      tmp ← for_range 0 n (fun i tmp =>
               for_range 0 C (fun c tmp =>
                 acc ← for_range (- R) (R + 1) (fun d acc =>
                          let si := clampi (wrap_int (i + d)) 0 (wrap_int (n - 1)) in
                          w ← vec_get (kw k) (wrap_size (wrap_int (d + R)));
                          p ← colors_get colors (wrap_size si) c;
                          Ok (fma_step acc w (to_f p))) F32.zero;
                 row ← vec_get tmp (wrap_size c);
                 row ← vec_set row (wrap_size i) acc;
                 vec_set tmp (wrap_size c) row) tmp) tmp;
      for_range 0 n (fun i out =>
        if C =? 1 then
          r0 ← vec_get tmp 0; v ← vec_get r0 (wrap_size i);
          Ok (out ++ [[from_f v]])
        else
          r0 ← vec_get tmp 0; v0 ← vec_get r0 (wrap_size i);
          r1 ← vec_get tmp 1; v1 ← vec_get r1 (wrap_size i);
          r2 ← vec_get tmp 2; v2 ← vec_get r2 (wrap_size i);
          Ok (out ++ [[from_f v0; from_f v1; from_f v2]])) [].
End Blur.

(** ** downsample_tests.cpp and blur_tests.cpp: the helpers of the tests *)

(** [v.reserve(n)], [n] already converted to size_t. *)
Definition vec_reserve (n : Z) : res unit :=
  if n <=? PTRDIFF_MAX then Ok tt else Fault LengthError.

(** the literal 255.0 *)
Definition f64_255 : spec_float := Eval vm_compute in F64.of_int 255.

Section Tests.
Context {L : LibM}.

(** [makeRedGradient], the same in both test files *)
Definition makeRedGradient (m : Z) : res (list (Color Z)) :=
  _ ← vec_reserve (wrap_size m);
  for_range 0 m (λ i v,
    let r := wrap_u8 (lround (F64.div (F64.mul f64_255 (F64.of_int i))
                                      (F64.of_int (Z.max 1 (wrap_int (m - 1)))))) in
    Ok (v ++ [[r; 0; 0]])) [].

(** [expectedIndicesRound] of downsample_tests.cpp: the indices the tests
    expect [downsample] to take *)
Definition expectedIndicesRound (m n : Z) : res (list Z) :=
  _ ← vec_reserve (wrap_size n);
  if (n <=? 0) || (m <=? 0) then Ok []
  else if n =? 1 then Ok [Z.quot m 2]
  else
    for_range 0 n (λ i idx,
      let pos :=
        F64.div (F64.mul (F64.of_int i) (F64.of_int (wrap_int (m - 1))))
                (F64.of_int (wrap_int (n - 1))) in
      let k := wrap_int (lround pos) in
      let k := Z.max 0 (Z.min (wrap_int (m - 1)) k) in
      Ok (idx ++ [k])) [].

Context {T : Type}.

(** [stretchToWidth]; [dflt] is the value of a default-constructed colour,
    which [out.resize] fills the vector with. *)
Definition stretchToWidth (dflt : Color T) (small : list (Color T)) (W : Z)
    : res (list (Color T)) :=
  out ← vec_new (wrap_size (Z.max 0 W)) dflt;
  if decide (small = []) then Ok out
  else if W <=? 0 then Ok out
  else if W =? 1 then
    c ← vec_get small (Z.of_nat (length small) / 2); vec_set out 0 c
  else
    let n := wrap_int (Z.of_nat (length small)) in
    for_range 0 W (λ x out,
      let pos :=
        F64.div (F64.mul (F64.of_int x) (F64.of_int (wrap_int (n - 1))))
                (F64.of_int (wrap_int (W - 1))) in
      let k := wrap_int (lround pos) in
      let k := Z.max 0 (Z.min (wrap_int (n - 1)) k) in
      c ← vec_get small (wrap_size k);
      vec_set out (wrap_size x) c) out.
End Tests.

(** * Specification-level definitions *)

(** ** Rasters and loop invariants *)

Section Rasters.
Context {A : Type}.
Variables W Hh C : Z.
Variable F : Z → Z → Z → A.

(** The buffer holds [F] at every element before position [cursor] of
    the row-major order. *)
Definition filled (cursor : Z) (buf : list A) : Prop :=
  Z.of_nat (length buf) = W * Hh * C ∧
  ∀ y x c, 0 ≤ y < Hh → 0 ≤ x < W → 0 ≤ c < C →
    (y * W + x) * C + c < cursor →
    buf !! Z.to_nat ((y * W + x) * C + c) = Some (F y x c).

End Rasters.

(** The rasters with given dimensions that hold [F]. *)
Definition img_holds {T : Type} (W Hh C : Z) (F : Z → Z → Z → T) (cursor : Z)
    (img : Image T) : Prop :=
  width img = W ∧ height img = Hh ∧ channels img = C ∧
  filled W Hh C F cursor (data img).

(** Reading a well-formed raster: the element at its row-major position. *)
Definition pixel {T : Type} {E : Elem T} (img : Image T) (y x c : Z) : T :=
  default elem_zero (data img !! Z.to_nat ((y * width img + x) * channels img + c)).

(** ** downsample: the source index of an output position *)

Section SourceIndex.
Context {L : LibM}.

(** The source index the code computes for output position [i] of an
    axis resampled from [source] to [target] elements. *)
Definition source_index (target source i : Z) : Z :=
  if target =? 1 then safe_mid_index source else map_index_round i target source.

End SourceIndex.

(** ** blur: the reference convolution *)

(** Clamp-to-edge addressing: an index outside [[0, extent - 1]] is
    replaced by the nearest one inside. *)
Definition clamp_to_edge (i extent : Z) : Z := Z.max 0 (Z.min (extent - 1) i).

(** The weight of the tap at offset [d] from the centre. *)
Definition tap (k : Kernel1D) (d : Z) : spec_float :=
  default F32.zero (kw k !! Z.to_nat (d + kr k)).

(** The 1D convolution of [signal], of [extent] samples, at [pos]: the taps
    from [- R] to [R] in this order, accumulated in binary32 from 0. *)
Definition convolve (k : Kernel1D) (signal : Z → spec_float) (extent pos : Z)
    : spec_float :=
  foldl (λ acc d, F32.add acc (F32.mul (tap k d) (signal (clamp_to_edge (pos + d) extent))))
        F32.zero (seqZ (- kr k) (2 * kr k + 1)).

(** The same convolution with the tap index as the code computes it, in
    [int] arithmetic. *)
Definition convolve_code (k : Kernel1D) (signal : Z → spec_float) (extent pos : Z)
    : spec_float :=
  foldl (λ acc d, F32.add acc (F32.mul (tap k d)
                    (signal (clampi (wrap_int (pos + d)) 0 (wrap_int (extent - 1))))))
        F32.zero (seqZ (- kr k) (2 * kr k + 1)).

Section BlurReference.
Context {L : LibM} {T : Type} {E : Elem T}.

(** The scratch value of the horizontal pass at (row, column, channel). *)
Definition blur_horizontal_reference (k : Kernel1D) (image : Image T) (y x c : Z)
    : spec_float :=
  convolve k (λ sx, to_f (pixel image y sx c)) (width image) x.

(** The blurred image: the vertical pass over the unrounded scratch
    values, converted to the element type. *)
Definition blur_image_reference (k : Kernel1D) (image : Image T) (y x c : Z) : T :=
  from_f (convolve k (λ sy, blur_horizontal_reference k image sy x c) (height image) y).

(** The values the two passes of the code leave in the scratch buffer and
    in the result. *)
Definition blur_horizontal_code (k : Kernel1D) (image : Image T) (y x c : Z)
    : spec_float :=
  convolve_code k (λ sx, to_f (pixel image y sx c)) (width image) x.

Definition blur_image_code (k : Kernel1D) (image : Image T) (y x c : Z) : T :=
  from_f (convolve_code k (λ sy, blur_horizontal_code k image sy x c) (height image) y).

(** Channel [c] of element [i] of a sequence. *)
Definition color_at (colors : list (Color T)) (i c : Z) : T :=
  match colors !! Z.to_nat i with
  | Some col => default elem_zero (col !! Z.to_nat c)
  | None => elem_zero
  end.

(** The blurred sequence: one convolution per channel. *)
Definition blur_colors_reference (k : Kernel1D) (colors : list (Color T)) (i c : Z) : T :=
  from_f (convolve k (λ si, to_f (color_at colors si c)) (Z.of_nat (length colors)) i).
Definition blur_colors_code (k : Kernel1D) (colors : list (Color T)) (i c : Z) : T :=
  from_f (convolve_code k (λ si, to_f (color_at colors si c))
                        (Z.of_nat (length colors)) i).
End BlurReference.

(** The shape of a kernel the convolution loops can run over. *)
Definition kernel_shape (k : Kernel1D) : Prop :=
  0 ≤ kr k < 2 ^ 30 ∧ Z.of_nat (length (kw k)) = 2 * kr k + 1.

Section KernelRaw.
Context {L : LibM}.

(** The weight of offset [i] before normalisation. *)
Definition kernel_raw (inv2s2 : spec_float) (i : Z) : spec_float :=
  expf (F32.mul (F32.opp (F32.of_int (wrap_int (i * i)))) inv2s2).

End KernelRaw.

Section BlurColorsRows.
Context {T : Type} {E : Elem T}.
Variable k : Kernel1D.
Variable colors : list (Color T).
Variable C : Z.

(** The scratch value of channel [c] at position [i]. *)
Definition blur_colors_scratch (i c : Z) : spec_float :=
  convolve_code k (λ s, to_f (color_at colors s c)) (Z.of_nat (length colors)) i.

(** Rows of the scratch buffer: row [c] holds the scratch values of channel
    [c] for the positions before [i], and position [i] for the channels
    before [cur]. *)
Definition rows_filled (i cur : Z) (tmp : list (list spec_float)) : Prop :=
  Z.of_nat (length tmp) = C ∧
  ∀ c, 0 ≤ c < C →
    ∃ row, tmp !! Z.to_nat c = Some row ∧
      Z.of_nat (length row) = Z.of_nat (length colors) ∧
      ∀ j, 0 ≤ j < i ∨ (j = i ∧ c < cur) →
        row !! Z.to_nat j = Some (blur_colors_scratch j c).

End BlurColorsRows.

Section BlurColorsLists.
Context {L : LibM} {T : Type} {E : Elem T}.

(** The blurred sequence, element by element and channel by channel. *)
Definition blur_colors_reference_list (k : Kernel1D) (colors : list (Color T)) (C : Z)
    : list (Color T) :=
  (λ i, (λ c, blur_colors_reference k colors i c) <$> seqZ 0 C)
    <$> seqZ 0 (Z.of_nat (length colors)).

Definition blur_colors_code_list (k : Kernel1D) (colors : list (Color T)) (C : Z)
    : list (Color T) :=
  (λ i, (λ c, blur_colors_code k colors i c) <$> seqZ 0 C)
    <$> seqZ 0 (Z.of_nat (length colors)).

End BlurColorsLists.


(** ** Rounding to nearest in [SpecFloat] *)

(** The mantissa [m] and location [l] describe the non-negative rational
    [N / D]: it lies in [[m, m + 1)], and [l] tells where. *)
Definition loc_ok (m : Z) (l : location) (N D : Z) : Prop :=
  m * D ≤ N < (m + 1) * D ∧
  match l with
  | loc_Exact => N = m * D
  | loc_Inexact Lt => m * D < N ∧ 2 * N < (2 * m + 1) * D
  | loc_Inexact Eq => 2 * N = (2 * m + 1) * D
  | loc_Inexact Gt => (2 * m + 1) * D < 2 * N
  end.

Definition rec_ok (mrs : shr_record) (N D : Z) : Prop :=
  0 ≤ shr_m mrs ∧ loc_ok (shr_m mrs) (loc_of_shr_record mrs) N D.

Section Pack.
Variables prec emax : Z.

(** A finite result, unless its exponent is above the largest one. *)
Definition pack_finite (sx : bool) (m e : Z) : spec_float :=
  if e <=? emax - prec then S754_finite sx (Z.to_pos m) e else S754_infinity sx.

(** The result for a rounded mantissa [m1 <= 2^prec] at exponent [e]:
    the mantissa [2^prec] is renormalised. *)
Definition pack_rounded (sx : bool) (m1 e : Z) : spec_float :=
  if m1 <? 2 ^ prec then pack_finite sx m1 e else pack_finite sx (m1 / 2) (e + 1).

End Pack.

(** The mantissa of the canonical form of a positive integer. *)
Definition norm53 (z : Z) : Z := z * 2 ^ (53 - Zdigits2 z).

(** The integer a finite value with a non-negative exponent equals, or the
    integer whose scaled form the mantissa is. *)
Definition int_value (M E V : Z) : Prop :=
  if 0 <=? E then V = M * 2 ^ E else M = V * 2 ^ (- E).

(** ** The index map on integers *)

(** [a / c] rounded to the nearest integer, ties away from zero, for
    [a >= 0] and [c > 0]. *)
Definition round_div (a c : Z) : Z := (2 * a + c) / (2 * c).

(** The index formula of the specification, in exact arithmetic: output
    position [i] of an axis resampled from [m] to [n] elements. *)
Definition index_formula (i n m : Z) : Z :=
  clampi (round_div (i * (m - 1)) (n - 1)) 0 (m - 1).

(** The value [2^20], as a float. *)
Definition f32_2p20 : spec_float := S754_finite false 8388608 (-3).

(** ** The Gaussian kernel *)

Section GaussianReference.
Context {L : LibM}.

(** [1.0f / (2.0f * s * s)] *)
Definition kernel_inv2s2 (s : spec_float) : spec_float :=
  F32.div F32.one (F32.mul (F32.mul F32.two s) s).

(** The sum of a list of floats, accumulated in binary32 from 0 in the
    order of the list. *)
Definition float_sum (l : list spec_float) : spec_float := foldl F32.add F32.zero l.

(** Normalisation: every weight divided by the accumulated sum, where that
    sum is greater than zero. *)
Definition normalise (raw : list spec_float) : list spec_float :=
  let sum := float_sum raw in
  if F32.ltb F32.zero sum then (λ v, F32.div v sum) <$> raw else raw.

(** The weights the code computes for scale [s] and radius [R], the square
    in [int] arithmetic. *)
Definition kernel_weights_code (s : spec_float) (R : Z) : list spec_float :=
  normalise (kernel_raw (kernel_inv2s2 s) <$> seqZ (- R) (2 * R + 1)).

End GaussianReference.

(** ** binary32 values as integers *)

(** The value of a non-negative binary32 float in units of [2^-149], the
    smallest positive float: an integer. *)
Definition scaled (x : spec_float) : Z :=
  match x with
  | S754_finite false m e => Z.pos m * 2 ^ (e + 149)
  | _ => 0
  end.

(** The floats that are [+0] or positive and finite, with an exponent that
    binary32 has. *)
Definition f32_nonneg (x : spec_float) : bool :=
  match x with
  | S754_zero false => true
  | S754_finite false m e => -149 <=? e
  | _ => false
  end.

(** The exact sum of a list of non-negative floats, in units of [2^-149]. *)
Definition scaled_sum (l : list spec_float) : Z :=
  foldr (λ v acc, scaled v + acc) 0 l.

(** The floats of the interval [[0, 1]]. *)
Definition f32_unit (x : spec_float) : bool :=
  f32_nonneg x && (scaled x <=? 2 ^ 149).

(** The value [2^11], as a float. *)
Definition f32_2p11 : spec_float := S754_finite false 8388608 (-12).

(** The radius as the specification words it, [ceil (3 * max (0.001, sigma))]
    over the rationals, of a positive finite [sigma = m * 2^e]. *)
Definition radius_formula (sigma : spec_float) : Z :=
  match sigma with
  | S754_finite false m e =>
      if 0 <=? e then 3 * Z.pos m * 2 ^ e
      else if 1000 * Z.pos m <? 2 ^ (- e) then 1
      else - ((- (3 * Z.pos m)) / 2 ^ (- e))
  | _ => 0
  end.

(** ** Example inputs *)

(** A C library to evaluate examples with: [expf] by a truncated series of
    its reciprocal, and LONG_MIN where [lround] is unspecified. *)
Definition example_expf (x : spec_float) : spec_float :=
  let t := F32.opp x in
  let t2 := F32.mul t t in
  F32.div F32.one
    (F32.add (F32.add F32.one t)
             (F32.add (F32.div t2 F32.two) (F32.div (F32.mul t2 t) (F32.of_int 6)))).

Definition example_libm : LibM :=
  {| expf := example_expf; lround_unspecified := λ _, LONG_MIN |}.

Definition example_u8 : Elem Z := @uint8_elem example_libm.

(** [example_expf] with the values outside [[0, 1]] replaced by 0. *)
Definition example_expf_unit (x : spec_float) : spec_float :=
  let v := example_expf x in
  if f32_unit v then v else F32.zero.

Definition example_libm_unit : LibM :=
  {| expf := example_expf_unit; lround_unspecified := λ _, LONG_MIN |}.

(** The strength 0.5f, whose kernel has radius 2. *)
Definition example_half : spec_float := Eval vm_compute in F32.div F32.one F32.two.

Definition example_kernel : Kernel1D :=
  Eval vm_compute in
    match makeGaussianKernel (L := example_libm) example_half with
    | Ok k => k
    | _ => mkKernel [] 0
    end.

(** * Properties *)

(** ** Integers, loops and containers *)

Lemma wrap_int_id (z : Z) : INT_MIN ≤ z ≤ INT_MAX → wrap_int z = z.
Proof.
  unfold wrap_int, INT_MIN, INT_MAX. intros Hz.
  rewrite Z.mod_small; lia.
Qed.

Lemma wrap_size_id (z : Z) : 0 ≤ z < 2 ^ 64 → wrap_size z = z.
Proof. unfold wrap_size. intros Hz. apply Z.mod_small; lia. Qed.

Lemma clampi_range (v lo hi : Z) : lo ≤ hi → lo ≤ clampi v lo hi ≤ hi.
Proof. unfold clampi. lia. Qed.

Lemma clampi_id (v lo hi : Z) : lo ≤ v ≤ hi → clampi v lo hi = v.
Proof. unfold clampi. lia. Qed.

Lemma bind_Ok {A B : Type} (c : res A) (k : A → res B) (b : B) :
  c ≫= k = Ok b ↔ ∃ a, c = Ok a ∧ k a = Ok b.
Proof.
  destruct c as [a| |]; simpl; split.
  - intros Hk. exists a. auto.
  - intros (a' & [= ->] & Hk). exact Hk.
  - discriminate.
  - intros (a' & [=] & _).
  - discriminate.
  - intros (a' & [=] & _).
Qed.

(** The loop rule: an invariant that every iteration re-establishes while
    returning normally holds after the loop, which returns normally. *)
Lemma for_loop_inv {St : Type} (Inv : Z → St → Prop) (body : Z → St → res St)
    (fuel : nat) (i : Z) (s : St) :
  Inv i s →
  (∀ j t, i ≤ j < i + Z.of_nat fuel → Inv j t → ∃ t', body j t = Ok t' ∧ Inv (j + 1) t') →
  ∃ s', for_loop fuel i body s = Ok s' ∧ Inv (i + Z.of_nat fuel) s'.
Proof.
  revert i s. induction fuel as [|fuel IH]; intros i s Hi Hstep.
  - exists s. simpl. rewrite Z.add_0_r. auto.
  - destruct (Hstep i s) as (t & Hb & Ht); [lia | exact Hi |].
    destruct (IH (i + 1) t Ht) as (s' & Hs' & Hinv).
    + intros j u Hj Hu. apply Hstep; [lia | exact Hu].
    + exists s'. simpl. rewrite Hb. simpl. split; [exact Hs'|].
      replace (i + Z.of_nat (S fuel)) with (i + 1 + Z.of_nat fuel) by lia.
      exact Hinv.
Qed.

Lemma for_range_inv {St : Type} (Inv : Z → St → Prop) (body : Z → St → res St)
    (lo hi : Z) (s : St) :
  lo ≤ hi →
  Inv lo s →
  (∀ j t, lo ≤ j < hi → Inv j t → ∃ t', body j t = Ok t' ∧ Inv (j + 1) t') →
  ∃ s', for_range lo hi body s = Ok s' ∧ Inv hi s'.
Proof.
  intros Hle Hi Hstep. unfold for_range.
  destruct (for_loop_inv Inv body (Z.to_nat (hi - lo)) lo s Hi) as (s' & Hs' & Hinv).
  - intros j t Hj. apply Hstep. lia.
  - exists s'. split; [exact Hs'|].
    replace hi with (lo + Z.of_nat (Z.to_nat (hi - lo))) at 1 by lia. exact Hinv.
Qed.

Lemma for_range_empty {St : Type} (body : Z → St → res St) (lo hi : Z) (s : St) :
  hi ≤ lo → for_range lo hi body s = Ok s.
Proof.
  intros Hle. unfold for_range.
  replace (Z.to_nat (hi - lo)) with O by lia. reflexivity.
Qed.

(** A loop whose body only reads and combines is a left fold. *)
Lemma for_range_fold {St : Type} (body : Z → St → res St) (step : St → Z → St)
    (lo hi : Z) (s : St) :
  lo ≤ hi →
  (∀ j t, lo ≤ j < hi → body j t = Ok (step t j)) →
  for_range lo hi body s = Ok (foldl step s (seqZ lo (hi - lo))).
Proof.
  intros Hle Hbody.
  destruct (for_range_inv
              (λ j t, t = foldl step s (seqZ lo (j - lo))) body lo hi s Hle)
    as (s' & Hs' & ->).
  - rewrite Z.sub_diag. reflexivity.
  - intros j t Hj ->. eexists. split; [apply Hbody; exact Hj|].
    replace (j + 1 - lo) with (j - lo + 1) by lia.
    rewrite seqZ_app by lia. rewrite foldl_app. simpl.
    replace (lo + (j - lo)) with j by lia. reflexivity.
  - exact Hs'.
Qed.

Lemma vec_get_Ok {A : Type} (v : list A) (i : Z) (a : A) :
  0 ≤ i → v !! Z.to_nat i = Some a → vec_get v i = Ok a.
Proof.
  intros Hi Hl. unfold vec_get.
  assert (Z.to_nat i < length v)%nat by (eapply lookup_lt_Some; exact Hl).
  rewrite (proj2 (Z.leb_le 0 i)) by lia.
  rewrite (proj2 (Z.ltb_lt i _)) by lia. simpl. rewrite Hl. reflexivity.
Qed.

Lemma vec_get_inv {A : Type} (v : list A) (i : Z) (a : A) :
  vec_get v i = Ok a → 0 ≤ i < Z.of_nat (length v) ∧ v !! Z.to_nat i = Some a.
Proof.
  unfold vec_get. destruct (Z.leb_spec 0 i); simpl; [|discriminate].
  destruct (Z.ltb_spec i (Z.of_nat (length v))); [|discriminate].
  destruct (v !! Z.to_nat i) eqn:E; [|discriminate].
  intros [= ->]. auto.
Qed.

Lemma vec_set_Ok {A : Type} (v : list A) (i : Z) (a : A) :
  0 ≤ i < Z.of_nat (length v) → vec_set v i a = Ok (<[Z.to_nat i := a]> v).
Proof.
  intros Hi. unfold vec_set.
  rewrite (proj2 (Z.leb_le 0 i)) by lia.
  rewrite (proj2 (Z.ltb_lt i _)) by lia. reflexivity.
Qed.

(** ** Row-major rasters *)

Lemma flat_bound (W Hh C x y c : Z) :
  0 ≤ x < W → 0 ≤ y < Hh → 0 ≤ c < C →
  0 ≤ (y * W + x) * C + c < W * Hh * C.
Proof.
  intros Hx Hy Hc.
  assert (0 ≤ y * W + x) by nia.
  assert (y * W + x + 1 ≤ Hh * W) by nia.
  split; [nia|].
  assert ((y * W + x + 1) * C ≤ Hh * W * C) by (apply Z.mul_le_mono_nonneg_r; lia).
  nia.
Qed.

Lemma flat_inj (W C x y c x' y' c' : Z) :
  0 ≤ x < W → 0 ≤ c < C → 0 ≤ x' < W → 0 ≤ c' < C →
  (y * W + x) * C + c = (y' * W + x') * C + c' →
  y = y' ∧ x = x' ∧ c = c'.
Proof.
  intros Hx Hc Hx' Hc' E.
  assert (Hp : y * W + x = y' * W + x') by nia.
  assert (y = y') by nia.
  subst y'. split; [reflexivity|]. split; nia.
Qed.

Lemma flat_index_eq (W Hh C x y c : Z) :
  W * Hh * C < 2 ^ 64 →
  0 ≤ x < W → 0 ≤ y < Hh → 0 ≤ c < C →
  flat_index W C x y c = (y * W + x) * C + c.
Proof.
  intros Hsz Hx Hy Hc.
  pose proof (flat_bound W Hh C x y c Hx Hy Hc) as Hb.
  assert (0 ≤ y * W) by nia.
  assert (0 ≤ (y * W + x) * C) by nia.
  assert (0 ≤ y * W + x) by nia.
  assert (y * W + x ≤ (y * W + x) * C) by nia.
  unfold flat_index.
  rewrite (wrap_size_id (y * W)) by nia.
  rewrite (wrap_size_id (y * W + x)) by nia.
  rewrite (wrap_size_id ((y * W + x) * C)) by nia.
  apply wrap_size_id. lia.
Qed.

Section Filled.
Context {A : Type}.
Variables W Hh C : Z.
Variable F : Z → Z → Z → A.

Lemma filled_start (buf : list A) :
  Z.of_nat (length buf) = W * Hh * C → filled W Hh C F 0 buf.
Proof.
  intros Hlen. split; [exact Hlen|].
  intros y x c Hy Hx Hc Hlt.
  pose proof (flat_bound W Hh C x y c Hx Hy Hc). lia.
Qed.

Lemma filled_step (buf : list A) (y x c : Z) :
  0 ≤ y < Hh → 0 ≤ x < W → 0 ≤ c < C →
  filled W Hh C F ((y * W + x) * C + c) buf →
  filled W Hh C F ((y * W + x) * C + c + 1) (<[Z.to_nat ((y * W + x) * C + c) := F y x c]> buf).
Proof.
  intros Hy Hx Hc [Hlen Hfill].
  pose proof (flat_bound W Hh C x y c Hx Hy Hc) as Hb.
  split; [rewrite length_insert; exact Hlen|].
  intros y' x' c' Hy' Hx' Hc' Hlt.
  pose proof (flat_bound W Hh C x' y' c' Hx' Hy' Hc') as Hb'.
  destruct (Z.eq_dec ((y' * W + x') * C + c') ((y * W + x) * C + c)) as [E|NE].
  - destruct (flat_inj W C x' y' c' x y c Hx' Hc' Hx Hc E) as (-> & -> & ->).
    apply list_lookup_insert_eq. lia.
  - rewrite list_lookup_insert_ne by lia.
    apply Hfill; auto. lia.
Qed.

Lemma filled_all (buf : list A) (y x c : Z) :
  filled W Hh C F (W * Hh * C) buf →
  0 ≤ y < Hh → 0 ≤ x < W → 0 ≤ c < C →
  buf !! Z.to_nat ((y * W + x) * C + c) = Some (F y x c).
Proof.
  intros [_ Hfill] Hy Hx Hc. apply Hfill; auto.
  pose proof (flat_bound W Hh C x y c Hx Hy Hc). lia.
Qed.

(** Writing one element through the size_t index of the code. *)
Lemma vec_set_filled (buf : list A) (y x c : Z) :
  W * Hh * C < 2 ^ 64 →
  0 ≤ y < Hh → 0 ≤ x < W → 0 ≤ c < C →
  filled W Hh C F ((y * W + x) * C + c) buf →
  ∃ buf', vec_set buf (flat_index W C x y c) (F y x c) = Ok buf' ∧
          filled W Hh C F ((y * W + x) * C + c + 1) buf'.
Proof.
  intros Hsz Hy Hx Hc Hf.
  pose proof (flat_bound W Hh C x y c Hx Hy Hc) as Hb.
  rewrite (flat_index_eq W Hh C x y c Hsz Hx Hy Hc).
  eexists. split.
  - apply vec_set_Ok. destruct Hf as [Hlen _]. lia.
  - apply filled_step; auto.
Qed.
End Filled.

Lemma img_set_holds {T : Type} (W Hh C : Z) (F : Z → Z → Z → T) (img : Image T)
    (y x c : Z) :
  W * Hh * C < 2 ^ 64 →
  0 ≤ y < Hh → 0 ≤ x < W → 0 ≤ c < C →
  img_holds W Hh C F ((y * W + x) * C + c) img →
  ∃ img', img_set img y x c (F y x c) = Ok img' ∧
          img_holds W Hh C F ((y * W + x) * C + c + 1) img'.
Proof.
  intros Hsz Hy Hx Hc (HW & HH & HC & Hf).
  destruct (vec_set_filled W Hh C F (data img) y x c Hsz Hy Hx Hc Hf) as (d & Hd & Hfd).
  exists (mkImage W Hh C d). split.
  - unfold img_set, in_image. rewrite HW, HH, HC.
    rewrite (proj2 (Z.leb_le 0 y)), (proj2 (Z.ltb_lt y Hh)) by lia.
    rewrite (proj2 (Z.leb_le 0 x)), (proj2 (Z.ltb_lt x W)) by lia.
    rewrite (proj2 (Z.leb_le 0 c)), (proj2 (Z.ltb_lt c C)) by lia.
    simpl. rewrite Hd. reflexivity.
  - repeat split; try reflexivity; apply Hfd.
Qed.

Lemma img_get_holds {T : Type} (W Hh C : Z) (F : Z → Z → Z → T) (img : Image T)
    (y x c : Z) :
  W * Hh * C < 2 ^ 64 →
  img_holds W Hh C F (W * Hh * C) img →
  0 ≤ y < Hh → 0 ≤ x < W → 0 ≤ c < C →
  img_get img y x c = Ok (F y x c).
Proof.
  intros Hsz (HW & HH & HC & Hf) Hy Hx Hc.
  pose proof (flat_bound W Hh C x y c Hx Hy Hc) as Hb.
  unfold img_get, in_image. rewrite HW, HH, HC.
  rewrite (proj2 (Z.leb_le 0 y)), (proj2 (Z.ltb_lt y Hh)) by lia.
  rewrite (proj2 (Z.leb_le 0 x)), (proj2 (Z.ltb_lt x W)) by lia.
  rewrite (proj2 (Z.leb_le 0 c)), (proj2 (Z.ltb_lt c C)) by lia.
  simpl. rewrite (flat_index_eq W Hh C x y c Hsz Hx Hy Hc).
  apply vec_get_Ok; [lia|]. eapply filled_all; eauto.
Qed.

Lemma wf_image_size {T : Type} (img : Image T) :
  wf_image img → width img * height img * channels img < 2 ^ 64.
Proof.
  intros (_ & _ & _ & Hlen & Hmax). unfold PTRDIFF_MAX in Hmax. lia.
Qed.

Lemma img_get_wf {T : Type} {E : Elem T} (img : Image T) (y x c : Z) :
  wf_image img →
  0 ≤ y < height img → 0 ≤ x < width img → 0 ≤ c < channels img →
  img_get img y x c = Ok (pixel img y x c).
Proof.
  intros Hwf Hy Hx Hc.
  pose proof (wf_image_size img Hwf) as Hsz.
  destruct Hwf as (_ & _ & _ & Hlen & _).
  pose proof (flat_bound _ _ _ x y c Hx Hy Hc) as Hb.
  unfold img_get, in_image.
  rewrite (proj2 (Z.leb_le 0 y)), (proj2 (Z.ltb_lt y _)) by lia.
  rewrite (proj2 (Z.leb_le 0 x)), (proj2 (Z.ltb_lt x _)) by lia.
  rewrite (proj2 (Z.leb_le 0 c)), (proj2 (Z.ltb_lt c _)) by lia.
  simpl. rewrite (flat_index_eq _ _ _ x y c Hsz Hx Hy Hc).
  unfold pixel.
  destruct (lookup_lt_is_Some_2 (data img)
              (Z.to_nat ((y * width img + x) * channels img + c))) as [v Hv]; [lia|].
  rewrite Hv. simpl. apply vec_get_Ok; [lia | exact Hv].
Qed.

(** Two nested loops over the rows and columns of a raster, the body
    moving the row-major cursor across one pixel. *)
Lemma raster_loops {St : Type} (Inv : Z → St → Prop) (body : Z → Z → St → res St)
    (W Hh C : Z) (s : St) :
  0 ≤ W → 0 ≤ Hh →
  Inv 0 s →
  (∀ y x t, 0 ≤ y < Hh → 0 ≤ x < W → Inv ((y * W + x) * C) t →
     ∃ t', body y x t = Ok t' ∧ Inv ((y * W + x + 1) * C) t') →
  ∃ s', for_range 0 Hh (λ y s, for_range 0 W (λ x s, body y x s) s) s = Ok s' ∧
        Inv (W * Hh * C) s'.
Proof.
  intros HW HH H0 Hbody.
  destruct (for_range_inv (λ y t, Inv (y * W * C) t)
              (λ y s, for_range 0 W (λ x s, body y x s) s) 0 Hh s HH)
    as (s' & Hs' & Hinv).
  - exact H0.
  - intros y t Hy Ht.
    destruct (for_range_inv (λ x u, Inv ((y * W + x) * C) u)
                (λ x s, body y x s) 0 W t HW) as (t' & Ht' & Hinv').
    + rewrite Z.add_0_r. exact Ht.
    + intros x u Hx Hu.
      replace (y * W + (x + 1)) with (y * W + x + 1) by ring. apply Hbody; auto.
    + exists t'. split; [exact Ht'|].
      replace ((y + 1) * W * C) with ((y * W + W) * C) by ring. exact Hinv'.
  - exists s'. split; [exact Hs'|].
    replace (W * Hh * C) with (Hh * W * C) by ring. exact Hinv.
Qed.

(** ** downsample: what every output element is *)

Section DownsampleShape.
Context {L : LibM}.

Lemma map_index_round_range (i n m : Z) :
  1 ≤ m ≤ INT_MAX → 0 ≤ map_index_round i n m ≤ m - 1.
Proof.
  intros Hm. unfold map_index_round.
  rewrite (wrap_int_id (m - 1)) by (unfold INT_MIN, INT_MAX in *; lia).
  apply clampi_range. lia.
Qed.

Lemma safe_mid_index_range (m : Z) : 1 ≤ m → 0 ≤ safe_mid_index m < m.
Proof.
  intros Hm. unfold safe_mid_index.
  destruct (Z.leb_spec m 0); [lia|].
  rewrite Z.quot_div_nonneg by lia.
  split; [apply Z.div_pos; lia | apply Z.div_lt_upper_bound; lia].
Qed.

Lemma source_index_range (target source i : Z) :
  1 ≤ source ≤ INT_MAX → 0 ≤ source_index target source i < source.
Proof.
  intros Hs. unfold source_index. destruct (target =? 1).
  - apply safe_mid_index_range. lia.
  - pose proof (map_index_round_range i target source Hs). lia.
Qed.

Context {T : Type} {E : Elem T}.

Lemma img_new_holds (F : Z → Z → Z → T) (w h ch : Z) :
  0 ≤ w → 0 ≤ h → 0 ≤ ch → img_holds w h ch F 0 (img_new w h ch).
Proof.
  intros Hw Hh Hc. unfold img_new. repeat split; simpl.
  - rewrite length_replicate. nia.
  - intros y x c Hy Hx Hcc Hlt.
    pose proof (flat_bound w h ch x y c Hx Hy Hcc). lia.
Qed.

Lemma downsample_pixel_holds (image out : Image T) (w h sy sx y x : Z) :
  wf_image image →
  channels image = 1 ∨ channels image = 3 →
  0 ≤ sy < height image → 0 ≤ sx < width image →
  w * h * channels image < 2 ^ 64 →
  0 ≤ y < h → 0 ≤ x < w →
  ∀ F : Z → Z → Z → T,
  (∀ c, 0 ≤ c < channels image → F y x c = pixel image sy sx c) →
  img_holds w h (channels image) F ((y * w + x) * channels image) out →
  ∃ out', downsample_pixel image sy sx y x out = Ok out' ∧
          img_holds w h (channels image) F ((y * w + x + 1) * channels image) out'.
Proof.
  intros Hwf Hch Hsy Hsx Hsz Hy Hx F HF Hout.
  unfold downsample_pixel. destruct Hch as [Hch|Hch]; rewrite Hch in *; simpl.
  - rewrite (img_get_wf image sy sx 0) by (auto; lia). simpl.
    rewrite <- (HF 0) by lia.
    destruct (img_set_holds w h 1 F out y x 0 Hsz Hy Hx) as (o & Ho & Hh1); [lia | |].
    + rewrite Z.add_0_r. exact Hout.
    + exists o. split; [exact Ho|].
      replace ((y * w + x + 1) * 1) with ((y * w + x) * 1 + 0 + 1) by ring. exact Hh1.
  - rewrite (img_get_wf image sy sx 0) by (auto; lia). simpl.
    rewrite <- (HF 0) by lia.
    destruct (img_set_holds w h 3 F out y x 0 Hsz Hy Hx) as (o0 & Ho0 & Hh0); [lia | |].
    { rewrite Z.add_0_r. exact Hout. }
    rewrite Ho0. simpl.
    rewrite (img_get_wf image sy sx 1) by (auto; lia). simpl.
    rewrite <- (HF 1) by lia.
    destruct (img_set_holds w h 3 F o0 y x 1 Hsz Hy Hx) as (o1 & Ho1 & Hh1); [lia | |].
    { rewrite Z.add_0_r in Hh0. exact Hh0. }
    rewrite Ho1. simpl.
    rewrite (img_get_wf image sy sx 2) by (auto; lia). simpl.
    rewrite <- (HF 2) by lia.
    destruct (img_set_holds w h 3 F o1 y x 2 Hsz Hy Hx) as (o2 & Ho2 & Hh2); [lia | |].
    { replace ((y * w + x) * 3 + 2) with ((y * w + x) * 3 + 1 + 1) by ring. exact Hh1. }
    exists o2. split; [exact Ho2|].
    replace ((y * w + x + 1) * 3) with ((y * w + x) * 3 + 2 + 1) by ring. exact Hh2.
Qed.

(** Image downsample: under its preconditions the call returns a raster
    of the requested size, each element of which is the source element
    at the row and column the two axes select. *)
Lemma downsample_image_spec (image : Image T) (w h : Z) :
  wf_image image →
  0 < width image → 0 < height image →
  channels image = 1 ∨ channels image = 3 →
  0 < w ≤ INT_MAX → 0 < h ≤ INT_MAX →
  ∃ out, downsample_image image w h = Ok out ∧
    width out = w ∧ height out = h ∧ channels out = channels image ∧
    Z.of_nat (length (data out)) = w * h * channels image ∧
    ∀ y x c, 0 ≤ y < h → 0 ≤ x < w → 0 ≤ c < channels image →
      img_get out y x c =
      Ok (pixel image (source_index h (height image) y)
                      (source_index w (width image) x) c).
Proof.
  intros Hwf HsW HsH Hch Hw Hh.
  assert (Hsz : w * h * channels image < 2 ^ 64).
  { unfold INT_MAX in *. destruct Hch as [-> | ->]; nia. }
  pose (F := λ y x c, pixel image (source_index h (height image) y)
                                  (source_index w (width image) x) c).
  unfold downsample_image.
  rewrite (proj2 (Z.ltb_lt 0 w)), (proj2 (Z.ltb_lt 0 h)) by lia. simpl.
  rewrite (proj2 (Z.ltb_lt 0 (width image))), (proj2 (Z.ltb_lt 0 (height image))) by lia.
  simpl.
  assert (Hchb : (channels image =? 1) || (channels image =? 3) = true).
  { destruct Hch as [-> | ->]; reflexivity. }
  rewrite Hchb. simpl.
  destruct (raster_loops (img_holds w h (channels image) F)
              (λ y x out,
                 downsample_pixel image
                   (if h =? 1 then safe_mid_index (height image)
                    else map_index_round y h (height image))
                   (if w =? 1 then safe_mid_index (width image)
                    else map_index_round x w (width image)) y x out)
              w h (channels image) (img_new w h (channels image)))
    as (out & Hout & Hholds).
  - lia.
  - lia.
  - apply img_new_holds; destruct Hch; lia.
  - intros y x t Hy Hx Ht.
    assert (Hsy : 0 ≤ source_index h (height image) y < height image).
    { apply source_index_range. destruct Hwf as (_ & ? & _). lia. }
    assert (Hsx : 0 ≤ source_index w (width image) x < width image).
    { apply source_index_range. destruct Hwf as (? & _). lia. }
    exact (downsample_pixel_holds image t w h _ _ y x Hwf Hch Hsy Hsx Hsz Hy Hx F
             (λ c _, eq_refl) Ht).
  - exists out. split; [exact Hout|].
    pose proof Hholds as (HW & HH & HC & Hlen & _).
    split; [exact HW|]. split; [exact HH|]. split; [exact HC|].
    split; [exact Hlen|].
    intros y x c Hy Hx Hc.
    exact (img_get_holds w h (channels image) F out y x c Hsz Hholds Hy Hx Hc).
Qed.
End DownsampleShape.

Section DownsampleColors.
Context {L : LibM} {T : Type} {E : Elem T}.

(** Sequence downsample, general path: [n] elements, element [i] taken
    from the source at the index the code maps [i] to. *)
Lemma downsample_colors_spec (colors : list (Color T)) (n : Z) :
  2 ≤ n < Z.of_nat (length colors) →
  Z.of_nat (length colors) ≤ INT_MAX →
  ∃ out, downsample_colors colors n = Ok out ∧
    Z.of_nat (length out) = n ∧
    ∀ i, 0 ≤ i < n →
      out !! Z.to_nat i =
      colors !! Z.to_nat (map_index_round i n (Z.of_nat (length colors))).
Proof.
  intros Hn Hmax. unfold downsample_colors.
  destruct (Z.leb_spec n 0); [lia|].
  destruct (decide (colors = [])) as [->|_]; [simpl in Hn; lia|].
  rewrite wrap_int_id by (unfold INT_MIN, INT_MAX in *; lia).
  destruct (Z.leb_spec (Z.of_nat (length colors)) n); [lia|].
  destruct (Z.eqb_spec n 1); [lia|].
  set (m := Z.of_nat (length colors)).
  destruct (for_range_inv
    (λ j (out : list (Color T)),
       Z.of_nat (length out) = j ∧
       ∀ i, 0 ≤ i < j → out !! Z.to_nat i = colors !! Z.to_nat (map_index_round i n m))
    (λ i out, c ← vec_get colors (map_index_round i n m); Ok (out ++ [c]))
    0 n []) as (out & Hout & Hlen & Hall).
  - lia.
  - split; [reflexivity|]. intros i Hi. lia.
  - intros j t Hj [Hlen Hall].
    pose proof (map_index_round_range j n m ltac:(unfold m; lia)) as Hr.
    destruct (lookup_lt_is_Some_2 colors (Z.to_nat (map_index_round j n m)))
      as [c Hc]; [unfold m in *; lia|].
    exists (t ++ [c]). split.
    + rewrite (vec_get_Ok colors _ c) by (auto; lia). reflexivity.
    + split; [rewrite length_app; simpl; lia|].
      intros i Hi. destruct (Z.eq_dec i j) as [->|NE].
      * replace (Z.to_nat j) with (length t) by lia.
        rewrite list_lookup_middle by reflexivity. symmetry. exact Hc.
      * rewrite lookup_app_l by lia. apply Hall. lia.
  - exists out. auto.
Qed.
End DownsampleColors.

(** ** Sequence resampling: degenerate requests *)

(** The three early returns of sequence downsample. *)
Lemma downsample_colors_shortcuts (L : LibM) (T : Type)
    (colors : list (Color T)) (n : Z) :
  (n ≤ 0 → downsample_colors colors n = Ok []) ∧
  (colors = [] → downsample_colors colors n = Ok []) ∧
  (Z.of_nat (length colors) ≤ n → downsample_colors colors n = Ok colors).
Proof.
  unfold downsample_colors. repeat split.
  - intros Hn. rewrite (proj2 (Z.leb_le n 0)) by lia. reflexivity.
  - intros ->. destruct (n <=? 0); reflexivity.
  - intros Hlen. destruct (Z.leb_spec n 0) as [Hn|Hn].
    + destruct colors; [reflexivity | simpl in Hlen; lia].
    + destruct (decide (colors = [])) as [->|_]; [reflexivity|].
      assert (Hm : wrap_int (Z.of_nat (length colors)) ≤ n).
      { destruct (Z.le_gt_cases (Z.of_nat (length colors)) INT_MAX).
        - rewrite wrap_int_id by (unfold INT_MIN, INT_MAX in *; lia). exact Hlen.
        - unfold wrap_int, INT_MAX in *.
          pose proof (Z.mod_pos_bound (Z.of_nat (length colors) + 2 ^ 31) (2 ^ 32)
                        ltac:(lia)). lia. }
      rewrite (proj2 (Z.leb_le _ n)) by exact Hm. reflexivity.
Qed.

(** C6: a sequence resampled to a target length [n <= 0] is empty, an empty
    source gives an empty result, and a target length not below the source
    length returns the source unchanged; all three return normally. *)
Theorem downsample_colors_degenerate (L : LibM) (T : Type)
    (colors : list (Color T)) (n : Z) :
  (n ≤ 0 → downsample_colors colors n = Ok []) ∧
  (colors = [] → downsample_colors colors n = Ok []) ∧
  (Z.of_nat (length colors) ≤ n → downsample_colors colors n = Ok colors).
Proof. exact (downsample_colors_shortcuts L T colors n). Qed.

Lemma downsample_colors_degenerate_witness :
  downsample_colors (L := example_libm) [[7]; [8]; [9]] (-1) = Ok [] ∧
  downsample_colors (L := example_libm) ([] : list (Color Z)) 4 = Ok [] ∧
  downsample_colors (L := example_libm) [[7]; [8]; [9]] 3 = Ok [[7]; [8]; [9]].
Proof.
  split; [|split].
  - apply (proj1 (downsample_colors_degenerate example_libm Z [[7]; [8]; [9]] (-1))). lia.
  - apply (proj1 (proj2 (downsample_colors_degenerate example_libm Z [] 4))). reflexivity.
  - apply (proj2 (proj2 (downsample_colors_degenerate example_libm Z [[7]; [8]; [9]] 3))).
    simpl. lia.
Defined.

(** ** Target size 1 *)

(** C5: a request for target size 1 yields the lower-middle source element,
    index [m / 2]: the only element of the result for a sequence of length
    [m >= 1], and along each axis of an image whose target size is 1. *)
Theorem downsample_single_target (L : LibM) (T : Type) (E : Elem T)
    (colors : list (Color T)) (image : Image T) (w h : Z) :
  1 ≤ Z.of_nat (length colors) ≤ INT_MAX →
  wf_image image →
  0 < width image → 0 < height image →
  channels image = 1 ∨ channels image = 3 →
  0 < w ≤ INT_MAX → 0 < h ≤ INT_MAX →
  (∃ c, colors !! Z.to_nat (Z.of_nat (length colors) / 2) = Some c ∧
        downsample_colors colors 1 = Ok [c]) ∧
  (∃ out, downsample_image image w h = Ok out ∧
     width out = w ∧ height out = h ∧ channels out = channels image ∧
     ∀ y x c, 0 ≤ y < h → 0 ≤ x < w → 0 ≤ c < channels image →
       ∃ sy sx v,
         img_get image sy sx c = Ok v ∧ img_get out y x c = Ok v ∧
         (h = 1 → sy = height image / 2) ∧
         (w = 1 → sx = width image / 2)).
Proof.
  intros Hlen Hwf HsW HsH Hch Hw Hh. split.
  - set (m := Z.of_nat (length colors)).
    assert (Hm2 : 0 ≤ m / 2 < m).
    { split; [apply Z.div_pos; lia | apply Z.div_lt_upper_bound; lia]. }
    destruct (lookup_lt_is_Some_2 colors (Z.to_nat (m / 2))) as [c Hc];
      [unfold m in *; lia|].
    exists c. split; [exact Hc|].
    unfold downsample_colors. simpl.
    destruct (decide (colors = [])) as [->|_]; [simpl in Hlen; lia|].
    rewrite wrap_int_id by (unfold INT_MIN, INT_MAX in *; lia). fold m.
    destruct (Z.leb_spec m 1) as [Hle|Hgt].
    + unfold m in *.
      destruct colors as [|c0 [|c1 colors]]; simpl length in *; try lia.
      change (Z.of_nat 1 / 2) with 0 in Hc. simpl in Hc. congruence.
    + rewrite Z.quot_div_nonneg by lia.
      rewrite (vec_get_Ok colors (m / 2) c) by (auto; lia). reflexivity.
  - destruct (downsample_image_spec image w h Hwf HsW HsH Hch Hw Hh)
      as (out & Hout & HW & HH & HC & _ & Hpix).
    exists out. repeat (split; [assumption|]).
    intros y x c Hy Hx Hc.
    pose proof (source_index_range h (height image) y) as Hsy.
    pose proof (source_index_range w (width image) x) as Hsx.
    destruct Hwf as (HWr & HHr & HCr & Hl & Hp).
    exists (source_index h (height image) y), (source_index w (width image) x),
           (pixel image (source_index h (height image) y)
                        (source_index w (width image) x) c).
    split; [|split; [|split]].
    + apply img_get_wf; [repeat split; tauto | apply Hsy; lia | apply Hsx; lia | exact Hc].
    + apply Hpix; assumption.
    + intros ->. unfold source_index, safe_mid_index. simpl.
      destruct (Z.leb_spec (height image) 0); [lia|].
      apply Z.quot_div_nonneg; lia.
    + intros ->. unfold source_index, safe_mid_index. simpl.
      destruct (Z.leb_spec (width image) 0); [lia|].
      apply Z.quot_div_nonneg; lia.
Qed.

Lemma downsample_single_target_witness :
  (∃ c, [[10]; [20]; [30]; [40]; [50]] !! Z.to_nat (5 / 2) = Some c ∧
        downsample_colors (L := example_libm) [[10]; [20]; [30]; [40]; [50]] 1 = Ok [c]) ∧
  (∃ out, downsample_image (L := example_libm) (E := example_u8)
            (mkImage 3 2 1 [1; 2; 3; 4; 5; 6]) 1 2 = Ok out ∧
     width out = 1 ∧ height out = 2 ∧ channels out = 1 ∧
     ∀ y x c, 0 ≤ y < 2 → 0 ≤ x < 1 → 0 ≤ c < 1 →
       ∃ sy sx v,
         img_get (mkImage 3 2 1 [1; 2; 3; 4; 5; 6]) sy sx c = Ok v ∧
         img_get out y x c = Ok v ∧
         (2 = 1 → sy = 2 / 2) ∧ ((1:Z) = 1 → sx = 3 / 2)).
Proof.
  apply (downsample_single_target example_libm Z example_u8
           [[10]; [20]; [30]; [40]; [50]] (mkImage 3 2 1 [1; 2; 3; 4; 5; 6]) 1 2).
  - simpl. unfold INT_MAX. lia.
  - unfold wf_image, INT_MAX, PTRDIFF_MAX. simpl. lia.
  - simpl. lia.
  - simpl. lia.
  - left. reflexivity.
  - unfold INT_MAX. lia.
  - unfold INT_MAX. lia.
Defined.

(** ** blur: the shortcuts in front of the convolution *)

Lemma leb_zero_not_lt (strength : spec_float) :
  SFleb strength F32.zero = true → F32.ltb F32.zero strength = false.
Proof.
  unfold SFleb, F32.ltb, SFltb, F32.zero.
  destruct strength as [s|[|]| |[|] m e]; simpl; congruence.
Qed.

(** C7: blur with a strength [<= 0] returns its input, image or sequence,
    element for element. *)
Theorem blur_nonpositive_identity (L : LibM) (T : Type) (E : Elem T)
    (image : Image T) (colors : list (Color T)) (strength : spec_float) :
  SFleb strength F32.zero = true →
  blur_image image strength = Ok image ∧ blur_colors colors strength = Ok colors.
Proof.
  intros Hle. apply leb_zero_not_lt in Hle.
  unfold blur_image, blur_colors. rewrite Hle. simpl. auto.
Qed.

Lemma blur_nonpositive_identity_witness :
  blur_image (L := example_libm) (E := example_u8)
    (mkImage 2 2 1 [0; 64; 128; 255]) (F32.opp F32.one)
    = Ok (mkImage 2 2 1 [0; 64; 128; 255]) ∧
  blur_colors (L := example_libm) (E := example_u8)
    [[0; 0; 0]; [128; 0; 0]; [255; 0; 0]] (F32.opp F32.one)
    = Ok [[0; 0; 0]; [128; 0; 0]; [255; 0; 0]].
Proof.
  apply (blur_nonpositive_identity example_libm Z example_u8).
  reflexivity.
Defined.

(** C4, as the code has it: for a strength that compares greater than
    zero, an image whose width or height is not positive stops in the
    assertion tagged 981234001, and an image of positive size whose channel
    count is neither 1 nor 3 in the assertion tagged 981234002.  For every
    other strength, that is a strength [<= 0] or NaN, the shortcut comes first
    and the image is returned unchanged whatever its shape. *)
Theorem blur_image_contract (L : LibM) (T : Type) (E : Elem T)
    (image : Image T) (strength : spec_float) :
  (F32.ltb F32.zero strength = true →
   (width image ≤ 0 ∨ height image ≤ 0 → blur_image image strength = Abort 981234001) ∧
   (0 < width image → 0 < height image →
    channels image ≠ 1 → channels image ≠ 3 →
    blur_image image strength = Abort 981234002)) ∧
  (F32.ltb F32.zero strength = false → blur_image image strength = Ok image) ∧
  (SFleb strength F32.zero = true ∨ strength = S754_nan →
   blur_image image strength = Ok image).
Proof.
  assert (Hid : F32.ltb F32.zero strength = false → blur_image image strength = Ok image).
  { intros Hnot. unfold blur_image. rewrite Hnot. reflexivity. }
  split; [|split].
  - intros Hpos. unfold blur_image. rewrite Hpos. simpl. split.
    + intros Hdim.
      assert (Hb : (0 <? width image) && (0 <? height image) = false).
      { apply andb_false_iff. destruct Hdim; [left|right]; apply Z.ltb_ge; lia. }
      rewrite Hb. reflexivity.
    + intros HW HH H1 H3.
      rewrite (proj2 (Z.ltb_lt 0 (width image))), (proj2 (Z.ltb_lt 0 (height image)))
        by lia.
      simpl.
      rewrite (proj2 (Z.eqb_neq _ 1)), (proj2 (Z.eqb_neq _ 3)) by assumption.
      reflexivity.
  - exact Hid.
  - intros [Hle | ->]; apply Hid; [apply leb_zero_not_lt; exact Hle | reflexivity].
Qed.

Lemma blur_image_contract_witness :
  blur_image (L := example_libm) (E := example_u8) (mkImage 0 2 1 []) F32.one
    = Abort 981234001 ∧
  blur_image (L := example_libm) (E := example_u8)
    (mkImage 2 2 2 [1; 2; 3; 4; 5; 6; 7; 8]) F32.one = Abort 981234002 ∧
  blur_image (L := example_libm) (E := example_u8)
    (mkImage 2 2 2 [1; 2; 3; 4; 5; 6; 7; 8]) (F32.opp F32.one)
    = Ok (mkImage 2 2 2 [1; 2; 3; 4; 5; 6; 7; 8]) ∧
  blur_image (L := example_libm) (E := example_u8) (mkImage 0 2 1 []) S754_nan
    = Ok (mkImage 0 2 1 []).
Proof.
  split; [|split; [|split]].
  - apply (proj1 (blur_image_contract example_libm Z example_u8 (mkImage 0 2 1 []) F32.one));
      [reflexivity | left; simpl; lia].
  - apply (proj1 (blur_image_contract example_libm Z example_u8
                    (mkImage 2 2 2 [1; 2; 3; 4; 5; 6; 7; 8]) F32.one));
      [reflexivity | simpl; lia | simpl; lia | simpl; lia | simpl; lia].
  - apply (proj2 (proj2 (blur_image_contract example_libm Z example_u8
                    (mkImage 2 2 2 [1; 2; 3; 4; 5; 6; 7; 8]) (F32.opp F32.one)))).
    left. reflexivity.
  - apply (proj2 (proj2 (blur_image_contract example_libm Z example_u8
                    (mkImage 0 2 1 []) S754_nan))).
    right. reflexivity.
Defined.

(** C4 as stated fails: with strength 0 an image of two channels is
    returned as it is, and no assertion is reached. *)
Lemma blur_image_bad_channels_zero_strength :
  let image := mkImage 2 2 2 [1; 2; 3; 4; 5; 6; 7; 8] in
  channels image ≠ 1 ∧ channels image ≠ 3 ∧
  blur_image (L := example_libm) (E := example_u8) image F32.zero = Ok image ∧
  ¬ ∃ tag, blur_image (L := example_libm) (E := example_u8) image F32.zero = Abort tag.
Proof.
  simpl. repeat split; try discriminate.
  intros [tag Htag]. discriminate Htag.
Qed.

(** ** blur: the reference convolution *)

Lemma tap_get (k : Kernel1D) (d : Z) :
  kernel_shape k → - kr k ≤ d ≤ kr k →
  vec_get (kw k) (wrap_size (wrap_int (d + kr k))) = Ok (tap k d).
Proof.
  intros [HR Hlen] Hd.
  rewrite wrap_int_id by (unfold INT_MIN, INT_MAX; lia).
  rewrite wrap_size_id by lia.
  unfold tap.
  destruct (lookup_lt_is_Some_2 (kw k) (Z.to_nat (d + kr k))) as [w Hw]; [lia|].
  rewrite Hw. simpl. apply vec_get_Ok; [lia | exact Hw].
Qed.

Lemma edge_index (pos d extent : Z) :
  1 ≤ extent ≤ INT_MAX → INT_MIN ≤ pos + d ≤ INT_MAX →
  clampi (wrap_int (pos + d)) 0 (wrap_int (extent - 1)) = clamp_to_edge (pos + d) extent.
Proof.
  intros He Hp.
  rewrite (wrap_int_id (pos + d)) by exact Hp.
  rewrite (wrap_int_id (extent - 1)) by (unfold INT_MIN, INT_MAX in *; lia).
  reflexivity.
Qed.

Lemma clamp_to_edge_range (i extent : Z) :
  1 ≤ extent → 0 ≤ clamp_to_edge i extent < extent.
Proof. unfold clamp_to_edge. lia. Qed.

Lemma foldl_triple {A B : Type} (f0 f1 f2 : A → B → A) (l : list B) (a0 a1 a2 : A) :
  foldl (λ (acc : A * A * A) d, (f0 acc.1.1 d, f1 acc.1.2 d, f2 acc.2 d)) (a0, a1, a2) l
  = (foldl f0 a0 l, foldl f1 a1 l, foldl f2 a2 l).
Proof.
  revert a0 a1 a2. induction l as [|b l IH]; intros a0 a1 a2; simpl.
  - reflexivity.
  - apply IH.
Qed.

Lemma code_index_range (pos d extent : Z) :
  1 ≤ extent ≤ INT_MAX →
  0 ≤ clampi (wrap_int (pos + d)) 0 (wrap_int (extent - 1)) < extent.
Proof.
  intros He.
  rewrite (wrap_int_id (extent - 1)) by (unfold INT_MIN, INT_MAX in *; lia).
  pose proof (clampi_range (wrap_int (pos + d)) 0 (extent - 1)). lia.
Qed.

Lemma foldl_ext_in {A B : Type} (f g : A → B → A) (l : list B) (a : A) :
  (∀ acc x, x ∈ l → f acc x = g acc x) → foldl f a l = foldl g a l.
Proof.
  revert a. induction l as [|b l IH]; intros a Hfg; simpl.
  - reflexivity.
  - rewrite Hfg by left. apply IH. intros acc x Hx. apply Hfg. right. exact Hx.
Qed.

(** Where [pos + d] stays an [int], the code's tap index is the
    clamp-to-edge index. *)
Lemma convolve_code_eq (k : Kernel1D) (signal : Z → spec_float) (extent pos : Z) :
  0 ≤ kr k < 2 ^ 30 →
  1 ≤ extent ≤ INT_MAX → 0 ≤ pos → pos + kr k ≤ INT_MAX →
  convolve_code k signal extent pos = convolve k signal extent pos.
Proof.
  intros HR He Hpos Hfit. unfold convolve_code, convolve.
  apply foldl_ext_in. intros acc d Hd.
  apply elem_of_seqZ in Hd.
  rewrite edge_index by (unfold INT_MIN, INT_MAX in *; lia).
  reflexivity.
Qed.

(** One run of the tap loop with a single accumulator. *)
Lemma tap_loop {A : Type} (k : Kernel1D) (extent pos : Z) (read : Z → res A)
    (conv : A → spec_float) (raw : Z → A) :
  kernel_shape k →
  1 ≤ extent ≤ INT_MAX →
  (∀ s, 0 ≤ s < extent → read s = Ok (raw s)) →
  for_range (- kr k) (kr k + 1) (λ d acc,
    let si := clampi (wrap_int (pos + d)) 0 (wrap_int (extent - 1)) in
    w ← vec_get (kw k) (wrap_size (wrap_int (d + kr k)));
    p ← read si;
    Ok (fma_step acc w (conv p))) F32.zero
  = Ok (convolve_code k (λ s, conv (raw s)) extent pos).
Proof.
  intros Hk He Hread.
  pose proof Hk as [HR _].
  unfold convolve_code.
  replace (2 * kr k + 1) with (kr k + 1 - - kr k) by ring.
  apply (for_range_fold _
           (λ acc d, F32.add acc (F32.mul (tap k d)
              (conv (raw (clampi (wrap_int (pos + d)) 0 (wrap_int (extent - 1)))))))).
  - lia.
  - intros d acc Hd. cbv zeta.
    rewrite (tap_get k d Hk) by lia. simpl.
    rewrite Hread by (apply code_index_range; exact He).
    reflexivity.
Qed.

(** One run of the tap loop with the three accumulators of an RGB pixel. *)
Lemma tap_loop3 {A : Type} (k : Kernel1D) (extent pos : Z) (read0 read1 read2 : Z → res A)
    (conv : A → spec_float) (raw0 raw1 raw2 : Z → A) :
  kernel_shape k →
  1 ≤ extent ≤ INT_MAX →
  (∀ s, 0 ≤ s < extent → read0 s = Ok (raw0 s)) →
  (∀ s, 0 ≤ s < extent → read1 s = Ok (raw1 s)) →
  (∀ s, 0 ≤ s < extent → read2 s = Ok (raw2 s)) →
  for_range (- kr k) (kr k + 1) (λ d (acc : spec_float * spec_float * spec_float),
    let si := clampi (wrap_int (pos + d)) 0 (wrap_int (extent - 1)) in
    w ← vec_get (kw k) (wrap_size (wrap_int (d + kr k)));
    p0 ← read0 si;
    p1 ← read1 si;
    p2 ← read2 si;
    Ok (fma_step acc.1.1 w (conv p0), fma_step acc.1.2 w (conv p1),
        fma_step acc.2 w (conv p2)))
    (F32.zero, F32.zero, F32.zero)
  = Ok (convolve_code k (λ s, conv (raw0 s)) extent pos,
        convolve_code k (λ s, conv (raw1 s)) extent pos,
        convolve_code k (λ s, conv (raw2 s)) extent pos).
Proof.
  intros Hk He Hread0 Hread1 Hread2.
  pose proof Hk as [HR _].
  unfold convolve_code.
  rewrite <- foldl_triple.
  replace (2 * kr k + 1) with (kr k + 1 - - kr k) by ring.
  apply (for_range_fold _
    (λ (acc : spec_float * spec_float * spec_float) d,
       (F32.add acc.1.1 (F32.mul (tap k d)
          (conv (raw0 (clampi (wrap_int (pos + d)) 0 (wrap_int (extent - 1)))))),
        F32.add acc.1.2 (F32.mul (tap k d)
          (conv (raw1 (clampi (wrap_int (pos + d)) 0 (wrap_int (extent - 1)))))),
        F32.add acc.2 (F32.mul (tap k d)
          (conv (raw2 (clampi (wrap_int (pos + d)) 0 (wrap_int (extent - 1))))))))).
  - lia.
  - intros d acc Hd. cbv zeta.
    rewrite (tap_get k d Hk) by lia. simpl.
    rewrite Hread0, Hread1, Hread2 by (apply code_index_range; exact He).
    reflexivity.
Qed.

Section BlurImage.
Context {L : LibM} {T : Type} {E : Elem T}.
Variable k : Kernel1D.
Variable image : Image T.
Hypothesis Hk : kernel_shape k.
Hypothesis Hwf : wf_image image.
Hypothesis HW : 0 < width image.
Hypothesis HH : 0 < height image.
Hypothesis Hch : channels image = 1 ∨ channels image = 3.

Lemma blur_horizontal_pixel_holds (y x : Z) (tmp : list spec_float) :
  0 ≤ y < height image → 0 ≤ x < width image →
  filled (width image) (height image) (channels image)
         (blur_horizontal_code k image) ((y * width image + x) * channels image) tmp →
  ∃ tmp', blur_horizontal_pixel image k y x tmp = Ok tmp' ∧
    filled (width image) (height image) (channels image)
           (blur_horizontal_code k image)
           ((y * width image + x + 1) * channels image) tmp'.
Proof.
  intros Hy Hx Hf.
  pose proof (wf_image_size image Hwf) as Hsz.
  assert (HWr : 1 ≤ width image ≤ INT_MAX) by (destruct Hwf as (? & _); lia).
  set (F := blur_horizontal_code k image) in *.
  unfold blur_horizontal_pixel. cbv zeta.
  destruct Hch as [HC|HC]; rewrite HC in *.
  - change (1 =? 1) with true. cbv iota.
    pose proof (tap_loop k (width image) x (λ s, img_get image y s 0) to_f
                  (λ s, pixel image y s 0) Hk HWr) as Hloop.
    cbv beta zeta in Hloop. rewrite Hloop; clear Hloop.
    + simpl.
      destruct (vec_set_filled (width image) (height image) 1 F tmp y x 0 Hsz Hy Hx)
        as (tmp' & Hset & Hf'); [lia | rewrite Z.add_0_r; exact Hf|].
      exists tmp'. split; [exact Hset|].
      replace ((y * width image + x + 1) * 1)
        with ((y * width image + x) * 1 + 0 + 1) by ring.
      exact Hf'.
    + intros s Hs. apply img_get_wf; auto. lia.
  - change (3 =? 1) with false. cbv iota.
    pose proof (tap_loop3 k (width image) x
                  (λ s, img_get image y s 0) (λ s, img_get image y s 1)
                  (λ s, img_get image y s 2) to_f
                  (λ s, pixel image y s 0) (λ s, pixel image y s 1)
                  (λ s, pixel image y s 2) Hk HWr) as Hloop.
    cbv beta zeta in Hloop. rewrite Hloop; clear Hloop.
    + simpl.
      destruct (vec_set_filled (width image) (height image) 3 F tmp y x 0 Hsz Hy Hx)
        as (t0 & Hset0 & Hf0); [lia | rewrite Z.add_0_r; exact Hf|].
      rewrite Z.add_0_r in Hf0.
      fold (blur_horizontal_code k image y x 0). fold F. rewrite Hset0. simpl.
      destruct (vec_set_filled (width image) (height image) 3 F t0 y x 1 Hsz Hy Hx)
        as (t1 & Hset1 & Hf1); [lia | exact Hf0|].
      fold (blur_horizontal_code k image y x 1). fold F. rewrite Hset1. simpl.
      destruct (vec_set_filled (width image) (height image) 3 F t1 y x 2 Hsz Hy Hx)
        as (t2 & Hset2 & Hf2); [lia | |].
      { replace ((y * width image + x) * 3 + 2)
          with ((y * width image + x) * 3 + 1 + 1) by ring. exact Hf1. }
      fold (blur_horizontal_code k image y x 2). fold F.
      exists t2. split; [exact Hset2|].
      replace ((y * width image + x + 1) * 3)
        with ((y * width image + x) * 3 + 2 + 1) by ring.
      exact Hf2.
    + intros s Hs. apply img_get_wf; auto; lia.
    + intros s Hs. apply img_get_wf; auto; lia.
    + intros s Hs. apply img_get_wf; auto; lia.
Qed.

Lemma tmp_read (tmp : list spec_float) (sy x c : Z) :
  filled (width image) (height image) (channels image)
         (blur_horizontal_code k image)
         (width image * height image * channels image) tmp →
  0 ≤ sy < height image → 0 ≤ x < width image → 0 ≤ c < channels image →
  vec_get tmp (flat_index (width image) (channels image) x sy c)
  = Ok (blur_horizontal_code k image sy x c).
Proof.
  intros Hf Hsy Hx Hc.
  pose proof (wf_image_size image Hwf) as Hsz.
  pose proof (flat_bound _ _ _ x sy c Hx Hsy Hc) as Hb.
  rewrite (flat_index_eq _ _ _ x sy c Hsz Hx Hsy Hc).
  apply vec_get_Ok; [lia|]. eapply filled_all; eauto.
Qed.

Lemma blur_vertical_pixel_holds (tmp : list spec_float) (y x : Z) (out : Image T) :
  filled (width image) (height image) (channels image)
         (blur_horizontal_code k image)
         (width image * height image * channels image) tmp →
  0 ≤ y < height image → 0 ≤ x < width image →
  img_holds (width image) (height image) (channels image)
            (blur_image_code k image) ((y * width image + x) * channels image) out →
  ∃ out', blur_vertical_pixel (width image) (height image) (channels image) k tmp y x out
          = Ok out' ∧
    img_holds (width image) (height image) (channels image)
              (blur_image_code k image)
              ((y * width image + x + 1) * channels image) out'.
Proof.
  intros Htmp Hy Hx Hout.
  pose proof (wf_image_size image Hwf) as Hsz.
  assert (HHr : 1 ≤ height image ≤ INT_MAX) by (destruct Hwf as (_ & ? & _); lia).
  set (F := blur_image_code k image) in *.
  unfold blur_vertical_pixel. cbv zeta.
  destruct Hch as [HC|HC].
  - rewrite HC in Hout, Hsz |- *. change (1 =? 1) with true. cbv iota.
    pose proof (tap_loop k (height image) y
                  (λ s, vec_get tmp (flat_index (width image) 1 x s 0)) (λ t, t)
                  (λ s, blur_horizontal_code k image s x 0) Hk HHr)
      as Hloop.
    cbv beta zeta in Hloop. rewrite Hloop; clear Hloop.
    + simpl.
      destruct (img_set_holds (width image) (height image) 1 F out y x 0 Hsz Hy Hx)
        as (o & Hset & Hf'); [lia | rewrite Z.add_0_r; exact Hout|].
      exists o. split; [exact Hset|].
      replace ((y * width image + x + 1) * 1)
        with ((y * width image + x) * 1 + 0 + 1) by ring.
      exact Hf'.
    + intros s Hs. rewrite <- HC. apply tmp_read; auto; lia.
  - rewrite HC in Hout, Hsz |- *. change (3 =? 1) with false. cbv iota.
    pose proof (tap_loop3 k (height image) y
                  (λ s, vec_get tmp (flat_index (width image) 3 x s 0))
                  (λ s, vec_get tmp (flat_index (width image) 3 x s 1))
                  (λ s, vec_get tmp (flat_index (width image) 3 x s 2)) (λ t, t)
                  (λ s, blur_horizontal_code k image s x 0)
                  (λ s, blur_horizontal_code k image s x 1)
                  (λ s, blur_horizontal_code k image s x 2) Hk HHr)
      as Hloop.
    cbv beta zeta in Hloop. rewrite Hloop; clear Hloop.
    + simpl.
      destruct (img_set_holds (width image) (height image) 3 F out y x 0 Hsz Hy Hx)
        as (o0 & Hset0 & Hf0); [lia | rewrite Z.add_0_r; exact Hout|].
      rewrite Z.add_0_r in Hf0.
      fold (blur_image_code k image y x 0). fold F. rewrite Hset0. simpl.
      destruct (img_set_holds (width image) (height image) 3 F o0 y x 1 Hsz Hy Hx)
        as (o1 & Hset1 & Hf1); [lia | exact Hf0|].
      fold (blur_image_code k image y x 1). fold F. rewrite Hset1. simpl.
      destruct (img_set_holds (width image) (height image) 3 F o1 y x 2 Hsz Hy Hx)
        as (o2 & Hset2 & Hf2); [lia | |].
      { replace ((y * width image + x) * 3 + 2)
          with ((y * width image + x) * 3 + 1 + 1) by ring. exact Hf1. }
      fold (blur_image_code k image y x 2). fold F.
      exists o2. split; [exact Hset2|].
      replace ((y * width image + x + 1) * 3)
        with ((y * width image + x) * 3 + 2 + 1) by ring.
      exact Hf2.
    + intros s Hs. rewrite <- HC. apply tmp_read; auto; lia.
    + intros s Hs. rewrite <- HC. apply tmp_read; auto; lia.
    + intros s Hs. rewrite <- HC. apply tmp_read; auto; lia.
Qed.
End BlurImage.

(** ** The kernel the convolution runs over *)

Lemma ceil_to_int_range (x : spec_float) (c : Z) :
  ceil_to_int x = Ok c → INT_MIN ≤ c ≤ INT_MAX.
Proof.
  unfold ceil_to_int. destruct x as [s| | |s m e]; try discriminate.
  - intros [= <-]. unfold INT_MIN, INT_MAX. lia.
  - destruct (Z.leb_spec INT_MIN (ceil_finite s m e)); simpl; [|discriminate].
    destruct (Z.leb_spec (ceil_finite s m e) INT_MAX); [|discriminate].
    intros [= <-]. lia.
Qed.

Lemma kernel_size_fits (R : Z) :
  0 ≤ R ≤ INT_MAX →
  wrap_size (wrap_int (wrap_int (2 * R) + 1)) ≤ PTRDIFF_MAX →
  R < 2 ^ 30 ∧ wrap_size (wrap_int (wrap_int (2 * R) + 1)) = 2 * R + 1.
Proof.
  unfold INT_MAX, PTRDIFF_MAX. intros HR Hfit.
  destruct (Z.lt_ge_cases R (2 ^ 30)) as [Hlt|Hge].
  - split; [exact Hlt|].
    rewrite (wrap_int_id (2 * R)) by (unfold INT_MIN, INT_MAX; lia).
    rewrite wrap_int_id by (unfold INT_MIN, INT_MAX; lia).
    apply wrap_size_id. lia.
  - exfalso.
    assert (E1 : wrap_int (2 * R) = 2 * R - 2 ^ 32).
    { unfold wrap_int.
      replace (2 * R + 2 ^ 31) with (2 * R - 2 ^ 31 + 1 * 2 ^ 32) by ring.
      rewrite Z.mod_add by lia. rewrite Z.mod_small by lia. ring. }
    rewrite E1 in Hfit.
    rewrite wrap_int_id in Hfit by (unfold INT_MIN, INT_MAX; lia).
    unfold wrap_size in Hfit.
    replace (2 * R - 2 ^ 32 + 1) with (2 * R - 2 ^ 32 + 1 + 2 ^ 64 + (-1) * 2 ^ 64)
      in Hfit by ring.
    rewrite Z.mod_add in Hfit by lia. rewrite Z.mod_small in Hfit by lia. lia.
Qed.

Section KernelShape.
Context {L : LibM}.

Lemma makeGaussianKernel_positive (sigma : spec_float) (k : Kernel1D) :
  makeGaussianKernel sigma = Ok k → 1 ≤ kr k → F32.ltb F32.zero sigma = true.
Proof.
  unfold makeGaussianKernel. destruct (F32.ltb F32.zero sigma); [reflexivity|].
  simpl. intros [= <-]. simpl. lia.
Qed.

(** The weights before normalisation and their running sum, filled by the
    loop of [makeGaussianKernel]. *)
Lemma kernel_loop_length (R : Z) (inv2s2 : spec_float) (w : list spec_float) :
  0 ≤ R < 2 ^ 30 → Z.of_nat (length w) = 2 * R + 1 →
  ∃ ws, for_range (- R) (R + 1) (λ i (ws : list spec_float * spec_float),
          let v := expf (F32.mul (F32.opp (F32.of_int (wrap_int (i * i)))) inv2s2) in
          w ← vec_set ws.1 (wrap_size (wrap_int (i + R))) v;
          Ok (w, F32.add ws.2 v)) (w, F32.zero) = Ok ws ∧
        Z.of_nat (length ws.1) = 2 * R + 1.
Proof.
  intros HR Hlen.
  apply (for_range_inv (λ _ (ws : list spec_float * spec_float),
                          Z.of_nat (length ws.1) = 2 * R + 1)).
  - lia.
  - exact Hlen.
  - intros i ws Hi Hws. cbv zeta.
    rewrite (wrap_int_id (i + R)) by (unfold INT_MIN, INT_MAX; lia).
    rewrite wrap_size_id by lia.
    rewrite vec_set_Ok by lia. simpl.
    eexists. split; [reflexivity|]. simpl. rewrite length_insert. exact Hws.
Qed.

Lemma makeGaussianKernel_shape (sigma : spec_float) (k : Kernel1D) :
  makeGaussianKernel sigma = Ok k → 1 ≤ kr k → kernel_shape k.
Proof.
  intros Hmk Hr.
  pose proof (makeGaussianKernel_positive sigma k Hmk Hr) as Hpos.
  revert Hmk. unfold makeGaussianKernel. rewrite Hpos. simpl.
  destruct (ceil_to_int _) as [c| |] eqn:Hc; simpl; try discriminate.
  apply ceil_to_int_range in Hc.
  set (R := Z.max 0 c).
  assert (HR : 0 ≤ R ≤ INT_MAX) by (unfold R, INT_MIN, INT_MAX in *; lia).
  unfold vec_new.
  destruct (Z.leb_spec (wrap_size (wrap_int (wrap_int (2 * R) + 1))) PTRDIFF_MAX)
    as [Hfit|_]; simpl; [|discriminate].
  destruct (kernel_size_fits R HR Hfit) as [HR30 Hsize]. rewrite Hsize.
  destruct (kernel_loop_length R
              (F32.div F32.one (F32.mul (F32.mul F32.two (F32.max F32.milli sigma))
                                        (F32.max F32.milli sigma)))
              (replicate (Z.to_nat (2 * R + 1)) F32.zero)) as (ws & Hws & Hlen).
  - lia.
  - rewrite length_replicate. lia.
  - cbv zeta in Hws |- *. rewrite Hws. simpl. intros [= <-]. split; simpl; [lia|].
    destruct (F32.ltb F32.zero ws.2); [rewrite length_fmap|]; exact Hlen.
Qed.
End KernelShape.

(** ** blur of an image: the two passes *)

Section BlurImageTotal.
Context {L : LibM} {T : Type} {E : Elem T}.

Lemma blur_image_total (image : Image T) (strength : spec_float) (k : Kernel1D) :
  makeGaussianKernel strength = Ok k → 1 ≤ kr k →
  wf_image image →
  0 < width image → 0 < height image →
  channels image = 1 ∨ channels image = 3 →
  ∃ out, blur_image image strength = Ok out ∧
    width out = width image ∧ height out = height image ∧
    channels out = channels image ∧
    Z.of_nat (length (data out)) = width image * height image * channels image ∧
    ∀ y x c, 0 ≤ y < height image → 0 ≤ x < width image → 0 ≤ c < channels image →
      img_get out y x c = Ok (blur_image_code k image y x c).
Proof.
  intros Hmk Hr Hwf HW HH Hch.
  pose proof (makeGaussianKernel_positive strength k Hmk Hr) as Hpos.
  pose proof (makeGaussianKernel_shape strength k Hmk Hr) as Hk.
  pose proof (wf_image_size image Hwf) as Hsz.
  pose proof Hwf as (HWr & HHr & HCr & Hlen & Hmax).
  unfold blur_image. rewrite Hpos. simpl.
  rewrite (proj2 (Z.ltb_lt 0 (width image))), (proj2 (Z.ltb_lt 0 (height image))) by lia.
  simpl.
  assert (Hchb : (channels image =? 1) || (channels image =? 3) = true).
  { destruct Hch as [-> | ->]; reflexivity. }
  rewrite Hchb, Hmk. simpl.
  destruct (Z.eqb_spec (kr k) 0) as [E0|_]; [lia|].
  assert (Hprod : 0 ≤ width image * height image) by nia.
  assert (Hprod' : width image * height image ≤ width image * height image * channels image)
    by (destruct Hch as [-> | ->]; lia).
  rewrite (wrap_size_id (width image * height image)) by lia.
  rewrite (wrap_size_id (width image * height image * channels image)) by lia.
  unfold vec_new.
  rewrite (proj2 (Z.leb_le _ PTRDIFF_MAX)) by lia. simpl.
  destruct (raster_loops
              (filled (width image) (height image) (channels image)
                      (blur_horizontal_code k image))
              (λ y x tmp, blur_horizontal_pixel image k y x tmp)
              (width image) (height image) (channels image)
              (replicate (Z.to_nat (width image * height image * channels image)) F32.zero))
    as (tmp & Htmp & Hfilled).
  - lia.
  - lia.
  - apply filled_start. rewrite length_replicate. lia.
  - intros y x t Hy Hx Ht. apply blur_horizontal_pixel_holds; auto.
  - rewrite Htmp. simpl.
    destruct (raster_loops
                (img_holds (width image) (height image) (channels image)
                           (blur_image_code k image))
                (λ y x out,
                   blur_vertical_pixel (width image) (height image) (channels image)
                                       k tmp y x out)
                (width image) (height image) (channels image)
                (img_new (width image) (height image) (channels image)))
      as (out & Hout & Hholds).
    + lia.
    + lia.
    + apply img_new_holds; lia.
    + intros y x t Hy Hx Ht. apply blur_vertical_pixel_holds; auto.
    + exists out. split; [exact Hout|].
      pose proof Hholds as (HoW & HoH & HoC & HoL & _).
      split; [exact HoW|]. split; [exact HoH|]. split; [exact HoC|].
      split; [exact HoL|].
      intros y x c Hy Hx Hc.
      exact (img_get_holds _ _ _ _ out y x c Hsz Hholds Hy Hx Hc).
Qed.
End BlurImageTotal.

(** ** blur of an image is the reference convolution *)

Lemma convolve_ext (k : Kernel1D) (f g : Z → spec_float) (extent pos : Z) :
  (∀ s, f s = g s) → convolve k f extent pos = convolve k g extent pos.
Proof.
  intros Hfg. unfold convolve. apply foldl_ext_in. intros acc d _.
  rewrite Hfg. reflexivity.
Qed.

Section BlurImageSpec.
Context {L : LibM} {T : Type} {E : Elem T}.

Lemma blur_image_code_eq (k : Kernel1D) (image : Image T) (y x c : Z) :
  kernel_shape k → wf_image image →
  0 < width image → 0 < height image →
  width image + kr k ≤ INT_MAX → height image + kr k ≤ INT_MAX →
  0 ≤ y < height image → 0 ≤ x < width image →
  blur_image_code k image y x c = blur_image_reference k image y x c.
Proof.
  intros [HR _] (HWr & HHr & _) HW HH HfitW HfitH Hy Hx.
  unfold blur_image_code, blur_image_reference. f_equal.
  rewrite convolve_code_eq by lia.
  apply convolve_ext. intros sy.
  unfold blur_horizontal_code, blur_horizontal_reference.
  apply convolve_code_eq; lia.
Qed.

Lemma blur_image_spec (image : Image T) (strength : spec_float) (k : Kernel1D) :
  makeGaussianKernel strength = Ok k → 1 ≤ kr k →
  wf_image image →
  0 < width image → 0 < height image →
  channels image = 1 ∨ channels image = 3 →
  width image + kr k ≤ INT_MAX → height image + kr k ≤ INT_MAX →
  ∃ out, blur_image image strength = Ok out ∧
    width out = width image ∧ height out = height image ∧
    channels out = channels image ∧
    Z.of_nat (length (data out)) = width image * height image * channels image ∧
    ∀ y x c, 0 ≤ y < height image → 0 ≤ x < width image → 0 ≤ c < channels image →
      img_get out y x c = Ok (blur_image_reference k image y x c).
Proof.
  intros Hmk Hr Hwf HW HH Hch HfitW HfitH.
  pose proof (makeGaussianKernel_shape strength k Hmk Hr) as Hk.
  destruct (blur_image_total image strength k Hmk Hr Hwf HW HH Hch)
    as (out & Hout & HoW & HoH & HoC & HoL & Hpix).
  exists out. repeat (split; [assumption|]).
  intros y x c Hy Hx Hc.
  rewrite <- (blur_image_code_eq k image y x c Hk Hwf HW HH HfitW HfitH Hy Hx).
  apply Hpix; assumption.
Qed.
End BlurImageSpec.

(** ** blur of a sequence: the scratch rows and the result *)

Section BlurColorsScratch.
Context {L : LibM} {T : Type} {E : Elem T}.
Variable k : Kernel1D.
Variable colors : list (Color T).
Variable C : Z.
Hypothesis Hk : kernel_shape k.
Hypothesis Hn : 1 ≤ Z.of_nat (length colors).
Hypothesis Hmax : Z.of_nat (length colors) ≤ INT_MAX.
Hypothesis HC : C = 1 ∨ C = 3.
Hypothesis Hcols : Forall (λ col, color_channels col = C) colors.

Lemma colors_get_at (s c : Z) :
  0 ≤ s < Z.of_nat (length colors) → 0 ≤ c < C →
  colors_get colors (wrap_size s) c = Ok (color_at colors s c).
Proof.
  intros Hs Hc. unfold colors_get, color_at. unfold Color in *.
  pose proof Hk as [HR _].
  rewrite wrap_size_id by (unfold INT_MAX in *; lia).
  destruct (lookup_lt_is_Some_2 colors (Z.to_nat s)) as [col Hcol]; [lia|].
  rewrite (vec_get_Ok colors s col) by (auto; lia).
  rewrite Hcol.
  assert (Hlen : color_channels col = C).
  { eapply (proj1 (Forall_lookup _ _) Hcols). exact Hcol. }
  unfold color_channels in Hlen.
  destruct (lookup_lt_is_Some_2 col (Z.to_nat c)) as [v Hv]; [lia|].
  rewrite Hv. simpl. unfold color_get. apply vec_get_Ok; [lia | exact Hv].
Qed.

Lemma blur_colors_scratch_loop (tmp0 : list (list spec_float)) :
  rows_filled k colors C 0 0 tmp0 →
  ∃ tmp,
    for_range 0 (Z.of_nat (length colors)) (λ i tmp,
      for_range 0 C (λ c tmp,
        acc ← for_range (- kr k) (kr k + 1) (λ d acc,
                 let si := clampi (wrap_int (i + d)) 0
                                  (wrap_int (Z.of_nat (length colors) - 1)) in
                 w ← vec_get (kw k) (wrap_size (wrap_int (d + kr k)));
                 p ← colors_get colors (wrap_size si) c;
                 Ok (fma_step acc w (to_f p))) F32.zero;
        row ← vec_get tmp (wrap_size c);
        row ← vec_set row (wrap_size i) acc;
        vec_set tmp (wrap_size c) row) tmp) tmp0 = Ok tmp ∧
    rows_filled k colors C (Z.of_nat (length colors)) 0 tmp.
Proof.
  intros H0.
  assert (Hext : 1 ≤ Z.of_nat (length colors) ≤ INT_MAX) by lia.
  apply (for_range_inv (λ i tmp, rows_filled k colors C i 0 tmp)); [lia | exact H0 |].
  intros i tmp Hi Htmp.
  destruct (for_range_inv (λ c tmp, rows_filled k colors C i c tmp)
              (λ c tmp,
                 acc ← for_range (- kr k) (kr k + 1) (λ d acc,
                          let si := clampi (wrap_int (i + d)) 0
                                           (wrap_int (Z.of_nat (length colors) - 1)) in
                          w ← vec_get (kw k) (wrap_size (wrap_int (d + kr k)));
                          p ← colors_get colors (wrap_size si) c;
                          Ok (fma_step acc w (to_f p))) F32.zero;
                 row ← vec_get tmp (wrap_size c);
                 row ← vec_set row (wrap_size i) acc;
                 vec_set tmp (wrap_size c) row) 0 C tmp) as (tmp' & Htmp' & Hrows).
  - lia.
  - exact Htmp.
  - intros c t Hc [Hlen Hrows].
    pose proof (tap_loop k (Z.of_nat (length colors)) i
                  (λ s, colors_get colors (wrap_size s) c) to_f
                  (λ s, color_at colors s c) Hk Hext) as Hloop.
    cbv beta zeta in Hloop. cbv zeta. rewrite Hloop; clear Hloop.
    2:{ intros s Hs. apply colors_get_at; auto. }
    simpl. fold (blur_colors_scratch k colors i c).
    pose proof Hk as [HR _].
    rewrite (wrap_size_id c) by lia.
    rewrite (wrap_size_id i) by (unfold INT_MAX in *; lia).
    destruct (Hrows c Hc) as (row & Hrow & Hrlen & Hrfill).
    rewrite (vec_get_Ok t c row) by (auto; lia). simpl.
    rewrite vec_set_Ok by lia. simpl.
    rewrite vec_set_Ok by lia.
    eexists. split; [reflexivity|].
    split; [rewrite length_insert; exact Hlen|].
    intros c' Hc'. destruct (Z.eq_dec c' c) as [->|NE].
    + exists (<[Z.to_nat i := blur_colors_scratch k colors i c]> row).
      split; [apply list_lookup_insert_eq; lia|].
      split; [rewrite length_insert; exact Hrlen|].
      intros j Hj. destruct (Z.eq_dec j i) as [->|NEj].
      * apply list_lookup_insert_eq. lia.
      * rewrite list_lookup_insert_ne by lia. apply Hrfill. lia.
    + destruct (Hrows c' Hc') as (row' & Hrow' & Hrlen' & Hrfill').
      exists row'. split; [rewrite list_lookup_insert_ne by lia; exact Hrow'|].
      split; [exact Hrlen'|].
      intros j Hj. apply Hrfill'. lia.
  - exists tmp'. split; [exact Htmp'|].
    destruct Hrows as [Hlen Hrows]. split; [exact Hlen|].
    intros c Hc. destruct (Hrows c Hc) as (row & Hrow & Hrlen & Hrfill).
    exists row. split; [exact Hrow|]. split; [exact Hrlen|].
    intros j Hj. apply Hrfill. lia.
Qed.

Lemma rows_read (tmp : list (list spec_float)) (i c : Z) :
  rows_filled k colors C (Z.of_nat (length colors)) 0 tmp →
  0 ≤ i < Z.of_nat (length colors) → 0 ≤ c < C →
  ∃ row, vec_get tmp c = Ok row ∧
         vec_get row (wrap_size i) = Ok (blur_colors_scratch k colors i c).
Proof.
  intros [Hlen Hrows] Hi Hc.
  destruct (Hrows c Hc) as (row & Hrow & Hrlen & Hrfill).
  exists row. split; [apply vec_get_Ok; [lia | exact Hrow]|].
  pose proof Hk as [HR _].
  rewrite wrap_size_id by (unfold INT_MAX in *; lia).
  apply vec_get_Ok; [lia|]. apply Hrfill. lia.
Qed.
End BlurColorsScratch.

Section BlurColorsResult.
Context {L : LibM} {T : Type} {E : Elem T}.

Lemma blur_colors_total (colors : list (Color T)) (strength : spec_float)
    (k : Kernel1D) (C : Z) :
  makeGaussianKernel strength = Ok k → 1 ≤ kr k →
  1 ≤ Z.of_nat (length colors) →
  Z.of_nat (length colors) ≤ INT_MAX →
  C = 1 ∨ C = 3 →
  Forall (λ col, color_channels col = C) colors →
  blur_colors colors strength = Ok (blur_colors_code_list k colors C).
Proof.
  intros Hmk Hr Hn Hfit HC Hcols.
  pose proof (makeGaussianKernel_positive strength k Hmk Hr) as Hpos.
  pose proof (makeGaussianKernel_shape strength k Hmk Hr) as Hk.
  pose proof Hk as [HR _].
  unfold blur_colors. rewrite Hpos. simpl.
  destruct (decide (colors = [])) as [->|_]; [simpl in Hn; lia|].
  rewrite Hmk. simpl.
  destruct (Z.eqb_spec (kr k) 0) as [E0|_]; [lia|].
  destruct colors as [|c0 rest] eqn:Ecolors; [simpl in Hn; lia|].
  rewrite <- Ecolors in *.
  assert (Hc0 : vec_get colors 0 = Ok c0).
  { apply vec_get_Ok; [lia|]. rewrite Ecolors. reflexivity. }
  rewrite Hc0. simpl.
  assert (HC0 : color_channels c0 = C).
  { eapply (proj1 (Forall_lookup _ _) Hcols 0%nat). rewrite Ecolors. reflexivity. }
  rewrite HC0.
  assert (HCb : (C =? 1) || (C =? 3) = true) by (destruct HC as [-> | ->]; reflexivity).
  rewrite HCb. simpl.
  rewrite (wrap_int_id (Z.of_nat (length colors))) by (unfold INT_MIN, INT_MAX in *; lia).
  rewrite (wrap_size_id (Z.of_nat (length colors))) by (unfold INT_MAX in *; lia).
  rewrite (wrap_size_id C) by lia.
  unfold vec_new.
  rewrite (proj2 (Z.leb_le (Z.of_nat (length colors)) PTRDIFF_MAX))
    by (unfold PTRDIFF_MAX, INT_MAX in *; lia).
  simpl.
  rewrite (proj2 (Z.leb_le C PTRDIFF_MAX)) by (unfold PTRDIFF_MAX; lia).
  simpl.
  destruct (blur_colors_scratch_loop k colors C Hk Hn Hfit HC Hcols
              (replicate (Z.to_nat C)
                 (replicate (Z.to_nat (Z.of_nat (length colors))) F32.zero)))
    as (tmp & Htmp & Hrows).
  { split; [rewrite length_replicate; lia|].
    intros c Hc. eexists. split; [apply lookup_replicate_2; lia|].
    split; [rewrite length_replicate; lia|]. intros j Hj. lia. }
  cbv zeta in Htmp. rewrite Htmp. simpl.
  unfold blur_colors_code_list.
  destruct (for_range_inv
    (λ j (out : list (Color T)),
       out = (λ i, (λ c, blur_colors_code k colors i c) <$> seqZ 0 C) <$> seqZ 0 j)
    (λ i out,
       if C =? 1
       then r0 ← vec_get tmp 0; v ← vec_get r0 (wrap_size i); Ok (out ++ [[from_f v]])
       else
         r0 ← vec_get tmp 0; v0 ← vec_get r0 (wrap_size i);
         r1 ← vec_get tmp 1; v1 ← vec_get r1 (wrap_size i);
         r2 ← vec_get tmp 2; v2 ← vec_get r2 (wrap_size i);
         Ok (out ++ [[from_f v0; from_f v1; from_f v2]]))
    0 (Z.of_nat (length colors)) []) as (out & Hout & ->).
  - lia.
  - reflexivity.
  - intros i t Hi ->.
    rewrite seqZ_app by lia. rewrite fmap_app. simpl.
    change (seqZ i 1) with [i]. simpl.
    destruct HC as [-> | ->]; simpl.
    + destruct (rows_read k colors 1 Hk Hfit tmp i 0 Hrows Hi) as (r0 & Hr0 & Hv0); [lia|].
      rewrite Hr0. simpl. rewrite Hv0. simpl.
      eexists. split; reflexivity.
    + destruct (rows_read k colors 3 Hk Hfit tmp i 0 Hrows Hi) as (r0 & Hr0 & Hv0); [lia|].
      destruct (rows_read k colors 3 Hk Hfit tmp i 1 Hrows Hi) as (r1 & Hr1 & Hv1); [lia|].
      destruct (rows_read k colors 3 Hk Hfit tmp i 2 Hrows Hi) as (r2 & Hr2 & Hv2); [lia|].
      rewrite Hr0. simpl. rewrite Hv0. simpl.
      rewrite Hr1. simpl. rewrite Hv1. simpl.
      rewrite Hr2. simpl. rewrite Hv2. simpl.
      eexists. split; reflexivity.
  - exact Hout.
Qed.

Lemma blur_colors_code_list_eq (k : Kernel1D) (colors : list (Color T)) (C : Z) :
  kernel_shape k →
  1 ≤ Z.of_nat (length colors) →
  Z.of_nat (length colors) + kr k ≤ INT_MAX →
  blur_colors_code_list k colors C = blur_colors_reference_list k colors C.
Proof.
  intros [HR _] Hn Hfit.
  unfold blur_colors_code_list, blur_colors_reference_list.
  apply list_fmap_ext. intros j i Hi.
  apply lookup_seqZ in Hi as [-> Hj].
  apply list_fmap_ext. intros j' c _.
  unfold blur_colors_code, blur_colors_reference. f_equal.
  apply convolve_code_eq; lia.
Qed.

Lemma blur_colors_spec (colors : list (Color T)) (strength : spec_float)
    (k : Kernel1D) (C : Z) :
  makeGaussianKernel strength = Ok k → 1 ≤ kr k →
  1 ≤ Z.of_nat (length colors) →
  Z.of_nat (length colors) + kr k ≤ INT_MAX →
  C = 1 ∨ C = 3 →
  Forall (λ col, color_channels col = C) colors →
  blur_colors colors strength = Ok (blur_colors_reference_list k colors C).
Proof.
  intros Hmk Hr Hn Hfit HC Hcols.
  pose proof (makeGaussianKernel_shape strength k Hmk Hr) as Hk.
  pose proof Hk as [HR _].
  rewrite <- (blur_colors_code_list_eq k colors C Hk Hn Hfit).
  apply blur_colors_total; auto. lia.
Qed.
End BlurColorsResult.

(** ** Conversion back to the element type *)

Lemma digits2_pos_bounds (p : positive) :
  2 ^ (Z.pos (digits2_pos p) - 1) ≤ Z.pos p < 2 ^ Z.pos (digits2_pos p).
Proof.
  induction p as [p IH|p IH|]; simpl digits2_pos.
  - rewrite Pos2Z.inj_succ, (Pos2Z.inj_xI p).
    replace (Z.succ (Z.pos (digits2_pos p)) - 1) with (Z.succ (Z.pos (digits2_pos p) - 1))
      by lia.
    rewrite !Z.pow_succ_r by lia. lia.
  - rewrite Pos2Z.inj_succ, (Pos2Z.inj_xO p).
    replace (Z.succ (Z.pos (digits2_pos p)) - 1) with (Z.succ (Z.pos (digits2_pos p) - 1))
      by lia.
    rewrite !Z.pow_succ_r by lia. lia.
  - vm_compute. split; [discriminate | reflexivity].
Qed.

(** A binary32 value in canonical form has a mantissa below [2^24]. *)
Lemma valid_f32_mantissa (s : bool) (m : positive) (e : Z) :
  F32.valid (S754_finite s m e) = true → Z.pos m < 2 ^ 24.
Proof.
  unfold F32.valid, valid_binary, bounded, canonical_mantissa, fexp, emin, F32.prec, F32.emax.
  intros Hv. apply andb_true_iff in Hv as [Hc _]. apply Z.eqb_eq in Hc.
  pose proof (digits2_pos_bounds m) as [_ Hm].
  assert (Hd : Z.pos (digits2_pos m) ≤ 24) by lia.
  eapply Z.lt_le_trans; [exact Hm|].
  apply Z.pow_le_mono_r; lia.
Qed.

(** Order of two positive finite values in canonical form. *)
Lemma SFltb_finite_pos (m1 m2 : positive) (e1 e2 : Z) :
  SFltb (S754_finite false m1 e1) (S754_finite false m2 e2) = true ↔
  e1 < e2 ∨ (e1 = e2 ∧ Z.pos m1 < Z.pos m2).
Proof.
  unfold SFltb, SFcompare.
  change (Pos.compare_cont Eq m1 m2) with (Pos.compare m1 m2).
  destruct (Z.compare_spec e1 e2) as [He|He|He].
  - destruct (Pos.compare_spec m1 m2) as [Hm|Hm|Hm]; split; intros Hx;
      try discriminate; try reflexivity; try lia.
  - split; [intros _; lia | reflexivity].
  - split; [discriminate | lia].
Qed.

Lemma pow2_split (n : Z) : 0 < n → 2 ^ n = 2 * 2 ^ (n - 1).
Proof.
  intros Hn. replace n with (Z.succ (n - 1)) at 1 by lia.
  apply Z.pow_succ_r. lia.
Qed.


(** ** What makeGaussianKernel returns *)

Section KernelResult.
Context {L : LibM}.

(** The loop of [makeGaussianKernel]: the weights before normalisation and
    their accumulated sum. *)
Lemma kernel_loop_result (R : Z) (inv2s2 : spec_float) (w : list spec_float) :
  0 ≤ R < 2 ^ 30 → Z.of_nat (length w) = 2 * R + 1 →
  for_range (- R) (R + 1) (λ i (ws : list spec_float * spec_float),
    let v := expf (F32.mul (F32.opp (F32.of_int (wrap_int (i * i)))) inv2s2) in
    w ← vec_set ws.1 (wrap_size (wrap_int (i + R))) v;
    Ok (w, F32.add ws.2 v)) (w, F32.zero)
  = Ok (kernel_raw inv2s2 <$> seqZ (- R) (2 * R + 1),
        float_sum (kernel_raw inv2s2 <$> seqZ (- R) (2 * R + 1))).
Proof.
  intros HR Hlen.
  destruct (for_range_inv
    (λ j (ws : list spec_float * spec_float),
       Z.of_nat (length ws.1) = 2 * R + 1 ∧
       (∀ i, - R ≤ i < j → ws.1 !! Z.to_nat (i + R) = Some (kernel_raw inv2s2 i)) ∧
       ws.2 = float_sum (kernel_raw inv2s2 <$> seqZ (- R) (j + R)))
    (λ i (ws : list spec_float * spec_float),
       let v := expf (F32.mul (F32.opp (F32.of_int (wrap_int (i * i)))) inv2s2) in
       w ← vec_set ws.1 (wrap_size (wrap_int (i + R))) v;
       Ok (w, F32.add ws.2 v))
    (- R) (R + 1) (w, F32.zero)) as (ws & Hws & Hl & Hall & Hsum).
  - lia.
  - split; [exact Hlen|]. split; [intros i Hi; lia|].
    simpl. replace (- R + R) with 0 by lia. reflexivity.
  - intros j ws Hj (Hl & Hprev & Hsum). cbv zeta.
    rewrite (wrap_int_id (j + R)) by (unfold INT_MIN, INT_MAX; lia).
    rewrite wrap_size_id by lia.
    rewrite vec_set_Ok by lia. simpl.
    eexists. split; [reflexivity|]. simpl. split; [|split].
    + rewrite length_insert. exact Hl.
    + intros i Hi. destruct (Z.eq_dec i j) as [->|Hne].
      * rewrite list_lookup_insert_eq by lia. reflexivity.
      * rewrite list_lookup_insert_ne by lia. apply Hprev. lia.
    + rewrite Hsum. unfold float_sum.
      replace (j + 1 + R) with (j + R + 1) by lia.
      rewrite (seqZ_app (- R) (j + R) 1) by lia. rewrite fmap_app, foldl_app. simpl.
      replace (- R + (j + R)) with j by lia. reflexivity.
  - rewrite Hws. destruct ws as [v sum]. simpl in *.
    replace (R + 1 + R) with (2 * R + 1) in Hsum by lia.
    f_equal. f_equal; [|exact Hsum].
    apply list_eq. intros p.
    destruct (decide (Z.of_nat p < 2 * R + 1)) as [Hp|Hp].
    + pose proof (Hall (Z.of_nat p - R) ltac:(lia)) as Hget.
      replace (Z.of_nat p - R + R) with (Z.of_nat p) in Hget by lia.
      rewrite Nat2Z.id in Hget. rewrite Hget.
      rewrite list_lookup_fmap, lookup_seqZ_lt by lia. simpl.
      do 2 f_equal. lia.
    + rewrite !lookup_ge_None_2; [reflexivity | |].
      * rewrite length_fmap, length_seqZ. lia.
      * lia.
Qed.

(** What [makeGaussianKernel] returns where the conversion of the radius
    is defined. *)
Lemma makeGaussianKernel_result (sigma : spec_float) (c : Z) :
  F32.ltb F32.zero sigma = true →
  ceil_to_int (F32.mul F32.three (F32.max F32.milli sigma)) = Ok c →
  Z.max 0 c < 2 ^ 30 →
  makeGaussianKernel sigma
  = Ok (mkKernel (kernel_weights_code (F32.max F32.milli sigma) (Z.max 0 c)) (Z.max 0 c)).
Proof.
  intros Hpos Hc HR. unfold makeGaussianKernel. rewrite Hpos. simpl.
  rewrite Hc. simpl.
  set (R := Z.max 0 c) in *.
  rewrite (wrap_int_id (2 * R)) by (unfold INT_MIN, INT_MAX; lia).
  rewrite wrap_int_id by (unfold INT_MIN, INT_MAX; lia).
  rewrite wrap_size_id by lia.
  unfold vec_new. rewrite (proj2 (Z.leb_le _ PTRDIFF_MAX)) by (unfold PTRDIFF_MAX; lia).
  simpl.
  pose proof (kernel_loop_result R (kernel_inv2s2 (F32.max F32.milli sigma))
                (replicate (Z.to_nat (2 * R + 1)) F32.zero) ltac:(lia)
                ltac:(rewrite length_replicate; lia)) as Hloop.
  unfold kernel_inv2s2 in Hloop at 1. cbv zeta in Hloop |- *. rewrite Hloop. simpl.
  reflexivity.
Qed.

(** Every kernel of radius at least 1 that [makeGaussianKernel] returns:
    its radius is the converted ceiling of [3.0f * max(0.001f, sigma)] and
    its weights are the normalised raw weights. *)
Lemma makeGaussianKernel_inv (sigma : spec_float) (k : Kernel1D) :
  makeGaussianKernel sigma = Ok k → 1 ≤ kr k →
  ceil_to_int (F32.mul F32.three (F32.max F32.milli sigma)) = Ok (kr k) ∧
  kr k < 2 ^ 30 ∧
  kw k = kernel_weights_code (F32.max F32.milli sigma) (kr k).
Proof.
  intros Hk Hr.
  pose proof (makeGaussianKernel_positive sigma k Hk Hr) as Hpos.
  pose proof (makeGaussianKernel_shape sigma k Hk Hr) as [HR _].
  pose proof Hk as Hk'. revert Hk'.
  unfold makeGaussianKernel at 1. rewrite Hpos. simpl.
  destruct (ceil_to_int _) as [c| |] eqn:Hc; simpl; try discriminate.
  destruct (vec_new _ _) as [w| |]; simpl; try discriminate.
  destruct (for_range _ _ _ _) as [ws| |]; simpl; try discriminate.
  intros [= E]. assert (Hkr : kr k = Z.max 0 c) by (rewrite <- E; reflexivity).
  rewrite (makeGaussianKernel_result sigma c Hpos Hc ltac:(lia)) in Hk.
  injection Hk as Hk2.
  assert (Hck : c = kr k) by lia.
  split; [f_equal; exact Hck|]. split; [lia|].
  rewrite <- Hk2. reflexivity.
Qed.

End KernelResult.

(** ** blur is the reference convolution *)



(** ** Every element access is in bounds *)

Lemma ceil_to_int_cases (x : spec_float) :
  (∃ c, ceil_to_int x = Ok c) ∨ ceil_to_int x = Fault UndefinedConversion.
Proof.
  unfold ceil_to_int. destruct x as [s| | |s m e]; eauto.
  destruct ((INT_MIN <=? ceil_finite s m e) && (ceil_finite s m e <=? INT_MAX)); eauto.
Qed.

Section Outcomes.
Context {L : LibM}.

(** [makeGaussianKernel] returns a kernel, or leaves defined behaviour in
    the conversion of the radius to [int], or asks for a vector that is too
    long; it performs no access out of bounds. *)
Lemma makeGaussianKernel_cases (sigma : spec_float) :
  (∃ k, makeGaussianKernel sigma = Ok k) ∨
  makeGaussianKernel sigma = Fault UndefinedConversion ∨
  makeGaussianKernel sigma = Fault LengthError.
Proof.
  unfold makeGaussianKernel. destruct (F32.ltb F32.zero sigma); simpl; [|eauto].
  destruct (ceil_to_int_cases (F32.mul F32.three (F32.max F32.milli sigma)))
    as [[c Hc]|Hc]; rewrite Hc; simpl; [|auto].
  apply ceil_to_int_range in Hc.
  set (R := Z.max 0 c).
  assert (HR : 0 ≤ R ≤ INT_MAX) by (unfold R, INT_MIN, INT_MAX in *; lia).
  unfold vec_new.
  destruct (Z.leb_spec (wrap_size (wrap_int (wrap_int (2 * R) + 1))) PTRDIFF_MAX)
    as [Hfit|_]; simpl; [|auto].
  destruct (kernel_size_fits R HR Hfit) as [HR30 Hsize]. rewrite Hsize.
  destruct (kernel_loop_length R
              (F32.div F32.one (F32.mul (F32.mul F32.two (F32.max F32.milli sigma))
                                        (F32.max F32.milli sigma)))
              (replicate (Z.to_nat (2 * R + 1)) F32.zero)) as (ws & Hws & Hlen).
  - lia.
  - rewrite length_replicate. lia.
  - cbv zeta in Hws |- *. rewrite Hws. simpl. eauto.
Qed.

Lemma makeGaussianKernel_radius (sigma : spec_float) (k : Kernel1D) :
  makeGaussianKernel sigma = Ok k → 0 ≤ kr k.
Proof.
  unfold makeGaussianKernel. destruct (F32.ltb F32.zero sigma); simpl.
  - destruct (ceil_to_int _); simpl; try discriminate.
    destruct (vec_new _ _); simpl; try discriminate.
    destruct (for_range _ _ _ _); simpl; try discriminate.
    intros [= <-]. simpl. lia.
  - intros [= <-]. simpl. lia.
Qed.

Context {T : Type} {E : Elem T}.

Lemma makeGaussianKernel_nonpositive (sigma : spec_float) :
  F32.ltb F32.zero sigma = false → makeGaussianKernel sigma = Ok (mkKernel [] 0).
Proof. intros Hneg. unfold makeGaussianKernel. rewrite Hneg. reflexivity. Qed.

Lemma blur_image_outcome (image : Image T) (strength : spec_float) :
  wf_image image →
  0 < width image → 0 < height image →
  channels image = 1 ∨ channels image = 3 →
  (∃ k out, makeGaussianKernel strength = Ok k ∧ blur_image image strength = Ok out) ∨
  (makeGaussianKernel strength = Fault UndefinedConversion ∧
   blur_image image strength = Fault UndefinedConversion) ∨
  (makeGaussianKernel strength = Fault LengthError ∧
   blur_image image strength = Fault LengthError).
Proof.
  intros Hwf HW HH Hch.
  destruct (F32.ltb F32.zero strength) eqn:Hpos.
  2:{ left. exists (mkKernel [] 0), image.
      split; [apply makeGaussianKernel_nonpositive; exact Hpos|].
      unfold blur_image. rewrite Hpos. reflexivity. }
  assert (Hchb : (channels image =? 1) || (channels image =? 3) = true).
  { destruct Hch as [-> | ->]; reflexivity. }
  assert (Hunfold : blur_image image strength =
            k ← makeGaussianKernel strength;
            if kr k =? 0 then Ok image
            else
              tmp ← vec_new (wrap_size (wrap_size (width image * height image)
                                        * channels image)) F32.zero;
              tmp ← for_range 0 (height image) (λ y tmp,
                       for_range 0 (width image)
                         (λ x tmp, blur_horizontal_pixel image k y x tmp) tmp) tmp;
              for_range 0 (height image) (λ y out,
                for_range 0 (width image)
                  (λ x out, blur_vertical_pixel (width image) (height image)
                              (channels image) k tmp y x out) out)
                (img_new (width image) (height image) (channels image))).
  { unfold blur_image. rewrite Hpos. simpl.
    rewrite (proj2 (Z.ltb_lt 0 (width image))), (proj2 (Z.ltb_lt 0 (height image)))
      by lia.
    simpl. rewrite Hchb. reflexivity. }
  destruct (makeGaussianKernel_cases strength) as [[k Hk]|[Hk|Hk]].
  - left. exists k.
    pose proof (makeGaussianKernel_radius strength k Hk) as Hr0.
    destruct (Z.eq_dec (kr k) 0) as [E0|NE].
    + exists image. split; [exact Hk|].
      rewrite Hunfold, Hk. simpl. rewrite E0. reflexivity.
    + destruct (blur_image_total image strength k Hk ltac:(lia) Hwf HW HH Hch)
        as (out & Hout & _).
      exists out. split; [exact Hk | exact Hout].
  - right. left. split; [exact Hk|]. rewrite Hunfold, Hk. reflexivity.
  - right. right. split; [exact Hk|]. rewrite Hunfold, Hk. reflexivity.
Qed.

Lemma blur_colors_outcome (colors : list (Color T)) (C : Z) (strength : spec_float) :
  Z.of_nat (length colors) ≤ INT_MAX →
  C = 1 ∨ C = 3 →
  Forall (λ col, color_channels col = C) colors →
  (∃ out, blur_colors colors strength = Ok out) ∨
  (makeGaussianKernel strength = Fault UndefinedConversion ∧
   blur_colors colors strength = Fault UndefinedConversion) ∨
  (makeGaussianKernel strength = Fault LengthError ∧
   blur_colors colors strength = Fault LengthError).
Proof.
  intros Hmax HC Hcols.
  destruct (F32.ltb F32.zero strength) eqn:Hpos.
  2:{ left. exists colors. unfold blur_colors. rewrite Hpos. reflexivity. }
  destruct (decide (colors = [])) as [Hnil|Hne].
  { left. exists []. unfold blur_colors. rewrite Hpos. simpl.
    destruct (decide (colors = [])); [reflexivity | contradiction]. }
  assert (Hn : 1 ≤ Z.of_nat (length colors)).
  { destruct colors; [contradiction | simpl; lia]. }
  destruct (makeGaussianKernel_cases strength) as [[k Hk]|[Hk|Hk]].
  - pose proof (makeGaussianKernel_radius strength k Hk) as Hr0.
    destruct (Z.eq_dec (kr k) 0) as [E0|NE].
    + left. exists colors. unfold blur_colors. rewrite Hpos. simpl.
      destruct (decide (colors = [])); [contradiction|].
      rewrite Hk. simpl. rewrite E0. reflexivity.
    + left. eexists.
      apply (blur_colors_total colors strength k C); auto. lia.
  - right. left. split; [exact Hk|]. unfold blur_colors. rewrite Hpos. simpl.
    destruct (decide (colors = [])); [contradiction|].
    rewrite Hk. reflexivity.
  - right. right. split; [exact Hk|]. unfold blur_colors. rewrite Hpos. simpl.
    destruct (decide (colors = [])); [contradiction|].
    rewrite Hk. reflexivity.
Qed.

Lemma downsample_image_outcome (image : Image T) (w h : Z) :
  wf_image image →
  0 < width image → 0 < height image →
  channels image = 1 ∨ channels image = 3 →
  w ≤ INT_MAX → h ≤ INT_MAX →
  (∃ out, downsample_image image w h = Ok out) ∨
  downsample_image image w h = Abort 781234981.
Proof.
  intros Hwf HW HH Hch Hw Hh.
  destruct (Z.lt_ge_cases 0 w) as [Hw0|Hw0]; [destruct (Z.lt_ge_cases 0 h) as [Hh0|Hh0]|].
  - destruct (downsample_image_spec image w h Hwf HW HH Hch) as (out & Hout & _);
      [lia | lia |].
    left. exists out. exact Hout.
  - right. unfold downsample_image.
    rewrite (proj2 (Z.ltb_ge 0 h)) by lia. rewrite andb_false_r. reflexivity.
  - right. unfold downsample_image.
    rewrite (proj2 (Z.ltb_ge 0 w)) by lia. reflexivity.
Qed.

Lemma downsample_colors_outcome (colors : list (Color T)) (n : Z) :
  Z.of_nat (length colors) ≤ INT_MAX →
  ∃ out, downsample_colors colors n = Ok out.
Proof.
  intros Hmax.
  destruct (Z.le_gt_cases n 0) as [Hn|Hn].
  { exists []. apply (proj1 (downsample_colors_shortcuts L T colors n)). exact Hn. }
  destruct (Z.le_gt_cases (Z.of_nat (length colors)) n) as [Hm|Hm].
  { exists colors. apply (proj2 (proj2 (downsample_colors_shortcuts L T colors n))).
    exact Hm. }
  destruct (Z.eq_dec n 1) as [->|Hn1].
  - destruct (lookup_lt_is_Some_2 colors
                (Z.to_nat (Z.quot (Z.of_nat (length colors)) 2))) as [c Hc].
    { rewrite Z.quot_div_nonneg by lia.
      assert (Z.of_nat (length colors) / 2 < Z.of_nat (length colors))
        by (apply Z.div_lt_upper_bound; lia).
      assert (0 ≤ Z.of_nat (length colors) / 2) by (apply Z.div_pos; lia). lia. }
    exists [c]. unfold downsample_colors. simpl.
    destruct (decide (colors = [])) as [->|_]; [simpl in Hm; lia|].
    rewrite wrap_int_id by (unfold INT_MIN, INT_MAX in *; lia).
    destruct (Z.leb_spec (Z.of_nat (length colors)) 1); [lia|].
    rewrite (vec_get_Ok colors _ c); [reflexivity | | exact Hc].
    rewrite Z.quot_div_nonneg by lia. apply Z.div_pos; lia.
  - destruct (downsample_colors_spec colors n) as (out & Hout & _); [lia | lia |].
    exists out. exact Hout.
Qed.
End Outcomes.

(** C10: under the preconditions (a well-formed image of positive size with
    1 or 3 channels, a sequence whose elements all have the same 1 or 3
    channels, sizes that are C++ ints) no call of downsample or blur reads
    or writes an element out of bounds; downsample returns normally for a
    positive target, and blur returns normally whenever its kernel could be
    built. *)
Theorem accesses_in_bounds (L : LibM) (T : Type) (E : Elem T)
    (image : Image T) (colors : list (Color T)) (C w h n : Z) (strength : spec_float) :
  wf_image image →
  0 < width image → 0 < height image →
  channels image = 1 ∨ channels image = 3 →
  Z.of_nat (length colors) ≤ INT_MAX →
  C = 1 ∨ C = 3 →
  Forall (λ col, color_channels col = C) colors →
  w ≤ INT_MAX → h ≤ INT_MAX →
  (downsample_image image w h ≠ Fault OutOfRange ∧
   downsample_colors colors n ≠ Fault OutOfRange ∧
   blur_image image strength ≠ Fault OutOfRange ∧
   blur_colors colors strength ≠ Fault OutOfRange) ∧
  (0 < w → 0 < h → ∃ out, downsample_image image w h = Ok out) ∧
  (∃ out, downsample_colors colors n = Ok out) ∧
  (∀ k, makeGaussianKernel strength = Ok k →
     (∃ out, blur_image image strength = Ok out) ∧
     (∃ out, blur_colors colors strength = Ok out)).
Proof.
  intros Hwf HW HH Hch Hmax HC Hcols Hw Hh.
  pose proof (downsample_image_outcome image w h Hwf HW HH Hch Hw Hh) as Hdi.
  pose proof (downsample_colors_outcome colors n Hmax) as [dc Hdc].
  pose proof (blur_image_outcome image strength Hwf HW HH Hch) as Hbi.
  pose proof (blur_colors_outcome colors C strength Hmax HC Hcols) as Hbc.
  split; [|split; [|split]].
  - repeat split.
    + destruct Hdi as [[out ->]| ->]; discriminate.
    + rewrite Hdc. discriminate.
    + destruct Hbi as [(k & out & _ & ->)|[[_ ->]|[_ ->]]]; discriminate.
    + destruct Hbc as [[out ->]|[[_ ->]|[_ ->]]]; discriminate.
  - intros Hw0 Hh0.
    destruct (downsample_image_spec image w h Hwf HW HH Hch) as (out & Hout & _);
      [lia | lia |].
    exists out. exact Hout.
  - exists dc. exact Hdc.
  - intros k Hk. split.
    + destruct Hbi as [(k' & out & _ & Hout)|[[Hf _]|[Hf _]]];
        [exists out; exact Hout | congruence | congruence].
    + destruct Hbc as [[out Hout]|[[Hf _]|[Hf _]]];
        [exists out; exact Hout | congruence | congruence].
Qed.

Lemma accesses_in_bounds_witness :
  let image := mkImage 3 2 1 [0; 0; 255; 255; 0; 0] in
  let colors := [[0; 0; 0]; [255; 255; 255]; [0; 0; 0]] in
  (downsample_image (L := example_libm) (E := example_u8) image 2 2 ≠ Fault OutOfRange ∧
   downsample_colors (L := example_libm) colors 2 ≠ Fault OutOfRange ∧
   blur_image (L := example_libm) (E := example_u8) image example_half ≠ Fault OutOfRange ∧
   blur_colors (L := example_libm) (E := example_u8) colors example_half
     ≠ Fault OutOfRange) ∧
  (0 < 2 → 0 < 2 →
   ∃ out, downsample_image (L := example_libm) (E := example_u8) image 2 2 = Ok out) ∧
  (∃ out, downsample_colors (L := example_libm) colors 2 = Ok out) ∧
  (∀ k, makeGaussianKernel (L := example_libm) example_half = Ok k →
     (∃ out, blur_image (L := example_libm) (E := example_u8) image example_half = Ok out) ∧
     (∃ out, blur_colors (L := example_libm) (E := example_u8) colors example_half
             = Ok out)).
Proof.
  apply (accesses_in_bounds example_libm Z example_u8
           (mkImage 3 2 1 [0; 0; 255; 255; 0; 0])
           [[0; 0; 0]; [255; 255; 255]; [0; 0; 0]] 3 2 2 2 example_half).
  - unfold wf_image, INT_MAX, PTRDIFF_MAX. simpl. lia.
  - simpl. lia.
  - simpl. lia.
  - left. reflexivity.
  - vm_compute. discriminate.
  - right. reflexivity.
  - repeat constructor.
  - vm_compute. discriminate.
  - vm_compute. discriminate.
Defined.

(** ** Rounding to nearest in [SpecFloat] *)

Lemma loc_of_shr_record_of_loc (m : Z) (l : location) :
  loc_of_shr_record (shr_record_of_loc m l) = l ∧ shr_m (shr_record_of_loc m l) = m.
Proof. destruct l as [|[| |]]; simpl; auto. Qed.

Lemma shr_1_ok (mrs : shr_record) (N D : Z) :
  0 < D → rec_ok mrs N D →
  rec_ok (shr_1 mrs) N (2 * D) ∧ shr_m (shr_1 mrs) = shr_m mrs / 2.
Proof.
  intros HD [Hm Hloc]. destruct mrs as [m r s]. simpl in Hm.
  destruct m as [|p|p]; [| |lia].
  - unfold rec_ok, loc_ok in *.
    destruct r, s; simpl in *; (split; [|reflexivity]); lia.
  - destruct p as [p|p|].
    + assert (Hdiv : Z.pos p~1 / 2 = Z.pos p).
      { rewrite (Pos2Z.inj_xI p). symmetry. apply (Z.div_unique _ _ _ 1); lia. }
      unfold rec_ok, loc_ok in *. simpl shr_m in *. rewrite Hdiv.
      rewrite (Pos2Z.inj_xI p) in Hloc.
      destruct r, s; simpl in *; (split; [|reflexivity]); lia.
    + assert (Hdiv : Z.pos p~0 / 2 = Z.pos p).
      { rewrite (Pos2Z.inj_xO p). symmetry. apply (Z.div_unique _ _ _ 0); lia. }
      unfold rec_ok, loc_ok in *. simpl shr_m in *. rewrite Hdiv.
      rewrite (Pos2Z.inj_xO p) in Hloc.
      destruct r, s; simpl in *; (split; [|reflexivity]); lia.
    + unfold rec_ok, loc_ok in *. destruct r, s; simpl in *; (split; [|reflexivity]); lia.
Qed.

Lemma iter_pos_inv {A : Type} (f : A → A) (Inv : Z → A → Prop) :
  (∀ n x, 0 ≤ n → Inv n x → Inv (n + 1) (f x)) →
  ∀ p n x, 0 ≤ n → Inv n x → Inv (n + Z.pos p) (SpecFloat.iter_pos f p x).
Proof.
  intros Hstep. induction p as [p IH|p IH|]; intros n x Hn Hx; simpl.
  - replace (n + Z.pos p~1) with (n + 1 + Z.pos p + Z.pos p) by lia.
    apply IH; [lia|]. apply IH; [lia|]. apply Hstep; assumption.
  - replace (n + Z.pos p~0) with (n + Z.pos p + Z.pos p) by lia.
    apply IH; [lia|]. apply IH; assumption.
  - apply Hstep; assumption.
Qed.

(** Shifting right by [p] bits keeps the description, in units [2^p]
    times larger. *)
Lemma shr_iter_ok (mrs : shr_record) (N D : Z) (p : positive) :
  0 < D → rec_ok mrs N D →
  rec_ok (SpecFloat.iter_pos shr_1 p mrs) N (D * 2 ^ Z.pos p) ∧
  shr_m (SpecFloat.iter_pos shr_1 p mrs) = shr_m mrs / 2 ^ Z.pos p.
Proof.
  intros HD Hok.
  pose (Inv := λ n x, rec_ok x N (D * 2 ^ n) ∧ shr_m x = shr_m mrs / 2 ^ n).
  change (Inv (Z.pos p) (SpecFloat.iter_pos shr_1 p mrs)).
  replace (Z.pos p) with (0 + Z.pos p) at 1 by lia.
  apply iter_pos_inv.
  - intros n x Hn [Hx Hm].
    assert (Hpow : 0 < 2 ^ n) by (apply Z.pow_pos_nonneg; lia).
    destruct (shr_1_ok x N (D * 2 ^ n)) as [Hx' Hm']; [nia | exact Hx |].
    split.
    + replace (D * 2 ^ (n + 1)) with (2 * (D * 2 ^ n)); [exact Hx'|].
      rewrite Z.pow_add_r by lia. change (2 ^ 1) with 2. ring.
    + rewrite Hm', Hm. rewrite Z.pow_add_r by lia. change (2 ^ 1) with 2.
      apply Z.div_div; lia.
  - lia.
  - split.
    + rewrite Z.pow_0_r, Z.mul_1_r. exact Hok.
    + rewrite Z.pow_0_r, Z.div_1_r. reflexivity.
Qed.

(** Rounding the described value to the nearest mantissa, ties to even. *)
Lemma round_nearest_even_ok (m : Z) (l : location) (N D : Z) :
  loc_ok m l N D →
  let m1 := round_nearest_even m l in
  m ≤ m1 ≤ m + 1 ∧ 2 * Z.abs (m1 * D - N) ≤ D ∧ (l = loc_Exact → m1 = m).
Proof.
  intros [Hrange Hl]. unfold round_nearest_even.
  destruct l as [|[| |]]; simpl.
  - split; [lia|]. split; [lia|]. reflexivity.
  - destruct (Z.even m); (split; [lia|]); (split; [lia | discriminate]).
  - split; [lia|]. split; [lia | discriminate].
  - split; [lia|]. split; [lia | discriminate].
Qed.

Lemma Zdigits2_bounds (m : Z) :
  0 < m → 2 ^ (Zdigits2 m - 1) ≤ m < 2 ^ Zdigits2 m.
Proof.
  destruct m as [|p|p]; try lia. intros _. apply digits2_pos_bounds.
Qed.

Lemma Zdigits2_pos (m : Z) : 0 < m → 0 < Zdigits2 m.
Proof. destruct m as [|p|p]; simpl; lia. Qed.

Lemma Zdigits2_unique (m d : Z) :
  2 ^ (d - 1) ≤ m < 2 ^ d → 0 < m → Zdigits2 m = d.
Proof.
  intros Hd Hm.
  pose proof (Zdigits2_bounds m Hm) as Hb.
  pose proof (Zdigits2_pos m Hm) as Hp.
  assert (Hd1 : 1 ≤ d).
  { destruct (Z.le_gt_cases 1 d) as [|Hlt]; [assumption|].
    assert (2 ^ d ≤ 2 ^ 0).
    { destruct (Z.neg_nonneg_cases d) as [Hneg|Hnn].
      - rewrite Z.pow_neg_r by exact Hneg. simpl. lia.
      - apply Z.pow_le_mono_r; lia. }
    simpl in *. lia. }
  destruct (Z.lt_trichotomy (Zdigits2 m) d) as [Hlt|[Heq|Hgt]]; [|exact Heq|].
  - assert (2 ^ Zdigits2 m ≤ 2 ^ (d - 1)) by (apply Z.pow_le_mono_r; lia). lia.
  - assert (2 ^ d ≤ 2 ^ (Zdigits2 m - 1)) by (apply Z.pow_le_mono_r; lia). lia.
Qed.

Section RoundAux.
Variables prec emax : Z.
Hypothesis Hprec : 0 < prec.

Lemma round_second_stage (sx : bool) (m1 e : Z) :
  0 < m1 ≤ 2 ^ prec → emin prec emax ≤ e →
  (let '(mrs, e') := shr_fexp prec emax m1 e loc_Exact in
   match shr_m mrs with
   | Z0 => S754_zero sx
   | Zpos m => if e' <=? emax - prec then S754_finite sx m e' else S754_infinity sx
   | Zneg _ => S754_nan
   end) = pack_rounded prec emax sx m1 e.
Proof.
  intros Hm He. unfold pack_rounded, shr_fexp, fexp.
  pose proof (Zdigits2_bounds m1 ltac:(lia)) as Hb.
  pose proof (Zdigits2_pos m1 ltac:(lia)) as Hp.
  destruct (Z.ltb_spec m1 (2 ^ prec)) as [Hlt|Hge].
  - assert (Hd : Zdigits2 m1 ≤ prec).
    { destruct (Z.le_gt_cases (Zdigits2 m1) prec) as [|Hgt]; [assumption|].
      assert (2 ^ prec ≤ 2 ^ (Zdigits2 m1 - 1)) by (apply Z.pow_le_mono_r; lia). lia. }
    assert (Hn : Z.max (Zdigits2 m1 + e - prec) (emin prec emax) - e ≤ 0) by lia.
    unfold shr.
    destruct (Z.max (Zdigits2 m1 + e - prec) (emin prec emax) - e) as [|p|p] eqn:En;
      [| lia |]; simpl; destruct m1 as [|q|q]; try lia; reflexivity.
  - assert (Hm1 : m1 = 2 ^ prec) by lia.
    assert (Hd : Zdigits2 m1 = prec + 1).
    { apply Zdigits2_unique; [|lia]. rewrite Hm1.
      replace (prec + 1 - 1) with prec by lia.
      rewrite Z.pow_add_r by lia. change (2 ^ 1) with 2. lia. }
    rewrite Hd.
    replace (Z.max (prec + 1 + e - prec) (emin prec emax) - e) with 1 by lia.
    unfold shr. simpl SpecFloat.iter_pos.
    change (shr_record_of_loc m1 loc_Exact)
      with (Build_shr_record m1 false false).
    destruct (shr_1_ok (Build_shr_record m1 false false) m1 1) as [_ Hdiv].
    { lia. }
    { split; [simpl; lia|]. unfold loc_ok. simpl. lia. }
    simpl shr_m in Hdiv. rewrite Hdiv.
    assert (Hhalf : 0 < m1 / 2).
    { apply Z.div_str_pos. split; [lia|]. rewrite Hm1.
      replace prec with (Z.succ (prec - 1)) by lia.
      rewrite Z.pow_succ_r by lia.
      assert (0 < 2 ^ (prec - 1)) by (apply Z.pow_pos_nonneg; lia). lia. }
    unfold pack_finite. destruct (m1 / 2) as [|q|q]; try lia. reflexivity.
Qed.

Lemma binary_round_aux_spec (sx : bool) (mx ex : Z) (lx : location) (N D : Z) :
  0 < mx → 0 < D → loc_ok mx lx N D →
  emin prec emax ≤ Zdigits2 mx + ex - prec →
  prec ≤ Zdigits2 mx ∨ lx = loc_Exact →
  let k := Z.max 0 (Zdigits2 mx - prec) in
  ∃ m1, mx / 2 ^ k ≤ m1 ≤ mx / 2 ^ k + 1 ∧
        0 < m1 ≤ 2 ^ prec ∧
        2 * Z.abs (m1 * (D * 2 ^ k) - N) ≤ D * 2 ^ k ∧
        (lx = loc_Exact → Zdigits2 mx ≤ prec → m1 = mx) ∧
        binary_round_aux prec emax sx mx ex lx = pack_rounded prec emax sx m1 (ex + k).
Proof.
  intros Hmx HD Hloc Hnorm Hdig k.
  pose proof (Zdigits2_bounds mx Hmx) as Hb.
  pose proof (Zdigits2_pos mx Hmx) as Hp.
  unfold binary_round_aux.
  assert (Hfexp : fexp prec emax (Zdigits2 mx + ex) - ex = Zdigits2 mx - prec).
  { unfold fexp. lia. }
  unfold shr_fexp at 1. rewrite Hfexp.
  destruct (loc_of_shr_record_of_loc mx lx) as [Hl Hm].
  destruct (Z.le_gt_cases (Zdigits2 mx) prec) as [Hle|Hgt].
  - assert (Hk : k = 0) by (unfold k; lia). rewrite Hk.
    rewrite Z.pow_0_r, Z.div_1_r, Z.mul_1_r, Z.add_0_r.
    assert (Hshr : shr (shr_record_of_loc mx lx) ex (Zdigits2 mx - prec)
                   = (shr_record_of_loc mx lx, ex)).
    { unfold shr. destruct (Zdigits2 mx - prec) as [|p|p] eqn:En; try reflexivity. lia. }
    rewrite Hshr, Hl, Hm.
    destruct (round_nearest_even_ok mx lx N D Hloc) as (Hr1 & Hr2 & Hr3).
    assert (Hm1 : 0 < round_nearest_even mx lx ≤ 2 ^ prec).
    { split; [lia|].
      assert (2 ^ Zdigits2 mx ≤ 2 ^ prec) by (apply Z.pow_le_mono_r; lia). lia. }
    exists (round_nearest_even mx lx).
    split; [exact Hr1|]. split; [exact Hm1|]. split; [exact Hr2|].
    split; [intros Hex _; apply Hr3; exact Hex|].
    apply round_second_stage; [exact Hm1 | lia].
  - assert (Hk : k = Zdigits2 mx - prec) by (unfold k; lia).
    destruct (Zdigits2 mx - prec) as [|p|p] eqn:En; try lia.
    rewrite Hk. unfold shr.
    destruct (shr_iter_ok (shr_record_of_loc mx lx) N D p HD) as [[Hnn Hok] Hdiv].
    { split; [rewrite Hm; lia | rewrite Hl, Hm; exact Hloc]. }
    rewrite Hm in Hdiv.
    set (mrs := SpecFloat.iter_pos shr_1 p (shr_record_of_loc mx lx)) in *.
    destruct (round_nearest_even_ok (shr_m mrs) (loc_of_shr_record mrs) N (D * 2 ^ Z.pos p) Hok)
      as (Hr1 & Hr2 & Hr3).
    assert (Hpow : 0 < 2 ^ Z.pos p) by (apply Z.pow_pos_nonneg; lia).
    assert (Hq : 2 ^ (prec - 1) ≤ mx / 2 ^ Z.pos p < 2 ^ prec).
    { assert (E1 : 2 ^ (Zdigits2 mx - 1) = 2 ^ (prec - 1) * 2 ^ Z.pos p).
      { rewrite <- Z.pow_add_r by lia. f_equal. lia. }
      assert (E2 : 2 ^ Zdigits2 mx = 2 ^ prec * 2 ^ Z.pos p).
      { rewrite <- Z.pow_add_r by lia. f_equal. lia. }
      split.
      - apply Z.div_le_lower_bound; [lia|]. lia.
      - apply Z.div_lt_upper_bound; [lia|]. lia. }
    assert (Hpos : 0 < 2 ^ (prec - 1)) by (apply Z.pow_pos_nonneg; lia).
    assert (Hm1 : 0 < round_nearest_even (shr_m mrs) (loc_of_shr_record mrs) ≤ 2 ^ prec)
      by lia.
    exists (round_nearest_even (shr_m mrs) (loc_of_shr_record mrs)).
    split; [rewrite <- Hdiv; exact Hr1|]. split; [exact Hm1|]. split; [exact Hr2|].
    split; [intros _ Hcontra; lia|].
    apply round_second_stage; [exact Hm1 | lia].
Qed.
End RoundAux.

(** ** binary64: conversion, product and quotient of integers *)

Lemma iter_xO_pow (p t : positive) :
  Z.pos (Pos.iter xO p t) = Z.pos p * 2 ^ Z.pos t.
Proof.
  induction t as [|t IH] using Pos.peano_ind.
  - simpl. lia.
  - rewrite Pos.iter_succ, Pos2Z.inj_xO, IH, Pos2Z.inj_succ.
    rewrite Z.pow_succ_r by lia. ring.
Qed.

Lemma norm53_bounds (z : Z) :
  0 < z < 2 ^ 53 → 2 ^ 52 ≤ norm53 z < 2 ^ 53 ∧ Zdigits2 z ≤ 53.
Proof.
  intros Hz.
  pose proof (Zdigits2_bounds z ltac:(lia)) as Hb.
  pose proof (Zdigits2_pos z ltac:(lia)) as Hp.
  assert (Hd : Zdigits2 z ≤ 53).
  { destruct (Z.le_gt_cases (Zdigits2 z) 53) as [|Hgt]; [assumption|].
    assert (2 ^ 53 ≤ 2 ^ (Zdigits2 z - 1)) by (apply Z.pow_le_mono_r; lia). lia. }
  split; [|exact Hd]. unfold norm53.
  assert (Hpow : 0 < 2 ^ (53 - Zdigits2 z)) by (apply Z.pow_pos_nonneg; lia).
  assert (E1 : 2 ^ 52 = 2 ^ (Zdigits2 z - 1) * 2 ^ (53 - Zdigits2 z)).
  { rewrite <- Z.pow_add_r by lia. f_equal. lia. }
  assert (E2 : 2 ^ 53 = 2 ^ Zdigits2 z * 2 ^ (53 - Zdigits2 z)).
  { rewrite <- Z.pow_add_r by lia. f_equal. lia. }
  rewrite E1, E2. split.
  - apply Z.mul_le_mono_nonneg_r; lia.
  - apply Z.mul_lt_mono_pos_r; lia.
Qed.

Lemma Zdigits2_norm (m : Z) : 2 ^ 52 ≤ m < 2 ^ 53 → Zdigits2 m = 53.
Proof. intros Hm. apply Zdigits2_unique; [exact Hm | lia]. Qed.

Lemma of_int_pos (z : Z) :
  0 < z < 2 ^ 53 →
  F64.of_int z = S754_finite false (Z.to_pos (norm53 z)) (Zdigits2 z - 53).
Proof.
  intros Hz.
  destruct (norm53_bounds z Hz) as [Hn Hd].
  pose proof (Zdigits2_pos z ltac:(lia)) as Hp.
  unfold F64.of_int, binary_normalize.
  destruct z as [|p|p]; try lia.
  unfold binary_round.
  change (Z.pos (digits2_pos p)) with (Zdigits2 (Z.pos p)).
  assert (Hfexp : fexp F64.prec F64.emax (Zdigits2 (Z.pos p) + 0) = Zdigits2 (Z.pos p) - 53).
  { unfold fexp, emin, F64.prec, F64.emax. lia. }
  rewrite Hfexp.
  assert (Halign : shl_align p 0 (Zdigits2 (Z.pos p) - 53)
                   = (Z.to_pos (norm53 (Z.pos p)), Zdigits2 (Z.pos p) - 53)).
  { unfold shl_align, norm53. rewrite Z.sub_0_r.
    destruct (Zdigits2 (Z.pos p) - 53) as [|t|t] eqn:Et; try lia.
    - replace (53 - Zdigits2 (Z.pos p)) with 0 by lia.
      rewrite Z.pow_0_r, Z.mul_1_r. reflexivity.
    - replace (53 - Zdigits2 (Z.pos p)) with (Z.pos t) by lia.
      rewrite <- iter_xO_pow. simpl. reflexivity. }
  rewrite Halign.
  destruct (binary_round_aux_spec F64.prec F64.emax ltac:(unfold F64.prec; lia) false
              (Z.pos (Z.to_pos (norm53 (Z.pos p)))) (Zdigits2 (Z.pos p) - 53) loc_Exact
              (norm53 (Z.pos p)) 1) as (m1 & _ & _ & _ & Hexact & Heq).
  - lia.
  - lia.
  - rewrite Z2Pos.id by lia. unfold loc_ok. lia.
  - rewrite Z2Pos.id by lia. rewrite (Zdigits2_norm _ Hn).
    unfold emin, F64.prec, F64.emax. lia.
  - right. reflexivity.
  - rewrite Z2Pos.id in Hexact, Heq by lia.
    rewrite (Zdigits2_norm _ Hn) in Hexact, Heq.
    rewrite Z2Pos.id by lia. rewrite Heq.
    rewrite Hexact by (auto; unfold F64.prec; lia).
    unfold pack_rounded, pack_finite, F64.prec, F64.emax.
    replace (Z.max 0 (53 - 53)) with 0 by lia. rewrite Z.add_0_r.
    rewrite (proj2 (Z.ltb_lt _ _)) by lia.
    rewrite (proj2 (Z.leb_le _ _)) by lia. reflexivity.
Qed.

Lemma of_int_zero : F64.of_int 0 = S754_zero false.
Proof. reflexivity. Qed.

Lemma int_value_norm (z : Z) :
  0 < z < 2 ^ 53 → int_value (norm53 z) (Zdigits2 z - 53) z.
Proof.
  intros Hz. destruct (norm53_bounds z Hz) as [_ Hd].
  unfold int_value, norm53.
  destruct (Z.leb_spec 0 (Zdigits2 z - 53)).
  - replace (Zdigits2 z - 53) with 0 by lia.
    replace (53 - Zdigits2 z) with 0 by lia. rewrite Z.pow_0_r. lia.
  - f_equal. f_equal. lia.
Qed.

Lemma pack_rounded_norm (sx : bool) (m1 e : Z) :
  2 ^ 52 ≤ m1 ≤ 2 ^ 53 → e + 1 ≤ 971 →
  ∃ M j, (j = 0 ∨ j = 1) ∧ 2 ^ 52 ≤ M < 2 ^ 53 ∧ m1 = M * 2 ^ j ∧
         pack_rounded 53 1024 sx m1 e = S754_finite sx (Z.to_pos M) (e + j).
Proof.
  intros Hm He. unfold pack_rounded, pack_finite.
  destruct (Z.ltb_spec m1 (2 ^ 53)) as [Hlt|Hge].
  - exists m1, 0. split; [auto|]. split; [lia|]. split; [lia|].
    rewrite Z.add_0_r. rewrite (proj2 (Z.leb_le _ _)) by lia. reflexivity.
  - assert (Hm1 : m1 = 2 ^ 53) by lia.
    exists (2 ^ 52), 1. split; [auto|]. split; [lia|]. split; [rewrite Hm1; reflexivity|].
    rewrite (proj2 (Z.leb_le _ _)) by lia. rewrite Hm1. reflexivity.
Qed.

Lemma pow2_pos (n : Z) : 0 ≤ n → 0 < 2 ^ n.
Proof. intros Hn. apply Z.pow_pos_nonneg; lia. Qed.

Lemma pow2_lt_inv (a b : Z) : 0 ≤ b → 2 ^ a < 2 ^ b → a < b.
Proof.
  intros Hb Hlt. destruct (Z.lt_ge_cases a b) as [|Hge]; [assumption|].
  assert (2 ^ b ≤ 2 ^ a) by (apply Z.pow_le_mono_r; lia). lia.
Qed.

Lemma Zdigits2_le (m n : Z) : 0 < m < 2 ^ n → 0 ≤ n → Zdigits2 m ≤ n.
Proof.
  intros Hm Hn. pose proof (Zdigits2_bounds m ltac:(lia)) as Hb.
  assert (Zdigits2 m - 1 < n) by (apply pow2_lt_inv; lia). lia.
Qed.

Lemma Zdigits2_ge (m n : Z) : 0 ≤ n → 2 ^ n ≤ m → n + 1 ≤ Zdigits2 m.
Proof.
  intros Hn Hm. pose proof (pow2_pos n Hn).
  pose proof (Zdigits2_bounds m ltac:(lia)) as Hb.
  pose proof (Zdigits2_pos m ltac:(lia)) as Hp.
  assert (n < Zdigits2 m) by (apply pow2_lt_inv; lia). lia.
Qed.

Lemma norm53_mul (a b : Z) :
  0 < a < 2 ^ 53 → 0 < b < 2 ^ 53 →
  norm53 a * norm53 b = a * b * 2 ^ (106 - Zdigits2 a - Zdigits2 b).
Proof.
  intros Ha Hb.
  destruct (norm53_bounds a Ha) as [_ Hda].
  destruct (norm53_bounds b Hb) as [_ Hdb].
  unfold norm53.
  replace (106 - Zdigits2 a - Zdigits2 b) with ((53 - Zdigits2 a) + (53 - Zdigits2 b)) by lia.
  rewrite Z.pow_add_r by lia. ring.
Qed.

Lemma Zdigits2_scaled (A t : Z) :
  0 < A → 0 ≤ t → Zdigits2 (A * 2 ^ t) = Zdigits2 A + t.
Proof.
  intros HA Ht.
  pose proof (Zdigits2_bounds A HA) as Hb.
  pose proof (Zdigits2_pos A HA) as Hp.
  pose proof (pow2_pos t Ht) as Hpt.
  apply Zdigits2_unique; [|nia].
  replace (Zdigits2 A + t - 1) with (Zdigits2 A - 1 + t) by lia.
  rewrite !Z.pow_add_r by lia. split.
  - apply Z.mul_le_mono_nonneg_r; lia.
  - apply Z.mul_lt_mono_pos_r; lia.
Qed.

(** The product of two positive ints, as binary64 computes it: a value of
    relative error at most [2^-53]. *)
Lemma mul_of_int (a b : Z) :
  0 < a < 2 ^ 31 → 0 < b < 2 ^ 31 →
  ∃ M E V,
    F64.mul (F64.of_int a) (F64.of_int b) = S754_finite false (Z.to_pos M) E ∧
    2 ^ 52 ≤ M < 2 ^ 53 ∧ int_value M E V ∧ -52 ≤ E ≤ 10 ∧
    2 ^ 53 * Z.abs (V - a * b) ≤ a * b.
Proof.
  intros Ha Hb.
  assert (Ha53 : 0 < a < 2 ^ 53) by lia.
  assert (Hb53 : 0 < b < 2 ^ 53) by lia.
  destruct (norm53_bounds a Ha53) as [Hna Hda].
  destruct (norm53_bounds b Hb53) as [Hnb Hdb].
  pose proof (Zdigits2_pos a ltac:(lia)) as Hpa.
  pose proof (Zdigits2_pos b ltac:(lia)) as Hpb.
  set (A := a * b).
  assert (HA : 0 < A < 2 ^ 62) by (unfold A; nia).
  pose proof (Zdigits2_bounds A ltac:(lia)) as HbA.
  pose proof (Zdigits2_pos A ltac:(lia)) as HpA.
  assert (HdA : Zdigits2 A ≤ 62) by (apply Zdigits2_le; lia).
  assert (Hda31 : Zdigits2 a ≤ 31) by (apply Zdigits2_le; lia).
  assert (Hdb31 : Zdigits2 b ≤ 31) by (apply Zdigits2_le; lia).
  assert (HdAlow : Zdigits2 a + Zdigits2 b - 1 ≤ Zdigits2 A).
  { pose proof (Zdigits2_bounds a ltac:(lia)) as Hba.
    pose proof (Zdigits2_bounds b ltac:(lia)) as Hbb.
    pose proof (pow2_pos (Zdigits2 a - 1) ltac:(lia)).
    pose proof (pow2_pos (Zdigits2 b - 1) ltac:(lia)).
    replace (Zdigits2 a + Zdigits2 b - 1) with (Zdigits2 a - 1 + (Zdigits2 b - 1) + 1) by lia.
    apply Zdigits2_ge; [lia|]. rewrite Z.pow_add_r by lia. unfold A. nia. }
  assert (HdAhigh : Zdigits2 A ≤ Zdigits2 a + Zdigits2 b).
  { pose proof (Zdigits2_bounds a ltac:(lia)) as Hba.
    pose proof (Zdigits2_bounds b ltac:(lia)) as Hbb.
    apply Zdigits2_le; [|lia]. rewrite Z.pow_add_r by lia. unfold A. nia. }
  set (t := 106 - Zdigits2 a - Zdigits2 b).
  assert (Ht : 44 ≤ t) by (unfold t; lia).
  pose proof (pow2_pos t ltac:(lia)) as Hpt.
  assert (HN : norm53 a * norm53 b = A * 2 ^ t) by (apply norm53_mul; assumption).
  assert (HdN : Zdigits2 (A * 2 ^ t) = Zdigits2 A + t)
    by (apply Zdigits2_scaled; lia).
  rewrite (of_int_pos a Ha53), (of_int_pos b Hb53).
  unfold F64.mul, SFmul. simpl xorb.
  rewrite Pos2Z.inj_mul, !Z2Pos.id by lia. rewrite HN.
  destruct (binary_round_aux_spec F64.prec F64.emax ltac:(unfold F64.prec; lia) false
              (A * 2 ^ t) (Zdigits2 a - 53 + (Zdigits2 b - 53)) loc_Exact
              (A * 2 ^ t) 1) as (m1 & Hm1q & Hm1 & Hrel & _ & Heq).
  - nia.
  - lia.
  - unfold loc_ok. lia.
  - rewrite HdN. unfold emin, F64.prec, F64.emax, t. lia.
  - left. rewrite HdN. unfold F64.prec, t. lia.
  - rewrite Heq. clear Heq.
    change F64.prec with 53 in *. change F64.emax with 1024 in *.
    rewrite HdN in Hm1q, Hrel |- *.
    set (k := Z.max 0 (Zdigits2 A + t - 53)) in *.
    assert (Hk : k = Zdigits2 A + t - 53) by (unfold k, t; lia).
    pose proof (pow2_pos k ltac:(lia)) as Hpk.
    assert (Hq : 2 ^ 52 ≤ A * 2 ^ t / 2 ^ k).
    { apply Z.div_le_lower_bound; [lia|].
      assert (E1 : 2 ^ k * 2 ^ 52 = 2 ^ (Zdigits2 A - 1) * 2 ^ t).
      { rewrite <- !Z.pow_add_r by lia. f_equal. lia. }
      rewrite E1. apply Z.mul_le_mono_nonneg_r; lia. }
    destruct (pack_rounded_norm false m1 (Zdigits2 a - 53 + (Zdigits2 b - 53) + k))
      as (M & j & Hj & HM & Hm1M & Hpack); [lia | unfold t in *; lia |].
    rewrite Hpack. rewrite Z.mul_1_l in Hrel.
    destruct (Z.lt_ge_cases A (2 ^ 53)) as [Hexact|Hround].
    + (* the product is a binary64 value *)
      assert (HdA53 : Zdigits2 A ≤ 53) by (apply Zdigits2_le; lia).
      assert (Hsplit : A * 2 ^ t = A * 2 ^ (53 - Zdigits2 A) * 2 ^ k).
      { rewrite <- Z.mul_assoc, <- Z.pow_add_r by lia. do 2 f_equal. lia. }
      assert (Hm1eq : m1 = A * 2 ^ (53 - Zdigits2 A)).
      { rewrite Hsplit in Hrel.
        replace (m1 * 2 ^ k - A * 2 ^ (53 - Zdigits2 A) * 2 ^ k)
          with ((m1 - A * 2 ^ (53 - Zdigits2 A)) * 2 ^ k) in Hrel by ring.
        rewrite Z.abs_mul, (Z.abs_eq (2 ^ k)) in Hrel by lia. nia. }
      destruct (norm53_bounds A ltac:(lia)) as [HnA _].
      fold (norm53 A) in Hm1eq.
      assert (Hj0 : j = 0).
      { destruct Hj as [->| ->]; [reflexivity|]. change (2 ^ 1) with 2 in Hm1M. lia. }
      subst j. rewrite Z.pow_0_r, Z.mul_1_r in Hm1M. subst M.
      exists m1, (Zdigits2 A - 53), A.
      split; [f_equal; unfold t in *; lia|]. split; [lia|].
      split; [rewrite Hm1eq; apply int_value_norm; lia|]. split; [lia|].
      rewrite Z.sub_diag. simpl. lia.
    + (* the product is rounded to 53 bits *)
      assert (HdA54 : 54 ≤ Zdigits2 A) by (apply (Zdigits2_ge A 53); lia).
      set (g := Zdigits2 A - 53) in *.
      assert (Hkg : k = g + t) by (unfold g; lia).
      pose proof (pow2_pos g ltac:(unfold g; lia)) as Hpg.
      assert (Hrel' : 2 * Z.abs (m1 * 2 ^ g - A) ≤ 2 ^ g).
      { rewrite Hkg, Z.pow_add_r in Hrel by (unfold g; lia).
        replace (m1 * (2 ^ g * 2 ^ t) - A * 2 ^ t)
          with ((m1 * 2 ^ g - A) * 2 ^ t) in Hrel by ring.
        rewrite Z.abs_mul, (Z.abs_eq (2 ^ t)) in Hrel by lia. nia. }
      exists M, (g + j), (m1 * 2 ^ g).
      split; [f_equal; unfold g, t in *; lia|]. split; [lia|].
      split.
      { unfold int_value. rewrite (proj2 (Z.leb_le 0 (g + j))) by (unfold g; lia).
        rewrite Hm1M, Z.pow_add_r by (unfold g; lia). ring. }
      split; [unfold g; lia|].
      assert (E2 : 2 ^ 53 * 2 ^ g = 2 * 2 ^ (Zdigits2 A - 1)).
      { rewrite <- Z.pow_add_r by (unfold g; lia).
        replace (53 + g) with (Z.succ (Zdigits2 A - 1)) by (unfold g; lia).
        rewrite Z.pow_succ_r by lia. reflexivity. }
      nia.
Qed.

Lemma new_location_ok (D q r N : Z) :
  0 < D → 0 ≤ r < D → N = q * D + r → loc_ok q (new_location D r) N D.
Proof.
  intros HD Hr HN. unfold loc_ok. split; [nia|].
  unfold new_location, new_location_even, new_location_odd.
  destruct (Z.even D) eqn:Heven.
  - destruct (Z.eqb_spec r 0) as [->|Hr0]; [lia|].
    destruct (Z.compare_spec (2 * r) D); nia.
  - destruct (Z.eqb_spec r 0) as [->|Hr0]; [lia|].
    assert (Hodd : Z.odd D = true) by (rewrite <- Z.negb_even, Heven; reflexivity).
    apply Z.odd_spec in Hodd as [h Hh].
    destruct (Z.compare_spec (2 * r + 1) D); nia.
Qed.

Lemma div_core_norm (M E mc ec : Z) :
  2 ^ 52 ≤ M < 2 ^ 53 → 2 ^ 52 ≤ mc < 2 ^ 53 → -1074 ≤ E - ec - 53 →
  SFdiv_core_binary 53 1024 M E mc ec
  = (M * 2 ^ 53 / mc, E - ec - 53, new_location mc (M * 2 ^ 53 mod mc)).
Proof.
  intros HM Hmc He. unfold SFdiv_core_binary.
  rewrite (Zdigits2_norm M HM), (Zdigits2_norm mc Hmc).
  assert (Hmin : Z.min (fexp 53 1024 (53 + E - (53 + ec))) (E - ec) = E - ec - 53).
  { unfold fexp, emin. lia. }
  rewrite Hmin.
  replace (E - ec - (E - ec - 53)) with 53 by lia.
  rewrite Z.shiftl_mul_pow2 by lia.
  unfold Z.div, Z.modulo.
  destruct (Z.div_eucl (M * 2 ^ 53) mc) as [q r]. reflexivity.
Qed.

Section Lround.
Context {L : LibM}.

Lemma lround_pack (m1 u : Z) :
  2 ^ 52 ≤ m1 ≤ 2 ^ 53 → 2 ≤ u ≤ 1000 →
  lround (pack_rounded 53 1024 false m1 (- u)) = (m1 + 2 ^ (u - 1)) / 2 ^ u.
Proof.
  intros Hm Hu.
  pose proof (pow2_pos (u - 1) ltac:(lia)) as HpU.
  pose proof (pow2_pos (u - 2) ltac:(lia)) as HpU2.
  assert (EU : 2 ^ u = 2 * 2 ^ (u - 1)) by (apply pow2_split; lia).
  assert (EU2 : 2 ^ (u - 1) = 2 * 2 ^ (u - 2)).
  { rewrite (pow2_split (u - 1)) by lia. do 2 f_equal. lia. }
  assert (Hres : 0 ≤ (m1 + 2 ^ (u - 1)) / 2 ^ u ≤ 2 ^ 53).
  { split; [apply Z.div_pos; lia|].
    apply Z.lt_succ_r. apply Z.div_lt_upper_bound; [lia|]. nia. }
  unfold pack_rounded, pack_finite.
  destruct (Z.ltb_spec m1 (2 ^ 53)) as [Hlt|Hge].
  - rewrite (proj2 (Z.leb_le _ _)) by lia.
    unfold lround, round_half_away.
    destruct (Z.leb_spec 0 (- u)); [lia|].
    rewrite Z2Pos.id by lia. rewrite Z.opp_involutive.
    unfold LONG_MIN, LONG_MAX.
    rewrite (proj2 (Z.leb_le _ _)) by lia.
    rewrite (proj2 (Z.leb_le _ _)) by lia. reflexivity.
  - assert (Hm1 : m1 = 2 ^ 53) by lia.
    rewrite (proj2 (Z.leb_le _ _)) by lia.
    unfold lround, round_half_away.
    destruct (Z.leb_spec 0 (- u + 1)); [lia|].
    rewrite Z2Pos.id by (rewrite Hm1; reflexivity).
    replace (- (- u + 1)) with (u - 1) by lia.
    replace (u - 1 - 1) with (u - 2) by lia.
    assert (Hsame : (m1 / 2 + 2 ^ (u - 2)) / 2 ^ (u - 1) = (m1 + 2 ^ (u - 1)) / 2 ^ u).
    { rewrite EU, EU2, Hm1. change (2 ^ 53) with (2 * 2 ^ 52).
      replace (2 * 2 ^ 52 / 2) with (2 ^ 52) by reflexivity.
      replace (2 * 2 ^ 52 + 2 * 2 ^ (u - 2)) with (2 * (2 ^ 52 + 2 ^ (u - 2))) by ring.
      rewrite Z.div_mul_cancel_l by lia. reflexivity. }
    rewrite Hsame.
    unfold LONG_MIN, LONG_MAX.
    rewrite (proj2 (Z.leb_le _ _)) by lia.
    rewrite (proj2 (Z.leb_le _ _)) by lia. reflexivity.
Qed.

(** The quotient of a positive binary64 value of integer value [V] by a
    positive int [c], rounded by [lround]: the mantissa [m1] is [V * 2^u / c]
    rounded to nearest. *)
Lemma div_lround (M E V c : Z) :
  2 ^ 52 ≤ M < 2 ^ 53 → int_value M E V → -60 ≤ E ≤ 60 →
  0 < c < 2 ^ 31 → 0 < V < c * 2 ^ 32 →
  ∃ m1 u, 2 ≤ u ∧ 2 ^ 52 ≤ m1 ≤ 2 ^ 53 ∧
    2 * Z.abs (m1 * c - V * 2 ^ u) ≤ c ∧
    lround (F64.div (S754_finite false (Z.to_pos M) E) (F64.of_int c))
    = (m1 + 2 ^ (u - 1)) / 2 ^ u.
Proof.
  intros HM HV HE Hc HVc.
  assert (Hc53 : 0 < c < 2 ^ 53) by lia.
  destruct (norm53_bounds c Hc53) as [Hmc Hdc53].
  pose proof (Zdigits2_pos c ltac:(lia)) as Hpc.
  pose proof (Zdigits2_bounds c ltac:(lia)) as Hbc.
  assert (Hdc : Zdigits2 c ≤ 31) by (apply Zdigits2_le; lia).
  set (dc := Zdigits2 c) in *.
  (* the quotient is below 2^32, so its exponent is well below zero *)
  assert (HEdc : E - dc ≤ -21).
  { assert (HV' : V < 2 ^ (dc + 32)).
    { rewrite Z.pow_add_r by lia. nia. }
    unfold int_value in HV. destruct (Z.leb_spec 0 E) as [HE0|HE0].
    - pose proof (pow2_pos E HE0).
      assert (2 ^ (52 + E) ≤ V) by (rewrite Z.pow_add_r by lia; nia).
      assert (52 + E < dc + 32) by (apply pow2_lt_inv; lia). lia.
    - pose proof (pow2_pos (- E) ltac:(lia)).
      assert (M < 2 ^ (dc + 32 - E)).
      { replace (dc + 32 - E) with (dc + 32 + - E) by lia.
        rewrite Z.pow_add_r by lia. nia. }
      assert (52 < dc + 32 - E) by (apply pow2_lt_inv; lia). lia. }
  rewrite (of_int_pos c Hc53). fold dc.
  unfold F64.div, SFdiv. simpl xorb.
  change F64.prec with 53. change F64.emax with 1024.
  rewrite !Z2Pos.id by lia.
  rewrite (div_core_norm M E (norm53 c) (dc - 53) HM Hmc) by lia.
  set (q := M * 2 ^ 53 / norm53 c).
  set (r := M * 2 ^ 53 mod norm53 c).
  assert (Hqr : M * 2 ^ 53 = q * norm53 c + r).
  { unfold q, r. rewrite (Z.mul_comm _ (norm53 c)). apply Z.div_mod. lia. }
  assert (Hr : 0 ≤ r < norm53 c) by (unfold r; apply Z.mod_pos_bound; lia).
  assert (Hq : 2 ^ 52 ≤ q < 2 ^ 54).
  { unfold q. split.
    - apply Z.div_le_lower_bound; [lia|].
      change (2 ^ 53) with 9007199254740992 in *.
      change (2 ^ 52) with 4503599627370496 in *. nia.
    - apply Z.div_lt_upper_bound; [lia|].
      change (2 ^ 53) with 9007199254740992 in *.
      change (2 ^ 52) with 4503599627370496 in *.
      change (2 ^ 54) with 18014398509481984. nia. }
  assert (Hdq : 53 ≤ Zdigits2 q ≤ 54).
  { split; [apply (Zdigits2_ge q 52); lia | apply Zdigits2_le; lia]. }
  destruct (binary_round_aux_spec 53 1024 ltac:(lia) false q (E - (dc - 53) - 53)
              (new_location (norm53 c) r) (M * 2 ^ 53) (norm53 c))
    as (m1 & Hm1q & Hm1 & Hrel & _ & Heq).
  - lia.
  - lia.
  - apply new_location_ok; [lia | exact Hr | exact Hqr].
  - unfold emin. lia.
  - left. lia.
  - rewrite Heq. clear Heq.
    set (k := Z.max 0 (Zdigits2 q - 53)) in *.
    assert (Hk : 0 ≤ k ≤ 1) by (unfold k; lia).
    pose proof (pow2_pos k ltac:(lia)) as Hpk.
    pose proof (Zdigits2_bounds q ltac:(lia)) as Hbq.
    assert (Hm1low : 2 ^ 52 ≤ m1).
    { assert (2 ^ 52 ≤ q / 2 ^ k); [|lia].
      apply Z.div_le_lower_bound; [lia|].
      assert (E1 : 2 ^ k * 2 ^ 52 ≤ 2 ^ (Zdigits2 q - 1)).
      { rewrite <- Z.pow_add_r by lia. apply Z.pow_le_mono_r; unfold k; lia. }
      lia. }
    set (u := dc - E - k).
    assert (Hu : 20 ≤ u) by (unfold u; lia).
    exists m1, u. split; [lia|]. split; [lia|]. split.
    + (* scale the rounding relation down to [c] *)
      set (s := 53 - dc + k).
      pose proof (pow2_pos s ltac:(unfold s; lia)) as Hps.
      pose proof (pow2_pos u ltac:(lia)) as Hpu.
      assert (Hmc_s : norm53 c * 2 ^ k = c * 2 ^ s).
      { unfold norm53, s. fold dc. rewrite <- Z.mul_assoc, <- Z.pow_add_r by lia.
        reflexivity. }
      assert (HM_s : M * 2 ^ 53 = V * 2 ^ u * 2 ^ s).
      { unfold int_value in HV. destruct (Z.leb_spec 0 E) as [HE0|HE0].
        - rewrite HV, <- !Z.mul_assoc, <- !Z.pow_add_r by (unfold s; lia).
          do 2 f_equal. unfold u, s. lia.
        - rewrite HV, <- !Z.mul_assoc, <- !Z.pow_add_r by (unfold s; lia).
          do 2 f_equal. unfold u, s. lia. }
      rewrite Hmc_s, HM_s in Hrel.
      replace (m1 * (c * 2 ^ s) - V * 2 ^ u * 2 ^ s)
        with ((m1 * c - V * 2 ^ u) * 2 ^ s) in Hrel by ring.
      rewrite Z.abs_mul, (Z.abs_eq (2 ^ s)) in Hrel by lia. nia.
    + replace (E - (dc - 53) - 53 + k) with (- u) by (unfold u; lia).
      apply lround_pack; [lia | unfold u; lia].
Qed.
End Lround.

(** ** The index map on integers *)

Lemma round_div_nearest (a c : Z) :
  0 ≤ a → 0 < c →
  2 * c * round_div a c - c ≤ 2 * a < 2 * c * round_div a c + c.
Proof.
  intros Ha Hc. unfold round_div.
  pose proof (Z.div_mod (2 * a + c) (2 * c) ltac:(lia)) as Hdm.
  pose proof (Z.mod_pos_bound (2 * a + c) (2 * c) ltac:(lia)) as Hmod.
  lia.
Qed.

Lemma round_div_unique (a c K : Z) :
  0 < c → 2 * c * K - c ≤ 2 * a < 2 * c * K + c → round_div a c = K.
Proof.
  intros Hc HK. unfold round_div. symmetry.
  apply (Z.div_unique _ _ K (2 * a + c - 2 * c * K)); lia.
Qed.

(** Rounding [A * 2^u / c] to a nearest integer [m1] first, and then
    [m1 / 2^u] to the nearest integer, gives [A / c] rounded to nearest
    when the grid [2^-u] is finer than [1 / c]. *)
Lemma round_div_exact (A c u m1 : Z) :
  0 ≤ A → 0 < c → 1 ≤ u → c < 2 ^ u →
  2 * Z.abs (m1 * c - A * 2 ^ u) ≤ c →
  (m1 + 2 ^ (u - 1)) / 2 ^ u = round_div A c.
Proof.
  intros HA Hc Hu Hfine Hrel.
  pose proof (round_div_nearest A c HA Hc) as HK.
  set (K := round_div A c) in *.
  rewrite (pow2_split u) in * by lia.
  pose proof (pow2_pos (u - 1) ltac:(lia)) as HU.
  set (P2 := 2 ^ (u - 1)) in *.
  symmetry. apply (Z.div_unique _ _ K (m1 + P2 - 2 * P2 * K)); [|lia].
  left. split.
  - assert (2 * P2 * c * (2 * K - 1) - c ≤ 2 * m1 * c) by nia.
    assert (2 * P2 * (2 * K - 1) - 1 ≤ 2 * m1) by nia.
    lia.
  - assert (2 * m1 * c ≤ 4 * A * P2 + c) by nia.
    assert (4 * A * P2 ≤ 2 * P2 * (c * (2 * K + 1) - 1)) by nia.
    assert (2 * m1 * c < 2 * P2 * c * (2 * K + 1)) by nia.
    assert (m1 < P2 * (2 * K + 1)) by nia.
    lia.
Qed.

(** The same double rounding for a numerator [V] within [c / 4] of a
    multiple [c * b] of the denominator gives [b]. *)
Lemma round_div_near (V c b u m1 : Z) :
  0 < c → 2 ≤ u →
  2 * Z.abs (m1 * c - V * 2 ^ u) ≤ c →
  4 * Z.abs (V - c * b) ≤ c →
  (m1 + 2 ^ (u - 1)) / 2 ^ u = b.
Proof.
  intros Hc Hu Hrel Hnear.
  rewrite (pow2_split u) in * by lia.
  pose proof (pow2_pos (u - 2) ltac:(lia)) as HU2.
  assert (EU : 2 ^ (u - 1) = 2 * 2 ^ (u - 2)).
  { rewrite (pow2_split (u - 1)) by lia. do 2 f_equal. lia. }
  rewrite EU in *.
  set (P4 := 2 ^ (u - 2)) in *.
  symmetry. apply (Z.div_unique _ _ b (m1 + 2 * P4 - 2 * (2 * P4) * b)); [|lia].
  left.
  assert (H1 : 2 * Z.abs ((V - c * b) * (4 * P4)) ≤ 2 * c * P4).
  { rewrite Z.abs_mul, (Z.abs_eq (4 * P4)) by lia. nia. }
  assert (H2 : 2 * Z.abs (m1 * c - 4 * P4 * c * b) ≤ c + 2 * c * P4) by lia.
  assert (H3 : 2 * c * Z.abs (m1 - 4 * P4 * b) ≤ c + 2 * c * P4).
  { replace (m1 * c - 4 * P4 * c * b) with ((m1 - 4 * P4 * b) * c) in H2 by ring.
    rewrite Z.abs_mul, (Z.abs_eq c) in H2 by lia. lia. }
  assert (H4 : 2 * Z.abs (m1 - 4 * P4 * b) ≤ 1 + 2 * P4) by nia.
  lia.
Qed.

Section IndexMap.
Context {L : LibM}.

Lemma lround_quotient_zero (i b c : Z) :
  i = 0 ∨ b = 0 → 0 ≤ i < 2 ^ 31 → 0 ≤ b < 2 ^ 31 → 0 < c < 2 ^ 31 →
  lround (F64.div (F64.mul (F64.of_int i) (F64.of_int b)) (F64.of_int c)) = 0.
Proof.
  intros Hz Hi Hb Hc.
  rewrite (of_int_pos c) by lia.
  assert (Hmul : ∃ s, F64.mul (F64.of_int i) (F64.of_int b) = S754_zero s).
  { destruct (Z.eq_dec i 0) as [->|Hi0]; destruct (Z.eq_dec b 0) as [->|Hb0].
    - exists false. reflexivity.
    - rewrite (of_int_pos b) by lia. exists false. reflexivity.
    - rewrite (of_int_pos i) by lia. exists false. reflexivity.
    - lia. }
  destruct Hmul as [s ->]. reflexivity.
Qed.

Lemma lround_quotient_exact (i b c : Z) :
  0 < i ≤ c → 0 < b < 2 ^ 31 → 0 < c < 2 ^ 31 → i * b < 2 ^ 52 →
  lround (F64.div (F64.mul (F64.of_int i) (F64.of_int b)) (F64.of_int c))
  = round_div (i * b) c.
Proof.
  intros Hi Hb Hc Hsmall.
  destruct (mul_of_int i b ltac:(lia) Hb) as (M & E & V & -> & HM & HV & HE & Herr).
  assert (HA : 0 < i * b) by nia.
  assert (HVA : V = i * b).
  { change (2 ^ 53) with 9007199254740992 in Herr.
    change (2 ^ 52) with 4503599627370496 in Hsmall. lia. }
  subst V.
  destruct (div_lround M E (i * b) c HM HV ltac:(lia) Hc) as (m1 & u & Hu & Hm1 & Hrel & ->).
  { split; [lia|]. nia. }
  apply round_div_exact; try lia.
  pose proof (pow2_pos u ltac:(lia)) as Hpu.
  change (2 ^ 52) with 4503599627370496 in *.
  change (2 ^ 53) with 9007199254740992 in *.
  destruct (Z.lt_ge_cases c (2 ^ u)) as [|Hge]; [assumption|]. nia.
Qed.

Lemma lround_quotient_last (b c : Z) :
  0 < b < 2 ^ 31 → 0 < c < 2 ^ 31 →
  lround (F64.div (F64.mul (F64.of_int c) (F64.of_int b)) (F64.of_int c)) = b.
Proof.
  intros Hb Hc.
  destruct (mul_of_int c b Hc Hb) as (M & E & V & -> & HM & HV & HE & Herr).
  assert (HA : 0 < c * b) by nia.
  change (2 ^ 53) with 9007199254740992 in Herr.
  change (2 ^ 31) with 2147483648 in *.
  assert (Hnear : 4 * Z.abs (V - c * b) ≤ c) by nia.
  destruct (div_lround M E V c HM HV ltac:(lia) ltac:(lia)) as (m1 & u & Hu & Hm1 & Hrel & ->).
  { change (2 ^ 32) with 4294967296. split; nia. }
  apply (round_div_near V c b u m1); try lia.
Qed.

(** Where the product [i * (m - 1)] is below [2^52], the index the code
    computes in binary64 is the index of the exact formula. *)
Lemma map_index_round_exact (i n m : Z) :
  2 ≤ n ≤ INT_MAX → 1 ≤ m ≤ INT_MAX → 0 ≤ i ≤ n - 1 →
  i * (m - 1) < 2 ^ 52 →
  map_index_round i n m = index_formula i n m.
Proof.
  unfold INT_MAX. intros Hn Hm Hi Hsmall.
  unfold map_index_round, index_formula.
  rewrite (wrap_int_id (m - 1)), (wrap_int_id (n - 1)) by (unfold INT_MIN, INT_MAX; lia).
  f_equal.
  destruct (Z.eq_dec i 0) as [Hi0|Hi0]; [|destruct (Z.eq_dec (m - 1) 0) as [Hb0|Hb0]].
  - rewrite lround_quotient_zero by (auto; lia). subst i.
    rewrite wrap_int_id by (unfold INT_MIN, INT_MAX; lia).
    symmetry. apply round_div_unique; lia.
  - rewrite lround_quotient_zero by (auto; lia). rewrite Hb0, Z.mul_0_r.
    rewrite wrap_int_id by (unfold INT_MIN, INT_MAX; lia).
    symmetry. apply round_div_unique; lia.
  - rewrite lround_quotient_exact by lia.
    apply wrap_int_id.
    pose proof (round_div_nearest (i * (m - 1)) (n - 1) ltac:(nia) ltac:(lia)) as HK.
    unfold INT_MIN, INT_MAX. nia.
Qed.

(** The first output position maps to the first source index and the last
    one to the last, whatever the sizes. *)
Lemma map_index_round_endpoints (n m : Z) :
  2 ≤ n ≤ INT_MAX → 1 ≤ m ≤ INT_MAX →
  map_index_round 0 n m = 0 ∧ map_index_round (n - 1) n m = m - 1.
Proof.
  unfold INT_MAX. intros Hn Hm.
  unfold map_index_round.
  rewrite (wrap_int_id (m - 1)), (wrap_int_id (n - 1)) by (unfold INT_MIN, INT_MAX; lia).
  split.
  - rewrite lround_quotient_zero by (auto; lia).
    rewrite wrap_int_id by (unfold INT_MIN, INT_MAX; lia).
    apply clampi_id. lia.
  - destruct (Z.eq_dec (m - 1) 0) as [Hb0|Hb0].
    + rewrite lround_quotient_zero by (auto; lia).
      rewrite wrap_int_id by (unfold INT_MIN, INT_MAX; lia).
      rewrite Hb0. reflexivity.
    + rewrite lround_quotient_last by lia.
      rewrite wrap_int_id by (unfold INT_MIN, INT_MAX; lia).
      apply clampi_id. lia.
Qed.
End IndexMap.

(** Beyond that bound the two differ: a sequence of 67574561 elements
    resampled to 67316672. *)
Lemma map_index_round_inexact :
  map_index_round (L := example_libm) 67021577 67316672 67574561 = 67278336 ∧
  index_formula 67021577 67316672 67574561 = 67278335.
Proof. split; vm_compute; reflexivity. Qed.

(** ** The radius of the kernel *)

Lemma SFltb_zero_cases (x : spec_float) :
  F32.ltb F32.zero x = true →
  x = S754_infinity false ∨ ∃ m e, x = S754_finite false m e.
Proof.
  unfold F32.ltb, SFltb, F32.zero.
  destruct x as [s|[|]| |[|] m e]; simpl; try discriminate; eauto.
Qed.

(** The value [3.0f * s] for a positive finite [s] of exponent at least
    [-33]: positive and finite, or the product overflows. *)
Lemma mul_three_cases (ms : positive) (es : Z) :
  -33 ≤ es →
  F32.mul F32.three (S754_finite false ms es) = S754_infinity false ∨
  ∃ M E, F32.mul F32.three (S754_finite false ms es) = S754_finite false M E ∧
         Z.pos M < 2 ^ 24 ∧
         E ≤ es - 22 + Z.max 0 (Zdigits2 (12582912 * Z.pos ms) - 24) + 1.
Proof.
  intros Hes. unfold F32.mul, F32.three, SFmul. simpl xorb.
  rewrite Pos2Z.inj_mul.
  change (Z.pos 12582912) with 12582912.
  set (N := 12582912 * Z.pos ms).
  assert (HN : 2 ^ 23 ≤ N) by (unfold N; change (2 ^ 23) with 8388608; lia).
  assert (HdN : 24 ≤ Zdigits2 N) by (apply (Zdigits2_ge N 23); lia).
  destruct (binary_round_aux_spec F32.prec F32.emax ltac:(unfold F32.prec; lia) false
              N (-22 + es) loc_Exact N 1) as (m1 & _ & Hm1 & _ & _ & ->).
  - lia.
  - lia.
  - unfold loc_ok. lia.
  - unfold emin, F32.prec, F32.emax. lia.
  - left. unfold F32.prec. lia.
  - change F32.prec with 24 in *. change F32.emax with 128 in *.
    unfold pack_rounded, pack_finite.
    destruct (Z.ltb_spec m1 (2 ^ 24)) as [Hlt|Hge].
    + destruct (Z.leb_spec (-22 + es + Z.max 0 (Zdigits2 N - 24)) (128 - 24)); [|auto].
      right. eexists _, _. split; [reflexivity|].
      rewrite Z2Pos.id by lia. split; [exact Hlt|]. lia.
    + destruct (Z.leb_spec (-22 + es + Z.max 0 (Zdigits2 N - 24) + 1) (128 - 24)); [|auto].
      right. eexists _, _. split; [reflexivity|].
      assert (Hm1eq : m1 = 2 ^ 24) by lia.
      rewrite Hm1eq. split; [reflexivity|]. lia.
Qed.

Lemma ceil_finite_positive (M : positive) (E : Z) : 1 ≤ ceil_finite false M E.
Proof.
  unfold ceil_finite. destruct (Z.leb_spec 0 E) as [HE|HE].
  - pose proof (pow2_pos E HE). nia.
  - pose proof (pow2_pos (- E) ltac:(lia)) as Hp.
    assert (- Z.pos M / 2 ^ (- E) < 0); [|lia].
    apply Z.div_lt_upper_bound; lia.
Qed.

Lemma ceil_finite_upper (M : positive) (E : Z) :
  E ≤ 0 → ceil_finite false M E ≤ Z.pos M.
Proof.
  intros HE. unfold ceil_finite. destruct (Z.leb_spec 0 E) as [HE0|HE0].
  - replace E with 0 by lia. rewrite Z.pow_0_r. lia.
  - pose proof (pow2_pos (- E) ltac:(lia)) as Hp.
    assert (- Z.pos M ≤ - Z.pos M / 2 ^ (- E)); [|lia].
    apply Z.div_le_lower_bound; [lia|]. nia.
Qed.

(** Order of two positive finite values in canonical form, non-strict. *)
Lemma SFleb_finite_pos (m1 m2 : positive) (e1 e2 : Z) :
  SFleb (S754_finite false m1 e1) (S754_finite false m2 e2) = true ↔
  e1 < e2 ∨ (e1 = e2 ∧ Z.pos m1 ≤ Z.pos m2).
Proof.
  unfold SFleb, SFcompare.
  change (Pos.compare_cont Eq m1 m2) with (Pos.compare m1 m2).
  destruct (Z.compare_spec e1 e2) as [He|He|He].
  - destruct (Pos.compare_spec m1 m2) as [Hm|Hm|Hm]; split; intros Hx;
      try discriminate; try reflexivity; try lia.
  - split; [intros _; lia | reflexivity].
  - split; [discriminate | lia].
Qed.

Section Radius.
Context {L : LibM}.

(** The scale [s = max(0.001f, sigma)] of a positive [sigma]. *)
Lemma kernel_scale_cases (sigma : spec_float) :
  F32.ltb F32.zero sigma = true →
  F32.max F32.milli sigma = S754_infinity false ∨
  ∃ ms es, F32.max F32.milli sigma = S754_finite false ms es ∧ -33 ≤ es ∧
    (F32.valid sigma = true → SFleb sigma f32_2p20 = true →
     es ≤ -3 ∧ Z.pos ms < 2 ^ 24).
Proof.
  intros Hpos. unfold F32.max.
  destruct (SFltb_zero_cases sigma Hpos) as [->|(m & e & ->)].
  - left. reflexivity.
  - right. unfold F32.ltb, F32.milli.
    destruct (SFltb (S754_finite false 8589935 (-33)) (S754_finite false m e)) eqn:Hlt.
    + apply SFltb_finite_pos in Hlt.
      exists m, e. split; [reflexivity|]. split; [lia|].
      intros Hvalid Hle. apply SFleb_finite_pos in Hle.
      split; [lia|]. exact (valid_f32_mantissa false m e Hvalid).
    + exists 8589935%positive, (-33). split; [reflexivity|]. split; [lia|].
      intros _ _. split; [lia | reflexivity].
Qed.

Lemma makeGaussianKernel_radius_positive (sigma : spec_float) (k : Kernel1D) :
  F32.ltb F32.zero sigma = true → makeGaussianKernel sigma = Ok k → 1 ≤ kr k.
Proof.
  intros Hpos. unfold makeGaussianKernel. rewrite Hpos. simpl.
  destruct (kernel_scale_cases sigma Hpos) as [->|(ms & es & -> & Hes & _)].
  - discriminate.
  - destruct (mul_three_cases ms es Hes) as [->|(M & E & -> & _)]; [discriminate|].
    unfold ceil_to_int.
    pose proof (ceil_finite_positive M E) as Hc.
    destruct ((INT_MIN <=? ceil_finite false M E) && (ceil_finite false M E <=? INT_MAX));
      simpl; [|discriminate].
    destruct (vec_new _ _); simpl; try discriminate.
    destruct (for_range _ _ _ _); simpl; try discriminate.
    intros [= <-]. simpl. lia.
Qed.

Lemma makeGaussianKernel_defined (sigma : spec_float) :
  F32.valid sigma = true →
  F32.ltb F32.zero sigma = true → SFleb sigma f32_2p20 = true →
  ∃ k, makeGaussianKernel sigma = Ok k.
Proof.
  intros Hvalid Hpos Hle.
  unfold makeGaussianKernel. rewrite Hpos. simpl.
  destruct (kernel_scale_cases sigma Hpos) as [Hs|(ms & es & Hs & Hes & Hbound)].
  - (* sigma is not infinite *)
    exfalso.
    destruct (SFltb_zero_cases sigma Hpos) as [->|(m & e & ->)]; [discriminate Hle|].
    unfold F32.max in Hs. destruct (F32.ltb F32.milli (S754_finite false m e)); discriminate.
  - destruct (Hbound Hvalid Hle) as [Hes3 Hms]. rewrite Hs.
    pose proof (Zdigits2_le (12582912 * Z.pos ms) 48 ltac:(simpl; lia) ltac:(lia)) as Hd.
    destruct (mul_three_cases ms es Hes) as [Hinf|(M & E & HME & HM & HE)].
    + (* the product does not overflow *)
      exfalso. revert Hinf. unfold F32.mul, F32.three, SFmul. simpl xorb.
      rewrite Pos2Z.inj_mul. change (Z.pos 12582912) with 12582912.
      set (N := 12582912 * Z.pos ms) in *.
      assert (HN : 2 ^ 23 ≤ N) by (unfold N; change (2 ^ 23) with 8388608; lia).
      assert (HdN : 24 ≤ Zdigits2 N) by (apply (Zdigits2_ge N 23); lia).
      destruct (binary_round_aux_spec F32.prec F32.emax ltac:(unfold F32.prec; lia) false
                  N (-22 + es) loc_Exact N 1) as (m1 & _ & Hm1 & _ & _ & ->).
      * lia.
      * lia.
      * unfold loc_ok. lia.
      * unfold emin, F32.prec, F32.emax. lia.
      * left. unfold F32.prec. lia.
      * change F32.prec with 24 in *. change F32.emax with 128 in *.
        unfold pack_rounded, pack_finite.
        destruct (m1 <? 2 ^ 24).
        -- rewrite (proj2 (Z.leb_le _ _)) by lia. discriminate.
        -- rewrite (proj2 (Z.leb_le _ _)) by lia. discriminate.
    + rewrite HME. unfold ceil_to_int.
      pose proof (ceil_finite_positive M E) as Hc1.
      pose proof (ceil_finite_upper M E ltac:(lia)) as Hc2.
      change (2 ^ 24) with 16777216 in HM.
      rewrite (proj2 (Z.leb_le INT_MIN _)) by (unfold INT_MIN; lia).
      rewrite (proj2 (Z.leb_le _ INT_MAX)) by (unfold INT_MAX; lia).
      simpl.
      set (R := Z.max 0 (ceil_finite false M E)).
      assert (HR : 0 ≤ R < 2 ^ 30) by (unfold R; lia).
      rewrite (wrap_int_id (2 * R)) by (unfold INT_MIN, INT_MAX; lia).
      rewrite wrap_int_id by (unfold INT_MIN, INT_MAX; lia).
      rewrite wrap_size_id by lia.
      unfold vec_new. rewrite (proj2 (Z.leb_le _ PTRDIFF_MAX)) by (unfold PTRDIFF_MAX; lia).
      simpl.
      destruct (kernel_loop_length R
                  (F32.div F32.one (F32.mul (F32.mul F32.two (S754_finite false ms es))
                                            (S754_finite false ms es)))
                  (replicate (Z.to_nat (2 * R + 1)) F32.zero)) as (ws & Hws & _).
      * lia.
      * rewrite length_replicate. lia.
      * cbv zeta in Hws |- *. rewrite Hws. simpl. eexists. reflexivity.
Qed.
End Radius.

(** ** Resampling: the index each output position takes *)

(** C1, as the code has it.  Output position [i] of an axis resampled from
    [s] to [t >= 2] elements takes the source element at index
    [round (i * (s - 1) / (t - 1))], ties away from zero, clamped to the
    source, where [(t - 1) * (s - 1) < 2^52]: element by element for a
    sequence downsampled to [2 <= n < length]; and in an image the source
    row depends on the output row only and the source column on the output
    column only, each is that index where its own axis has a target of at
    least 2 under the bound, whatever the other axis is, and every channel
    of an output pixel comes from that one source pixel.  The index the
    code computes, [map_index_round], is [index_formula] for every position
    with [i * (s - 1) < 2^52]; [index_formula] is that rounding, and never
    needs the clamp. *)
Theorem downsample_index_formula (L : LibM) (T : Type) (E : Elem T)
    (colors : list (Color T)) (image : Image T) (n w h : Z) :
  (2 ≤ n < Z.of_nat (length colors) →
   Z.of_nat (length colors) ≤ INT_MAX →
   (n - 1) * (Z.of_nat (length colors) - 1) < 2 ^ 52 →
   ∃ out, downsample_colors colors n = Ok out ∧
     Z.of_nat (length out) = n ∧
     ∀ i, 0 ≤ i < n →
       out !! Z.to_nat i
       = colors !! Z.to_nat (index_formula i n (Z.of_nat (length colors)))) ∧
  (wf_image image →
   0 < width image → 0 < height image →
   channels image = 1 ∨ channels image = 3 →
   0 < w ≤ INT_MAX → 0 < h ≤ INT_MAX →
   (∃ out, downsample_image image w h = Ok out ∧
      width out = w ∧ height out = h ∧ channels out = channels image ∧
      ∀ y x c, 0 ≤ y < h → 0 ≤ x < w → 0 ≤ c < channels image →
        ∃ v, img_get image (source_index h (height image) y)
                           (source_index w (width image) x) c = Ok v ∧
             img_get out y x c = Ok v) ∧
   (2 ≤ h → (h - 1) * (height image - 1) < 2 ^ 52 →
    ∀ y, 0 ≤ y < h → source_index h (height image) y = index_formula y h (height image)) ∧
   (2 ≤ w → (w - 1) * (width image - 1) < 2 ^ 52 →
    ∀ x, 0 ≤ x < w → source_index w (width image) x = index_formula x w (width image))) ∧
  (∀ i t s, 2 ≤ t ≤ INT_MAX → 1 ≤ s ≤ INT_MAX → 0 ≤ i ≤ t - 1 →
     i * (s - 1) < 2 ^ 52 →
     map_index_round i t s = index_formula i t s) ∧
  (∀ i t s, 2 ≤ t → 1 ≤ s → 0 ≤ i ≤ t - 1 →
     index_formula i t s = round_div (i * (s - 1)) (t - 1) ∧
     2 * (t - 1) * index_formula i t s - (t - 1) ≤ 2 * (i * (s - 1))
       < 2 * (t - 1) * index_formula i t s + (t - 1)).
Proof.
  split; [|split; [|split]].
  - intros Hn Hmax Hsmall.
    destruct (downsample_colors_spec colors n Hn Hmax) as (out & Hout & Hlen & Hidx).
    exists out. split; [exact Hout|]. split; [exact Hlen|].
    intros i Hi. rewrite (Hidx i Hi).
    rewrite map_index_round_exact; [reflexivity | unfold INT_MAX in *; lia | lia | lia |].
    nia.
  - intros Hwf HW HH Hch Hw Hh.
    pose proof Hwf as (HWr & HHr & _).
    split; [|split].
    + destruct (downsample_image_spec image w h Hwf HW HH Hch Hw Hh)
        as (out & Hout & HoW & HoH & HoC & _ & Hpix).
      exists out. repeat (split; [assumption|]).
      intros y x c Hy Hx Hc.
      exists (pixel image (source_index h (height image) y)
                          (source_index w (width image) x) c).
      split; [|apply Hpix; assumption].
      apply img_get_wf; [exact Hwf | | | exact Hc].
      * apply source_index_range. lia.
      * apply source_index_range. lia.
    + intros Hh2 Hsmall y Hy. unfold source_index.
      destruct (Z.eqb_spec h 1); [lia|].
      apply map_index_round_exact; try lia. nia.
    + intros Hw2 Hsmall x Hx. unfold source_index.
      destruct (Z.eqb_spec w 1); [lia|].
      apply map_index_round_exact; try lia. nia.
  - intros i t s Ht Hs Hi Hsmall. apply map_index_round_exact; assumption.
  - intros i t s Ht Hs Hi.
    pose proof (round_div_nearest (i * (s - 1)) (t - 1) ltac:(nia) ltac:(lia)) as HK.
    assert (Hid : index_formula i t s = round_div (i * (s - 1)) (t - 1)).
    { unfold index_formula. apply clampi_id. nia. }
    rewrite Hid. split; [reflexivity | exact HK].
Qed.

Lemma downsample_index_formula_witness :
  let colors := [[0]; [10]; [20]; [30]; [40]; [50]; [60]; [70]; [80]; [90]] in
  let image := mkImage 5 5 1 (seqZ 0 25) in
  (∃ out, downsample_colors (L := example_libm) colors 4 = Ok out ∧
     Z.of_nat (length out) = 4 ∧
     ∀ i, 0 ≤ i < 4 →
       out !! Z.to_nat i
       = colors !! Z.to_nat (index_formula i 4 (Z.of_nat (length colors)))) ∧
  ((∃ out, downsample_image (L := example_libm) (E := example_u8) image 3 1 = Ok out ∧
      width out = 3 ∧ height out = 1 ∧ channels out = channels image ∧
      ∀ y x c, 0 ≤ y < 1 → 0 ≤ x < 3 → 0 ≤ c < channels image →
        ∃ v, img_get image (source_index (L := example_libm) 1 (height image) y)
                           (source_index (L := example_libm) 3 (width image) x) c = Ok v ∧
             img_get out y x c = Ok v) ∧
   (∀ x, 0 ≤ x < 3 →
      source_index (L := example_libm) 3 (width image) x
      = index_formula x 3 (width image))) ∧
  map_index_round (L := example_libm) 1 3 5 = index_formula 1 3 5 ∧
  (index_formula 1 3 5 = round_div (1 * (5 - 1)) (3 - 1) ∧
   2 * (3 - 1) * index_formula 1 3 5 - (3 - 1) ≤ 2 * (1 * (5 - 1))
     < 2 * (3 - 1) * index_formula 1 3 5 + (3 - 1)).
Proof.
  pose proof (downsample_index_formula example_libm Z example_u8
           [[0]; [10]; [20]; [30]; [40]; [50]; [60]; [70]; [80]; [90]]
           (mkImage 5 5 1 (seqZ 0 25)) 4 3 1) as (Hseq & Himg & Hidx & Hround).
  cbv zeta. split; [|split; [|split]].
  - apply Hseq.
    + simpl. lia.
    + vm_compute. discriminate.
    + vm_compute. reflexivity.
  - destruct Himg as (Hout & _ & Hcol).
    + unfold wf_image, INT_MAX, PTRDIFF_MAX. simpl. lia.
    + simpl. lia.
    + simpl. lia.
    + left. reflexivity.
    + unfold INT_MAX. lia.
    + unfold INT_MAX. lia.
    + split; [exact Hout|]. apply Hcol; [lia | vm_compute; reflexivity].
  - apply Hidx; unfold INT_MAX; lia.
  - apply Hround; lia.
Defined.

(** C1 as stated fails for large sizes: of a sequence of 67574561 distinct
    elements downsampled to 67316672, output position 67021577 is the
    source element 67278336, and the formula says 67278335. *)
Lemma downsample_index_formula_large :
  let m := 67574561 in
  let n := 67316672 in
  let i := 67021577 in
  let colors := (λ j : Z, [j]) <$> seqZ 0 m in
  2 ≤ n < Z.of_nat (length colors) ∧ 0 ≤ i < n ∧
  index_formula i n (Z.of_nat (length colors)) = 67278335 ∧
  ∃ out, downsample_colors (L := example_libm) colors n = Ok out ∧
    out !! Z.to_nat i = Some [67278336] ∧
    colors !! Z.to_nat (index_formula i n (Z.of_nat (length colors))) = Some [67278335].
Proof.
  cbv zeta.
  assert (Hlen : Z.of_nat (length ((λ j : Z, [j]) <$> seqZ 0 67574561)) = 67574561).
  { rewrite length_fmap, length_seqZ. apply Z2Nat.id. lia. }
  assert (Hat : ∀ j, 0 ≤ j < 67574561 →
            ((λ j : Z, [j]) <$> seqZ 0 67574561) !! Z.to_nat j = Some [j]).
  { intros j Hj. rewrite list_lookup_fmap, lookup_seqZ_lt by lia.
    simpl. rewrite Z2Nat.id by lia. reflexivity. }
  destruct map_index_round_inexact as [Hcode Hformula].
  rewrite Hlen, Hformula.
  split; [lia|]. split; [lia|]. split; [reflexivity|].
  destruct (downsample_colors_spec (L := example_libm)
              ((λ j : Z, [j]) <$> seqZ 0 67574561) 67316672)
    as (out & Hout & _ & Hidx).
  - unfold Color. rewrite Hlen. lia.
  - unfold Color. rewrite Hlen. unfold INT_MAX. lia.
  - exists out. split; [exact Hout|]. split.
    + pose proof (Hidx 67021577 ltac:(lia)) as Hi. unfold Color in *.
      rewrite Hi, Hlen, Hcode. apply Hat. lia.
    + apply Hat. lia.
Qed.

(** ** Endpoints *)

(** C3: a resample of a source of size at least 2 to a target of size at
    least 2 keeps the ends.  Output index 0 maps to source index 0 and the
    last output index to the last source index; the first and last elements
    of a resampled sequence are the first and last source elements; in an
    image the first and last output rows and columns are read from the
    first and last source rows and columns. *)
Theorem downsample_preserves_endpoints (L : LibM) (T : Type) (E : Elem T)
    (colors : list (Color T)) (image : Image T) (n w h : Z) :
  2 ≤ Z.of_nat (length colors) ≤ INT_MAX →
  2 ≤ n ≤ INT_MAX →
  wf_image image →
  2 ≤ width image → 2 ≤ height image →
  channels image = 1 ∨ channels image = 3 →
  2 ≤ w ≤ INT_MAX → 2 ≤ h ≤ INT_MAX →
  (map_index_round 0 n (Z.of_nat (length colors)) = 0 ∧
   map_index_round (n - 1) n (Z.of_nat (length colors))
   = Z.of_nat (length colors) - 1) ∧
  (∃ out, downsample_colors colors n = Ok out ∧
     (n < Z.of_nat (length colors) → Z.of_nat (length out) = n) ∧
     head out = head colors ∧ last out = last colors) ∧
  (∃ out, downsample_image image w h = Ok out ∧
     width out = w ∧ height out = h ∧ channels out = channels image ∧
     ∀ y x c, 0 ≤ y < h → 0 ≤ x < w → 0 ≤ c < channels image →
       ∃ sy sx v,
         img_get image sy sx c = Ok v ∧ img_get out y x c = Ok v ∧
         (y = 0 → sy = 0) ∧ (y = h - 1 → sy = height image - 1) ∧
         (x = 0 → sx = 0) ∧ (x = w - 1 → sx = width image - 1)).
Proof.
  intros Hlen Hn Hwf HsW HsH Hch Hw Hh.
  pose proof (map_index_round_endpoints n (Z.of_nat (length colors)) Hn ltac:(lia))
    as [Hfirst Hlast].
  split; [split; assumption|]. split.
  - destruct (Z.le_gt_cases (Z.of_nat (length colors)) n) as [Hpass|Hres].
    + exists colors. split; [|split; [lia|split; reflexivity]].
      apply (downsample_colors_shortcuts L T colors n). exact Hpass.
    + destruct (downsample_colors_spec colors n ltac:(lia) ltac:(lia))
        as (out & Hout & Hsize & Hidx).
      exists out. split; [exact Hout|]. split; [intros _; exact Hsize|]. split.
      * rewrite !head_lookup.
        pose proof (Hidx 0 ltac:(lia)) as H0. rewrite Hfirst in H0. exact H0.
      * rewrite !last_lookup.
        pose proof (Hidx (n - 1) ltac:(lia)) as H1. rewrite Hlast in H1.
        replace (pred (length out)) with (Z.to_nat (n - 1)) by lia.
        replace (pred (length colors))
          with (Z.to_nat (Z.of_nat (length colors) - 1)) by lia.
        exact H1.
  - destruct (downsample_image_spec image w h Hwf ltac:(lia) ltac:(lia) Hch
                ltac:(lia) ltac:(lia))
      as (out & Hout & HW & HH & HC & _ & Hpix).
    exists out. repeat (split; [assumption|]).
    intros y x c Hy Hx Hc.
    pose proof Hwf as (HWr & HHr & _).
    pose proof (source_index_range h (height image) y ltac:(lia)) as Hsy.
    pose proof (source_index_range w (width image) x ltac:(lia)) as Hsx.
    pose proof (map_index_round_endpoints h (height image) Hh ltac:(lia)) as [Hy0 Hy1].
    pose proof (map_index_round_endpoints w (width image) Hw ltac:(lia)) as [Hx0 Hx1].
    exists (source_index h (height image) y), (source_index w (width image) x),
           (pixel image (source_index h (height image) y)
                        (source_index w (width image) x) c).
    split; [|split; [|repeat split]].
    + apply img_get_wf; assumption.
    + apply Hpix; assumption.
    + intros ->. unfold source_index. destruct (Z.eqb_spec h 1); [lia | exact Hy0].
    + intros ->. unfold source_index. destruct (Z.eqb_spec h 1); [lia | exact Hy1].
    + intros ->. unfold source_index. destruct (Z.eqb_spec w 1); [lia | exact Hx0].
    + intros ->. unfold source_index. destruct (Z.eqb_spec w 1); [lia | exact Hx1].
Qed.

Lemma downsample_preserves_endpoints_witness :
  let colors := [[0]; [10]; [20]; [30]; [40]; [50]; [60]; [70]; [80]; [90]] in
  let image := mkImage 4 3 1 (seqZ 0 12) in
  (map_index_round (L := example_libm) 0 4 (Z.of_nat (length colors)) = 0 ∧
   map_index_round (L := example_libm) (4 - 1) 4 (Z.of_nat (length colors))
   = Z.of_nat (length colors) - 1) ∧
  (∃ out, downsample_colors (L := example_libm) colors 4 = Ok out ∧
     (4 < Z.of_nat (length colors) → Z.of_nat (length out) = 4) ∧
     head out = head colors ∧ last out = last colors) ∧
  (∃ out, downsample_image (L := example_libm) (E := example_u8) image 2 2 = Ok out ∧
     width out = 2 ∧ height out = 2 ∧ channels out = channels image ∧
     ∀ y x c, 0 ≤ y < 2 → 0 ≤ x < 2 → 0 ≤ c < channels image →
       ∃ sy sx v,
         img_get image sy sx c = Ok v ∧ img_get out y x c = Ok v ∧
         (y = 0 → sy = 0) ∧ (y = 2 - 1 → sy = height image - 1) ∧
         (x = 0 → sx = 0) ∧ (x = 2 - 1 → sx = width image - 1)).
Proof.
  apply (downsample_preserves_endpoints example_libm Z example_u8
           [[0]; [10]; [20]; [30]; [40]; [50]; [60]; [70]; [80]; [90]]
           (mkImage 4 3 1 (seqZ 0 12)) 4 2 2).
  - simpl. unfold INT_MAX. lia.
  - unfold INT_MAX. lia.
  - unfold wf_image, INT_MAX, PTRDIFF_MAX. simpl. lia.
  - simpl. lia.
  - simpl. lia.
  - left. reflexivity.
  - unfold INT_MAX. lia.
  - unfold INT_MAX. lia.
Defined.

(** ** Kernel radius *)

(** C9, as the code has it.  For a strength greater than zero:
    every kernel that [makeGaussianKernel] returns has radius at least 1,
    so the test [k.r == 0] of both blur overloads is false for it; a kernel
    is returned, with the converted ceiling of [3.0f * max(0.001f, sigma)]
    as its radius, whenever that conversion to [int] is defined and gives
    less than [2^30], which is so for every finite strength up to [2^20];
    and otherwise the call leaves defined behaviour in the conversion or
    asks for a vector that is too long, and returns no kernel. *)
Theorem kernel_radius_at_least_one (L : LibM) (sigma : spec_float) :
  F32.ltb F32.zero sigma = true →
  (∀ k, makeGaussianKernel sigma = Ok k → 1 ≤ kr k ∧ (kr k =? 0) = false) ∧
  (∀ c, ceil_to_int (F32.mul F32.three (F32.max F32.milli sigma)) = Ok c → c < 2 ^ 30 →
     ∃ k, makeGaussianKernel sigma = Ok k ∧ kr k = c ∧ 1 ≤ kr k ∧ (kr k =? 0) = false) ∧
  (F32.valid sigma = true → SFleb sigma f32_2p20 = true →
   ∃ k, makeGaussianKernel sigma = Ok k ∧ 1 ≤ kr k ∧ (kr k =? 0) = false) ∧
  ((∃ k, makeGaussianKernel sigma = Ok k ∧ 1 ≤ kr k) ∨
   makeGaussianKernel sigma = Fault UndefinedConversion ∨
   makeGaussianKernel sigma = Fault LengthError).
Proof.
  intros Hpos.
  assert (Hall : ∀ k, makeGaussianKernel sigma = Ok k → 1 ≤ kr k ∧ (kr k =? 0) = false).
  { intros k Hk.
    pose proof (makeGaussianKernel_radius_positive sigma k Hpos Hk) as Hr.
    split; [exact Hr | apply Z.eqb_neq; lia]. }
  split; [exact Hall|]. split; [|split].
  - intros c Hc Hsmall.
    pose proof (makeGaussianKernel_result sigma c Hpos Hc ltac:(lia)) as Hk.
    destruct (Hall _ Hk) as [Hr Hz]. simpl in Hr, Hz.
    eexists. split; [exact Hk|]. simpl. split; [lia|]. split; [exact Hr | exact Hz].
  - intros Hvalid Hle.
    destruct (makeGaussianKernel_defined sigma Hvalid Hpos Hle) as [k Hk].
    exists k. split; [exact Hk | exact (Hall k Hk)].
  - destruct (makeGaussianKernel_cases sigma) as [[k Hk]|Hf]; [left | right; exact Hf].
    exists k. split; [exact Hk | apply (Hall k Hk)].
Qed.

Lemma kernel_radius_at_least_one_witness :
  (∀ k, makeGaussianKernel (L := example_libm) example_half = Ok k →
        1 ≤ kr k ∧ (kr k =? 0) = false) ∧
  (∃ k, makeGaussianKernel (L := example_libm) example_half = Ok k ∧ kr k = 2 ∧
        1 ≤ kr k ∧ (kr k =? 0) = false) ∧
  (∃ k, makeGaussianKernel (L := example_libm) example_half = Ok k ∧
        1 ≤ kr k ∧ (kr k =? 0) = false).
Proof.
  split; [|split].
  - apply (proj1 (kernel_radius_at_least_one example_libm example_half
                    ltac:(vm_compute; reflexivity))).
  - apply (proj1 (proj2 (kernel_radius_at_least_one example_libm example_half
                           ltac:(vm_compute; reflexivity))) 2);
      vm_compute; reflexivity.
  - apply (proj1 (proj2 (proj2 (kernel_radius_at_least_one example_libm example_half
                                  ltac:(vm_compute; reflexivity)))));
      vm_compute; reflexivity.
Defined.

(** C9 as stated fails for the largest strengths: for [2^33] and for
    [+infinity], both greater than zero, [ceil (3 * s)] does not fit [int],
    its conversion is undefined, and no kernel of radius at least 1 is
    returned; neither blur overload returns a result. *)
Lemma kernel_radius_undefined :
  let huge := S754_finite false 8388608 10 in
  F32.valid huge = true ∧ F32.ltb F32.zero huge = true ∧
  F32.ltb F32.zero (S754_infinity false) = true ∧
  makeGaussianKernel (L := example_libm) huge = Fault UndefinedConversion ∧
  makeGaussianKernel (L := example_libm) (S754_infinity false) = Fault UndefinedConversion ∧
  ¬ (∃ k, makeGaussianKernel (L := example_libm) huge = Ok k ∧ 1 ≤ kr k) ∧
  ¬ (∃ k, makeGaussianKernel (L := example_libm) (S754_infinity false) = Ok k ∧ 1 ≤ kr k) ∧
  blur_colors (L := example_libm) (E := example_u8) [[7]] huge
  = Fault UndefinedConversion ∧
  blur_image (L := example_libm) (E := example_u8) (mkImage 1 1 1 [7]) huge
  = Fault UndefinedConversion.
Proof.
  cbv zeta.
  assert (H1 : makeGaussianKernel (L := example_libm) (S754_finite false 8388608 10)
               = Fault UndefinedConversion) by (vm_compute; reflexivity).
  assert (H2 : makeGaussianKernel (L := example_libm) (S754_infinity false)
               = Fault UndefinedConversion) by (vm_compute; reflexivity).
  repeat split; try (vm_compute; reflexivity).
  - intros (k & Hk & _). rewrite H1 in Hk. discriminate.
  - intros (k & Hk & _). rewrite H2 in Hk. discriminate.
Qed.

(** ** The weights of the kernel *)

(** *** Rounding, underflow included *)

Lemma shr_zero_ok (mrs : shr_record) (e n : Z) :
  0 ≤ shr_m mrs → 0 ≤ shr_m (shr mrs e n).1.
Proof.
  intros Hm. unfold shr. destruct n as [|p|p]; simpl; try exact Hm.
  destruct (shr_iter_ok mrs (4 * shr_m mrs +
              match loc_of_shr_record mrs with
              | loc_Exact => 0 | loc_Inexact Lt => 1 | loc_Inexact Eq => 2
              | loc_Inexact Gt => 3 end) 4 p) as [[Hnn _] _]; [lia| |exact Hnn].
  split; [exact Hm|]. unfold loc_ok.
  destruct (loc_of_shr_record mrs) as [|[| |]]; lia.
Qed.

Section RoundGeneral.
Variables prec emax : Z.
Hypothesis Hprec : 0 < prec.

(** Rounding a mantissa that is zero. *)
Lemma round_second_stage_zero (sx : bool) (e : Z) :
  (let '(mrs, e') := shr_fexp prec emax 0 e loc_Exact in
   match shr_m mrs with
   | Z0 => S754_zero sx
   | Zpos m => if e' <=? emax - prec then S754_finite sx m e' else S754_infinity sx
   | Zneg _ => S754_nan
   end) = S754_zero sx.
Proof.
  unfold shr_fexp, shr. simpl Zdigits2.
  destruct (fexp prec emax (0 + e) - e) as [|p|p]; simpl; try reflexivity.
  destruct (shr_iter_ok (Build_shr_record 0 false false) 0 1 p) as [_ Hdiv]; [lia| |].
  { split; [simpl; lia|]. unfold loc_ok. simpl. lia. }
  simpl shr_m in Hdiv. rewrite Hdiv. rewrite Z.div_0_l; [reflexivity|].
  assert (0 < 2 ^ Z.pos p) by (apply Z.pow_pos_nonneg; lia). lia.
Qed.

(** Rounding to nearest, ties to even, of the value [N / D] in units
    [2^ex], where the mantissa is aligned at or below the exponent of the
    result (underflow included). *)
Lemma binary_round_aux_general (sx : bool) (mx ex : Z) (lx : location) (N D : Z) :
  0 ≤ mx → 0 < D → loc_ok mx lx N D →
  ex ≤ fexp prec emax (Zdigits2 mx + ex) →
  let e1 := fexp prec emax (Zdigits2 mx + ex) in
  let k := e1 - ex in
  ∃ m1, 0 ≤ m1 ≤ 2 ^ prec ∧
        2 * Z.abs (m1 * (D * 2 ^ k) - N) ≤ D * 2 ^ k ∧
        (lx = loc_Exact → k = 0 → m1 = mx) ∧
        (e1 = emin prec emax ∨ 2 ^ (prec - 1) * (D * 2 ^ k) ≤ N) ∧
        binary_round_aux prec emax sx mx ex lx
        = if m1 =? 0 then S754_zero sx else pack_rounded prec emax sx m1 e1.
Proof.
  intros Hmx HD Hloc Halign e1 k.
  unfold binary_round_aux.
  unfold shr_fexp at 1. fold e1. fold k.
  assert (Ee1 : e1 = Z.max (Zdigits2 mx + ex - prec) (emin prec emax)) by reflexivity.
  assert (Ek : k = e1 - ex) by reflexivity.
  fold e1 in Halign.
  clearbody k. clearbody e1.
  assert (Hk : 0 ≤ k) by lia.
  assert (He1 : emin prec emax ≤ e1) by lia.
  assert (Hdig : 0 ≤ Zdigits2 mx).
  { destruct mx; simpl; lia. }
  assert (Hmlt : mx < 2 ^ Zdigits2 mx).
  { destruct (Z.eq_dec mx 0) as [->|Hne]; [simpl; lia|].
    apply Zdigits2_bounds. lia. }
  assert (Hmge : mx ≠ 0 → 2 ^ (Zdigits2 mx - 1) ≤ mx).
  { intros Hne. apply Zdigits2_bounds. lia. }
  pose proof Hloc as [HlocR _].
  destruct (loc_of_shr_record_of_loc mx lx) as [Hl Hm].
  assert (Hfinish : ∀ m1,
            0 ≤ m1 ≤ 2 ^ prec →
            (let '(mrs, e') := shr_fexp prec emax m1 e1 loc_Exact in
             match shr_m mrs with
             | Z0 => S754_zero sx
             | Zpos m => if e' <=? emax - prec then S754_finite sx m e' else S754_infinity sx
             | Zneg _ => S754_nan
             end) = if m1 =? 0 then S754_zero sx else pack_rounded prec emax sx m1 e1).
  { intros m1 Hm1. destruct (Z.eqb_spec m1 0) as [->|Hne].
    - apply round_second_stage_zero.
    - apply round_second_stage; [exact Hprec | lia | exact He1]. }
  assert (Hcase : e1 = emin prec emax ∨ (e1 = Zdigits2 mx + ex - prec ∧ mx ≠ 0)).
  { destruct (Z.eq_dec mx 0) as [->|Hne].
    - simpl Zdigits2 in *. left. lia.
    - destruct (Z.max_spec (Zdigits2 mx + ex - prec) (emin prec emax)) as [[? E]|[? E]];
        [left; lia | right; split; [lia | exact Hne]]. }
  destruct (Z.eq_dec k 0) as [Hk0|Hk0].
  - (* no shift *)
    assert (Hshr : shr (shr_record_of_loc mx lx) ex k = (shr_record_of_loc mx lx, ex)).
    { rewrite Hk0. reflexivity. }
    rewrite Hshr, Hl, Hm.
    destruct (round_nearest_even_ok mx lx N D Hloc) as (Hr1 & Hr2 & Hr3).
    assert (Hd : Zdigits2 mx ≤ prec) by lia.
    assert (Hpw : 2 ^ Zdigits2 mx ≤ 2 ^ prec) by (apply Z.pow_le_mono_r; lia).
    exists (round_nearest_even mx lx).
    rewrite Hk0, Z.pow_0_r, Z.mul_1_r.
    split; [lia|]. split; [exact Hr2|]. split; [intros Hex _; apply Hr3; exact Hex|].
    split.
    + destruct Hcase as [?|[He Hne]]; [left; assumption|right].
      assert (Zdigits2 mx = prec) by lia.
      pose proof (Hmge Hne) as Hge. replace (Zdigits2 mx - 1) with (prec - 1) in Hge by lia.
      nia.
    + replace ex with e1 by lia. apply Hfinish. lia.
  - (* a shift right by [k] bits *)
    destruct k as [|p|p] eqn:Ekp; try lia.
    unfold shr.
    destruct (shr_iter_ok (shr_record_of_loc mx lx) N D p HD) as [[Hnn Hok] Hdiv].
    { split; [rewrite Hm; lia | rewrite Hl, Hm; exact Hloc]. }
    rewrite Hm in Hdiv.
    set (mrs := SpecFloat.iter_pos shr_1 p (shr_record_of_loc mx lx)) in *.
    destruct (round_nearest_even_ok (shr_m mrs) (loc_of_shr_record mrs) N (D * 2 ^ Z.pos p) Hok)
      as (Hr1 & Hr2 & Hr3).
    assert (Hpow : 0 < 2 ^ Z.pos p) by (apply Z.pow_pos_nonneg; lia).
    assert (Hq : mx / 2 ^ Z.pos p < 2 ^ prec).
    { apply Z.div_lt_upper_bound; [lia|].
      rewrite <- Z.pow_add_r by lia.
      apply Z.lt_le_trans with (2 ^ Zdigits2 mx); [exact Hmlt|].
      apply Z.pow_le_mono_r; [lia|]. lia. }
    exists (round_nearest_even (shr_m mrs) (loc_of_shr_record mrs)).
    split; [lia|]. split; [exact Hr2|]. split; [intros _ Hc; lia|].
    split.
    + destruct Hcase as [?|[He Hne]]; [left; assumption|right].
      assert (Hd : Zdigits2 mx - 1 = prec - 1 + Z.pos p) by lia.
      pose proof (Hmge Hne) as Hge. rewrite Hd, Z.pow_add_r in Hge by lia.
      nia.
    + replace (ex + Z.pos p) with e1 by lia. apply Hfinish. lia.
Qed.

(** The sign of a rounded value is the sign asked for. *)
Lemma binary_round_aux_sign (sx : bool) (mx ex : Z) (lx : location) :
  0 ≤ mx →
  binary_round_aux prec emax sx mx ex lx = S754_zero sx ∨
  binary_round_aux prec emax sx mx ex lx = S754_infinity sx ∨
  ∃ m e, binary_round_aux prec emax sx mx ex lx = S754_finite sx m e.
Proof.
  intros Hmx. unfold binary_round_aux.
  destruct (shr_fexp prec emax mx ex lx) as [mrs' e'] eqn:E1.
  destruct (shr_fexp prec emax (round_nearest_even (shr_m mrs') (loc_of_shr_record mrs')) e'
              loc_Exact) as [mrs'' e''] eqn:E2.
  assert (H1 : 0 ≤ shr_m mrs').
  { unfold shr_fexp in E1.
    pose proof (shr_zero_ok (shr_record_of_loc mx lx) ex
                  (fexp prec emax (Zdigits2 mx + ex) - ex)) as H.
    rewrite E1 in H. apply H.
    destruct (loc_of_shr_record_of_loc mx lx) as [_ ->]. exact Hmx. }
  assert (H2 : 0 ≤ shr_m mrs'').
  { unfold shr_fexp in E2.
    set (m1 := round_nearest_even (shr_m mrs') (loc_of_shr_record mrs')) in *.
    pose proof (shr_zero_ok (shr_record_of_loc m1 loc_Exact) e'
                  (fexp prec emax (Zdigits2 m1 + e') - e')) as H.
    rewrite E2 in H. apply H. simpl.
    unfold m1, round_nearest_even.
    destruct (loc_of_shr_record mrs') as [|[| |]]; try lia.
    destruct (Z.even (shr_m mrs')); lia. }
  destruct (shr_m mrs'') as [|m|m]; [left; reflexivity | | lia].
  right. destruct (e'' <=? emax - prec); [right; eauto | left; reflexivity].
Qed.

(** Aligning a mantissa to the exponent of its rounded form. *)
Lemma shl_align_fexp_ok (mx : positive) (ex : Z) :
  let f := fexp prec emax (Z.pos (digits2_pos mx) + ex) in
  ∃ mz ez, shl_align mx ex f = (mz, ez) ∧
    ez = Z.min ex f ∧ Z.pos mz = Z.pos mx * 2 ^ (ex - ez) ∧
    Zdigits2 (Z.pos mz) + ez = Z.pos (digits2_pos mx) + ex.
Proof.
  intros f. unfold shl_align.
  destruct (f - ex) as [|p|p] eqn:Ed.
  - exists mx, ex. split; [reflexivity|]. split; [lia|].
    rewrite Z.sub_diag, Z.pow_0_r. split; [lia | reflexivity].
  - exists mx, ex. split; [reflexivity|]. split; [lia|].
    rewrite Z.sub_diag, Z.pow_0_r. split; [lia | reflexivity].
  - exists (Pos.iter xO mx p), f. split; [reflexivity|]. split; [lia|].
    rewrite iter_xO_pow. replace (ex - f) with (Z.pos p) by lia.
    split; [reflexivity|].
    rewrite <- iter_xO_pow.
    change (Z.pos (digits2_pos (Pos.iter xO mx p))) with (Zdigits2 (Z.pos (Pos.iter xO mx p))).
    rewrite iter_xO_pow, Zdigits2_scaled by lia. simpl Zdigits2. lia.
Qed.
End RoundGeneral.

(** *** binary32 addition, division and multiplication *)

Lemma pack_rounded_scaled (m1 e1 : Z) :
  0 < m1 ≤ 2 ^ 24 → -149 ≤ e1 ≤ 103 →
  ∃ m e, pack_rounded 24 128 false m1 e1 = S754_finite false m e ∧
         -149 ≤ e ∧ Z.pos m * 2 ^ (e + 149) = m1 * 2 ^ (e1 + 149).
Proof.
  intros Hm He. unfold pack_rounded, pack_finite.
  change (2 ^ 24) with 16777216 in *.
  destruct (Z.ltb_spec m1 16777216) as [Hlt|Hge].
  - rewrite (proj2 (Z.leb_le e1 (128 - 24))) by lia.
    exists (Z.to_pos m1), e1. split; [reflexivity|]. split; [lia|].
    rewrite Z2Pos.id by lia. reflexivity.
  - assert (m1 = 16777216) as -> by lia.
    rewrite (proj2 (Z.leb_le (e1 + 1) (128 - 24))) by lia.
    exists (Z.to_pos (16777216 / 2)), (e1 + 1). split; [reflexivity|]. split; [lia|].
    change (Z.pos (Z.to_pos (16777216 / 2))) with 8388608.
    replace (e1 + 1 + 149) with (Z.succ (e1 + 149)) by lia.
    rewrite Z.pow_succ_r by lia. lia.
Qed.

Lemma shl_align_value (mx : positive) (ex ez : Z) :
  ez ≤ ex → Z.pos (shl_align mx ex ez).1 = Z.pos mx * 2 ^ (ex - ez).
Proof.
  intros Hle. unfold shl_align.
  destruct (ez - ex) as [|p|p] eqn:Ed; simpl.
  - replace (ex - ez) with 0 by lia. lia.
  - lia.
  - rewrite iter_xO_pow. f_equal. f_equal. lia.
Qed.

Lemma pow2_mul (a b : Z) : 0 ≤ a → 0 ≤ b → 2 ^ a * 2 ^ b = 2 ^ (a + b).
Proof. intros Ha Hb. rewrite Z.pow_add_r by lia. reflexivity. Qed.

(** Rounding a positive integer mantissa at a binary32 exponent. *)
Lemma f32_round_spec (M : positive) (ez : Z) :
  -149 ≤ ez → Z.pos M * 2 ^ (ez + 149) ≤ 2 ^ 200 →
  ∃ m e, binary_round 24 128 false M ez = S754_finite false m e ∧ -149 ≤ e ∧
    2 ^ 24 * Z.abs (Z.pos m * 2 ^ (e + 149) - Z.pos M * 2 ^ (ez + 149))
      ≤ Z.pos M * 2 ^ (ez + 149).
Proof.
  intros Hez Hbound. unfold binary_round.
  destruct (shl_align_fexp_ok 24 128 M ez) as (mz & ez' & -> & Hez' & Hmz & Hdig).
  set (f := fexp 24 128 (Z.pos (digits2_pos M) + ez)) in *.
  assert (Hf : f = Z.max (Z.pos (digits2_pos M) + ez - 24) (-149)) by reflexivity.
  clearbody f.
  destruct (binary_round_aux_general 24 128 ltac:(lia) false (Z.pos mz) ez' loc_Exact
              (Z.pos mz) 1) as (m1 & Hm1 & Herr & Hexact & Hnorm & ->).
  - lia.
  - lia.
  - unfold loc_ok. lia.
  - rewrite Hdig. unfold fexp, emin. lia.
  - rewrite Hdig in *.
    change (fexp 24 128 (Z.pos (digits2_pos M) + ez)) with
      (Z.max (Z.pos (digits2_pos M) + ez - 24) (-149)) in *.
    rewrite <- Hf in *.
    change (emin 24 128) with (-149) in Hnorm.
    change (2 ^ (24 - 1)) with 8388608 in Hnorm.
    set (k := f - ez') in *.
    assert (Hk : 0 ≤ k) by (unfold k; lia).
    pose proof (pow2_pos k Hk) as Hpk.
    rewrite !Z.mul_1_l in Herr, Hnorm.
    (* the value rounded, in units 2^-149 *)
    assert (Hval : Z.pos M * 2 ^ (ez + 149) = Z.pos mz * 2 ^ (ez' + 149)).
    { rewrite Hmz. rewrite <- Z.mul_assoc. f_equal.
      rewrite pow2_mul by lia. f_equal. lia. }
    assert (Hunit : 2 ^ (f + 149) = 2 ^ k * 2 ^ (ez' + 149)).
    { rewrite pow2_mul by lia. f_equal. unfold k. lia. }
    pose proof (pow2_pos (ez' + 149) ltac:(lia)) as Hpe.
    assert (Hm1pos : 0 < m1).
    { destruct (Z.eq_dec k 0) as [Hk0|Hk0].
      - rewrite (Hexact eq_refl Hk0). lia.
      - destruct Hnorm as [Hmin|Hn]; [unfold k in Hk0; lia|].
        destruct (Z.eq_dec m1 0) as [->|]; [|lia].
        rewrite Z.mul_0_l, Z.sub_0_l, Z.abs_opp, Z.abs_eq in Herr by lia. lia. }
    assert (Hfle : f ≤ 103).
    { destruct (Z.le_gt_cases f 103) as [|Hgt]; [assumption|exfalso].
      assert (Hd : 128 ≤ Z.pos (digits2_pos M) + ez) by lia.
      pose proof (digits2_pos_bounds M) as [Hlow _].
      assert (Hp : 2 ^ 200 < 2 ^ (Z.pos (digits2_pos M) - 1) * 2 ^ (ez + 149)).
      { rewrite pow2_mul by lia. apply Z.pow_lt_mono_r; lia. }
      assert (2 ^ (Z.pos (digits2_pos M) - 1) * 2 ^ (ez + 149)
              ≤ Z.pos M * 2 ^ (ez + 149)).
      { apply Z.mul_le_mono_nonneg_r; [|exact Hlow].
        pose proof (pow2_pos (ez + 149) ltac:(lia)). lia. }
      lia. }
    rewrite (proj2 (Z.eqb_neq m1 0)) by lia.
    destruct (pack_rounded_scaled m1 f ltac:(change (2 ^ 24) with 16777216 in *; lia)
                ltac:(lia)) as (m & e & -> & He & Hs).
    exists m, e. split; [reflexivity|]. split; [exact He|].
    rewrite Hs, Hval, Hunit.
    replace (m1 * (2 ^ k * 2 ^ (ez' + 149)) - Z.pos mz * 2 ^ (ez' + 149))
      with ((m1 * 2 ^ k - Z.pos mz) * 2 ^ (ez' + 149)) by ring.
    rewrite Z.abs_mul, (Z.abs_eq (2 ^ (ez' + 149))) by lia.
    change (2 ^ 24) with 16777216.
    destruct (Z.eq_dec k 0) as [Hk0|Hk0].
    + rewrite (Hexact eq_refl Hk0), Hk0. simpl (2 ^ 0).
      replace (Z.pos mz * 1 - Z.pos mz) with 0 by ring. simpl. nia.
    + destruct Hnorm as [Hmin|Hn]; [unfold k in Hk0; lia|].
      assert (16777216 * Z.abs (m1 * 2 ^ k - Z.pos mz) ≤ Z.pos mz) by lia.
      nia.
Qed.

(** Addition of non-negative binary32 floats: the sum, rounded with a
    relative error of at most [2^-24]. *)
Lemma f32_add_spec (x y : spec_float) :
  f32_nonneg x = true → f32_nonneg y = true →
  scaled x + scaled y ≤ 2 ^ 200 →
  f32_nonneg (F32.add x y) = true ∧
  2 ^ 24 * Z.abs (scaled (F32.add x y) - (scaled x + scaled y)) ≤ scaled x + scaled y.
Proof.
  intros Hx Hy Hbound.
  destruct x as [[|]| | |[|] mx ex]; try discriminate Hx;
    destruct y as [[|]| | |[|] my ey]; try discriminate Hy.
  - simpl. split; [reflexivity | lia].
  - change (F32.add (S754_zero false) (S754_finite false my ey)) with (S754_finite false my ey).
    split; [exact Hy|].
    replace (scaled (S754_finite false my ey) - (scaled (S754_zero false) + scaled (S754_finite false my ey))) with 0
      by (simpl; lia).
    simpl. pose proof (pow2_pos (ey + 149)). apply Z.leb_le in Hy. nia.
  - change (F32.add (S754_finite false mx ex) (S754_zero false)) with (S754_finite false mx ex).
    split; [exact Hx|].
    replace (scaled (S754_finite false mx ex) - (scaled (S754_finite false mx ex) + scaled (S754_zero false))) with 0
      by (simpl; lia).
    simpl. pose proof (pow2_pos (ex + 149)). apply Z.leb_le in Hx. nia.
  - apply Z.leb_le in Hx, Hy. simpl in Hx, Hy.
    unfold F32.add, SFadd. cbv zeta. unfold cond_Zopp.
    set (ez := Z.min ex ey).
    pose proof (shl_align_value mx ex ez ltac:(unfold ez; lia)) as Ha.
    pose proof (shl_align_value my ey ez ltac:(unfold ez; lia)) as Hb.
    set (a := (shl_align mx ex ez).1) in *.
    set (b := (shl_align my ey ez).1) in *.
    change (Z.pos a + Z.pos b) with (Z.pos (a + b)).
    unfold binary_normalize.
    change F32.prec with 24. change F32.emax with 128.
    assert (Hsum : Z.pos (a + b) * 2 ^ (ez + 149)
                   = scaled (S754_finite false mx ex) + scaled (S754_finite false my ey)).
    { rewrite Pos2Z.inj_add, Ha, Hb. simpl scaled.
      rewrite Z.mul_add_distr_r, <- !Z.mul_assoc, !pow2_mul by (unfold ez; lia).
      f_equal; f_equal; f_equal; lia. }
    destruct (f32_round_spec (a + b) ez ltac:(unfold ez; lia) ltac:(rewrite Hsum; exact Hbound))
      as (m & e & -> & He & Herr).
    split; [simpl; apply Z.leb_le; exact He|].
    rewrite <- Hsum. exact Herr.
Qed.

Lemma f32_div_core (mx my : positive) (ex ey : Z) :
  let g := Zdigits2 (Z.pos mx) + ex - (Zdigits2 (Z.pos my) + ey) in
  let e' := Z.min (fexp 24 128 g) (ex - ey) in
  let s := ex - ey - e' in
  SFdiv_core_binary 24 128 (Z.pos mx) ex (Z.pos my) ey
  = (Z.pos mx * 2 ^ s / Z.pos my, e',
     new_location (Z.pos my) ((Z.pos mx * 2 ^ s) mod Z.pos my)).
Proof.
  intros g e' s. unfold SFdiv_core_binary. fold g. fold e'. fold s.
  assert (Hs : 0 ≤ s) by (unfold s, e'; lia).
  assert (Hm : match s with
               | 0 => Z.pos mx
               | Z.pos _ => Z.shiftl (Z.pos mx) s
               | Z.neg _ => 0
               end = Z.pos mx * 2 ^ s).
  { destruct s as [|p|p] eqn:Es; [simpl; lia | | lia].
    rewrite Z.shiftl_mul_pow2 by lia. reflexivity. }
  rewrite Hm. unfold Z.div, Z.modulo.
  destruct (Z.div_eucl (Z.pos mx * 2 ^ s) (Z.pos my)) as [q r]. reflexivity.
Qed.

(** Division of a non-negative binary32 float by a positive one, where the
    quotient is at most [2^100]: the quotient rounded, with a relative error
    of at most [2^-24] or, in the subnormal range, an error of at most half
    of [2^-149]. *)
Lemma f32_div_spec (x : spec_float) (my : positive) (ey : Z) :
  f32_nonneg x = true → -149 ≤ ey →
  scaled x ≤ 2 ^ 100 * scaled (S754_finite false my ey) →
  let y := S754_finite false my ey in
  f32_nonneg (F32.div x y) = true ∧
  (2 ^ 24 * Z.abs (scaled (F32.div x y) * scaled y - scaled x * 2 ^ 149)
     ≤ scaled x * 2 ^ 149 ∨
   2 * Z.abs (scaled (F32.div x y) * scaled y - scaled x * 2 ^ 149) ≤ scaled y).
Proof.
  intros Hx Hey Hle y.
  destruct x as [[|]| | |[|] mx ex]; try discriminate Hx.
  { simpl. split; [reflexivity|]. left. lia. }
  apply Z.leb_le in Hx. simpl in Hx.
  unfold y, F32.div, SFdiv. change F32.prec with 24. change F32.emax with 128.
  rewrite f32_div_core. simpl xorb.
  set (d1 := Zdigits2 (Z.pos mx)). set (d2 := Zdigits2 (Z.pos my)).
  set (g := d1 + ex - (d2 + ey)).
  set (e' := Z.min (fexp 24 128 g) (ex - ey)).
  assert (He' : e' = Z.min (Z.max (g - 24) (-149)) (ex - ey)) by reflexivity.
  clearbody e'.
  set (s := ex - ey - e').
  assert (Hs : 0 ≤ s) by (unfold s; lia).
  pose proof (pow2_pos s Hs) as Hps.
  set (m' := Z.pos mx * 2 ^ s).
  set (q := m' / Z.pos my). set (r := m' mod Z.pos my).
  assert (Hdm : m' = q * Z.pos my + r ∧ 0 ≤ r < Z.pos my).
  { unfold q, r. pose proof (Z.div_mod m' (Z.pos my) ltac:(lia)).
    pose proof (Z.mod_pos_bound m' (Z.pos my) ltac:(lia)). lia. }
  assert (Hm'pos : 0 < m') by (unfold m'; lia).
  assert (Hq0 : 0 ≤ q) by (unfold q; apply Z.div_pos; lia).
  pose proof (Zdigits2_bounds (Z.pos mx) ltac:(lia)) as Hb1. fold d1 in Hb1.
  pose proof (Zdigits2_bounds (Z.pos my) ltac:(lia)) as Hb2. fold d2 in Hb2.
  pose proof (Zdigits2_pos (Z.pos mx) ltac:(lia)) as Hd1. fold d1 in Hd1.
  pose proof (Zdigits2_pos (Z.pos my) ltac:(lia)) as Hd2. fold d2 in Hd2.
  (* the quotient is aligned *)
  assert (Halign : e' ≤ fexp 24 128 (Zdigits2 q + e')).
  { change (fexp 24 128 (Zdigits2 q + e')) with (Z.max (Zdigits2 q + e' - 24) (-149)).
    destruct (Z.le_gt_cases e' (-149)) as [|Hgt]; [lia|].
    assert (Hsge : d2 - d1 + 24 ≤ s) by (unfold s, g in *; lia).
    set (t := d1 - 1 + s - d2).
    assert (Ht : 23 ≤ t) by (unfold t; lia).
    assert (Hqt : 2 ^ t ≤ q).
    { unfold q. apply Z.div_le_lower_bound; [lia|].
      apply Z.le_trans with (2 ^ d2 * 2 ^ t).
      - apply Z.mul_le_mono_nonneg_r; [pose proof (pow2_pos t ltac:(lia)); lia | lia].
      - rewrite pow2_mul by lia. replace (d2 + t) with (d1 - 1 + s) by (unfold t; lia).
        rewrite <- pow2_mul by lia. unfold m'.
        apply Z.mul_le_mono_nonneg_r; lia. }
    pose proof (Zdigits2_ge q t ltac:(lia) Hqt). unfold t, g in *. lia. }
  destruct (binary_round_aux_general 24 128 ltac:(lia) false q e'
              (new_location (Z.pos my) r) m' (Z.pos my))
    as (m1 & Hm1 & Herr & _ & Hnorm & ->).
  - exact Hq0.
  - lia.
  - apply new_location_ok; [lia | apply Hdm | apply Hdm].
  - exact Halign.
  - set (e1 := fexp 24 128 (Zdigits2 q + e')) in *.
    assert (He1 : -149 ≤ e1) by (unfold e1, fexp, emin; lia).
    clearbody e1.
    change (emin 24 128) with (-149) in Hnorm.
    change (2 ^ (24 - 1)) with 8388608 in Hnorm.
    change (2 ^ 24) with 16777216 in *.
    set (k := e1 - e') in *.
    assert (Hk : 0 ≤ k) by (unfold k; lia).
    pose proof (pow2_pos k Hk) as HK.
    pose proof (pow2_pos (e1 + 149) ltac:(lia)) as HA.
    pose proof (pow2_pos (ey + 149) ltac:(lia)) as HB.
    pose proof (pow2_pos (ex + 149) ltac:(lia)) as HX.
    simpl scaled in *.
    set (A := 2 ^ (e1 + 149)) in *. set (B := 2 ^ (ey + 149)) in *.
    set (K := 2 ^ k) in *.
    (* the dividend in units of the result *)
    assert (HE : Z.pos mx * 2 ^ (ex + 149) * 2 ^ 149 * K = m' * A * B).
    { unfold m', A, B, K.
      rewrite <- !Z.mul_assoc. f_equal.
      rewrite !pow2_mul by lia. f_equal. unfold k, s. lia. }
    set (Sx := Z.pos mx * 2 ^ (ex + 149)) in *.
    assert (Hcore : 2 * Z.abs (m1 * A * (Z.pos my * B) - Sx * 2 ^ 149) ≤ A * (Z.pos my * B)).
    { assert (H1 : (m1 * A * (Z.pos my * B) - Sx * 2 ^ 149) * K
                   = (m1 * (Z.pos my * K) - m') * (A * B)) by (rewrite Z.mul_sub_distr_r, HE; ring).
      assert (H2 : Z.abs (m1 * A * (Z.pos my * B) - Sx * 2 ^ 149) * K
                   = Z.abs (m1 * (Z.pos my * K) - m') * (A * B)).
      { rewrite <- (Z.abs_eq K) at 1 by lia. rewrite <- Z.abs_mul, H1, Z.abs_mul.
        rewrite (Z.abs_eq (A * B)) by nia. reflexivity. }
      assert (H3 : 2 * (Z.abs (m1 * A * (Z.pos my * B) - Sx * 2 ^ 149) * K)
                   ≤ A * (Z.pos my * B) * K).
      { rewrite H2.
        replace (A * (Z.pos my * B) * K) with (Z.pos my * K * (A * B)) by ring.
        rewrite Z.mul_assoc. apply Z.mul_le_mono_nonneg_r; [nia | exact Herr]. }
      nia. }
    assert (Hnorm' : e1 = -149 ∨ 8388608 * (A * (Z.pos my * B)) ≤ Sx * 2 ^ 149).
    { destruct Hnorm as [?|Hn]; [left; assumption | right].
      assert (8388608 * (A * (Z.pos my * B)) * K ≤ Sx * 2 ^ 149 * K).
      { rewrite HE.
        replace (8388608 * (A * (Z.pos my * B)) * K)
          with (8388608 * (Z.pos my * K) * (A * B)) by ring.
        replace (m' * A * B) with (m' * (A * B)) by ring.
        apply Z.mul_le_mono_nonneg_r; [nia | exact Hn]. }
      nia. }
    assert (He1le : e1 ≤ 103).
    { destruct Hnorm' as [->|Hn]; [lia|].
      destruct (Z.le_gt_cases e1 103) as [|Hgt]; [assumption|exfalso].
      assert (Hbig : 2 ^ 252 ≤ A) by (unfold A; apply Z.pow_le_mono_r; lia).
      change (2 ^ 149) with 713623846352979940529142984724747568191373312 in *.
      change (2 ^ 252) with
        7237005577332262213973186563042994240829374041602535252466099000494570602496 in Hbig.
      change (2 ^ 100) with 1267650600228229401496703205376 in Hle.
      assert (HP : 0 < Z.pos my * B) by nia.
      set (P := Z.pos my * B) in *.
      assert (H1 : 8388608 * A * P
                   ≤ 1267650600228229401496703205376
                     * 713623846352979940529142984724747568191373312 * P) by nia.
      assert (H2 : 8388608 * A
                   ≤ 1267650600228229401496703205376
                     * 713623846352979940529142984724747568191373312).
      { apply (Z.mul_le_mono_pos_r _ _ P HP). exact H1. }
      lia. }
    destruct (Z.eqb_spec m1 0) as [->|Hne].
    + split; [reflexivity|]. simpl scaled.
      rewrite !Z.mul_0_l in Hcore |- *.
      destruct Hnorm' as [->|Hn].
      * right. change A with (2 ^ 0) in Hcore. simpl (2 ^ 0) in Hcore. lia.
      * left. nia.
    + destruct (pack_rounded_scaled m1 e1 ltac:(change (2 ^ 24) with 16777216; lia)
                  ltac:(lia)) as (m & e & -> & He & Hsc).
      split; [simpl; apply Z.leb_le; exact He|].
      simpl scaled. fold A in Hsc. rewrite Hsc.
      destruct Hnorm' as [->|Hn].
      * right. change A with (2 ^ 0) in *. simpl (2 ^ 0) in *. lia.
      * left. nia.
Qed.

(** *** The accumulated sum and the normalised weights *)

Lemma scaled_nonneg (x : spec_float) : 0 ≤ scaled x.
Proof.
  destruct x as [s|s| |s m e]; simpl; try lia.
  destruct s; [lia|].
  destruct (Z.le_gt_cases 0 (e + 149)) as [He|He].
  - pose proof (pow2_pos (e + 149) He). lia.
  - rewrite Z.pow_neg_r by lia. lia.
Qed.

Lemma scaled_sum_nonneg (l : list spec_float) : 0 ≤ scaled_sum l.
Proof.
  induction l as [|v l IH]; simpl; [lia|]. pose proof (scaled_nonneg v). lia.
Qed.

Lemma scaled_sum_bound (l : list spec_float) :
  Forall (λ v, f32_unit v = true) l → scaled_sum l ≤ Z.of_nat (length l) * 2 ^ 149.
Proof.
  induction 1 as [|v l Hv _ IH]; simpl scaled_sum; simpl length; [lia|].
  apply andb_true_iff in Hv as [_ Hv]. apply Z.leb_le in Hv. lia.
Qed.

Lemma scaled_sum_elem (l : list spec_float) (v : spec_float) :
  v ∈ l → scaled v ≤ scaled_sum l.
Proof.
  induction 1 as [v l|v w l _ IH]; simpl.
  - pose proof (scaled_sum_nonneg l). lia.
  - pose proof (scaled_nonneg w). lia.
Qed.

(** The accumulated sum of [j] floats of [[0, 1]], continued over [l]: its
    relative error grows by at most [2^-23] with every addition. *)
Lemma float_sum_from (l : list spec_float) (acc : spec_float) (j t : Z) :
  Forall (λ v, f32_unit v = true) l →
  f32_nonneg acc = true →
  0 ≤ j → j + Z.of_nat (length l) ≤ 2 ^ 22 →
  0 ≤ t ≤ j * 2 ^ 149 →
  2 ^ 24 * Z.abs (scaled acc - t) ≤ 2 * j * t →
  f32_nonneg (foldl F32.add acc l) = true ∧
  2 ^ 24 * Z.abs (scaled (foldl F32.add acc l) - (t + scaled_sum l))
    ≤ 2 * (j + Z.of_nat (length l)) * (t + scaled_sum l).
Proof.
  intros Hl. revert acc j t.
  induction Hl as [|v l Hv Hl IH]; intros acc j t Hacc Hj Hn Ht Herr.
  - simpl. rewrite !Z.add_0_r. auto.
  - simpl foldl. simpl scaled_sum. simpl length in *.
    apply andb_true_iff in Hv as [Hvn Hv1]. apply Z.leb_le in Hv1.
    pose proof (scaled_nonneg v) as Hv0.
    change (2 ^ 22) with 4194304 in *.
    change (2 ^ 24) with 16777216 in *.
    assert (Hs2 : scaled acc ≤ 2 * t).
    { assert (16777216 * Z.abs (scaled acc - t) ≤ 16777216 * t) by nia. lia. }
    assert (H149 : 0 < 2 ^ 149) by (apply pow2_pos; lia).
    destruct (f32_add_spec acc v Hacc Hvn) as [Hnn Hadd].
    { apply Z.le_trans with (2 ^ 24 * 2 ^ 149); [|rewrite pow2_mul by lia; apply Z.pow_le_mono_r; lia].
      change (2 ^ 24) with 16777216. nia. }
    change (2 ^ 24) with 16777216 in Hadd.
    destruct (IH (F32.add acc v) (j + 1) (t + scaled v) Hnn ltac:(lia) ltac:(lia))
      as [Hres Hbound].
    + nia.
    + (* one more addition *)
      assert (H1 : 16777216 * Z.abs (scaled (F32.add acc v) - (t + scaled v))
                   ≤ 16777216 * Z.abs (scaled (F32.add acc v) - (scaled acc + scaled v))
                     + 16777216 * Z.abs (scaled acc - t)) by lia.
      assert (H2 : 16777216 * (scaled acc + scaled v)
                   ≤ 16777216 * (t + scaled v) + 2 * j * t) by lia.
      assert (H3 : 2 * j * t ≤ 16777216 * t) by nia.
      assert (H4 : 16777216 * Z.abs (scaled (F32.add acc v) - (scaled acc + scaled v))
                   ≤ 2 * (t + scaled v)) by nia.
      nia.
    + split; [exact Hres|].
      replace (t + (scaled v + scaled_sum l)) with (t + scaled v + scaled_sum l) by lia.
      replace (j + Z.of_nat (S (length l))) with (j + 1 + Z.of_nat (length l)) by lia.
      exact Hbound.
Qed.

Lemma float_sum_spec (l : list spec_float) :
  Forall (λ v, f32_unit v = true) l →
  Z.of_nat (length l) ≤ 2 ^ 22 →
  f32_nonneg (float_sum l) = true ∧
  2 ^ 24 * Z.abs (scaled (float_sum l) - scaled_sum l)
    ≤ 2 * Z.of_nat (length l) * scaled_sum l.
Proof.
  intros Hl Hn.
  destruct (float_sum_from l F32.zero 0 0 Hl eq_refl ltac:(lia) ltac:(lia) ltac:(lia)
              ltac:(simpl; lia)) as [H1 H2].
  split; [exact H1|]. rewrite !Z.add_0_l in H2. exact H2.
Qed.

(** Every weight divided by the accumulated sum [S]: the weights stay
    non-negative, and their exact sum times [S] is the exact sum of the
    dividends up to the rounding of each quotient. *)
Lemma normalise_spec (l : list spec_float) (mS : positive) (eS : Z) :
  let S := S754_finite false mS eS in
  -149 ≤ eS →
  Forall (λ v, f32_unit v = true) l →
  2 ^ 149 ≤ 2 * scaled S →
  Forall (λ v, f32_nonneg v = true) ((λ v, F32.div v S) <$> l) ∧
  2 ^ 24 * Z.abs (scaled_sum ((λ v, F32.div v S) <$> l) * scaled S
                  - scaled_sum l * 2 ^ 149)
    ≤ scaled_sum l * 2 ^ 149 + Z.of_nat (length l) * (2 ^ 23 * scaled S).
Proof.
  intros S HeS Hl HS.
  induction Hl as [|v l Hv Hl [IH1 IH2]].
  - simpl. split; [constructor | lia].
  - apply andb_true_iff in Hv as [Hvn Hv1]. apply Z.leb_le in Hv1.
    assert (Hquot : scaled v ≤ 2 ^ 100 * scaled S).
    { pose proof (scaled_nonneg S).
      change (2 ^ 100) with 1267650600228229401496703205376. lia. }
    destruct (f32_div_spec v mS eS Hvn HeS Hquot) as [Hq Herr].
    fold S in Hq, Herr.
    rewrite fmap_cons. split; [constructor; assumption|].
    simpl scaled_sum. simpl length.
    pose proof (scaled_nonneg v) as Hv0.
    pose proof (scaled_nonneg S) as HS0.
    change (2 ^ 24) with 16777216 in *. change (2 ^ 23) with 8388608 in *.
    set (q := scaled (F32.div v S)) in *.
    set (Q := scaled_sum ((λ v0, F32.div v0 S) <$> l)) in *.
    assert (H1 : 16777216 * Z.abs (q * scaled S - scaled v * 2 ^ 149)
                 ≤ scaled v * 2 ^ 149 + 8388608 * scaled S).
    { assert (Hpos : 0 ≤ scaled v * 2 ^ 149) by (pose proof (pow2_pos 149); nia).
      destruct Herr as [Hrel|Habs]; lia. }
    replace ((q + Q) * scaled S - (scaled v + scaled_sum l) * 2 ^ 149)
      with ((q * scaled S - scaled v * 2 ^ 149) + (Q * scaled S - scaled_sum l * 2 ^ 149))
      by ring.
    lia.
Qed.

Lemma valid_f32_normal (s : bool) (m : positive) (e : Z) :
  F32.valid (S754_finite s m e) = true → -149 < e → 2 ^ 23 ≤ Z.pos m < 2 ^ 24.
Proof.
  unfold F32.valid, valid_binary, bounded, canonical_mantissa, fexp, emin, F32.prec, F32.emax.
  intros Hv He. apply andb_true_iff in Hv as [Hc _]. apply Z.eqb_eq in Hc.
  pose proof (digits2_pos_bounds m) as Hm.
  assert (Hd : Z.pos (digits2_pos m) = 24) by lia.
  rewrite Hd in Hm. exact Hm.
Qed.

(** The scale [s = max(0.001f, sigma)] of a finite [sigma] in (0, 2^20]. *)
Lemma kernel_scale_normal (sigma : spec_float) :
  F32.valid sigma = true →
  F32.ltb F32.zero sigma = true → SFleb sigma f32_2p20 = true →
  ∃ ms es, F32.max F32.milli sigma = S754_finite false ms es ∧
           2 ^ 23 ≤ Z.pos ms < 2 ^ 24 ∧ -33 ≤ es ≤ -3 ∧
           (SFleb sigma f32_2p11 = true → es ≤ -12).
Proof.
  intros Hvalid Hpos Hle. unfold F32.max.
  destruct (SFltb_zero_cases sigma Hpos) as [->|(m & e & ->)]; [discriminate Hle|].
  unfold F32.ltb, F32.milli.
  destruct (SFltb (S754_finite false 8589935 (-33)) (S754_finite false m e)) eqn:Hlt.
  - apply SFltb_finite_pos in Hlt. apply SFleb_finite_pos in Hle.
    exists m, e. split; [reflexivity|].
    split; [apply (valid_f32_normal false m e Hvalid); lia|].
    split; [lia|].
    intros H11. apply SFleb_finite_pos in H11. lia.
  - exists 8589935%positive, (-33). split; [reflexivity|].
    change (2 ^ 23) with 8388608. change (2 ^ 24) with 16777216. lia.
Qed.

(** The product of two normal binary32 floats, away from underflow and
    overflow, is normal. *)
Lemma f32_mul_normal (mx my : positive) (ex ey : Z) :
  2 ^ 23 ≤ Z.pos mx < 2 ^ 24 → 2 ^ 23 ≤ Z.pos my < 2 ^ 24 →
  -172 ≤ ex + ey ≤ 79 →
  ∃ m e, F32.mul (S754_finite false mx ex) (S754_finite false my ey) = S754_finite false m e ∧
         2 ^ 23 ≤ Z.pos m < 2 ^ 24 ∧ ex + ey + 23 ≤ e ≤ ex + ey + 25.
Proof.
  intros Hmx Hmy He. unfold F32.mul, SFmul. simpl xorb.
  rewrite Pos2Z.inj_mul.
  set (N := Z.pos mx * Z.pos my).
  change (2 ^ 23) with 8388608 in *. change (2 ^ 24) with 16777216 in *.
  assert (HN : 2 ^ 46 ≤ N < 2 ^ 48).
  { unfold N. change (2 ^ 46) with (8388608 * 8388608).
    change (2 ^ 48) with (16777216 * 16777216). nia. }
  assert (Hd1 : 47 ≤ Zdigits2 N) by (apply (Zdigits2_ge N 46); lia).
  assert (Hd2 : Zdigits2 N ≤ 48) by (apply Zdigits2_le; lia).
  pose proof (Zdigits2_bounds N ltac:(lia)) as Hb.
  destruct (binary_round_aux_spec F32.prec F32.emax ltac:(unfold F32.prec; lia) false
              N (ex + ey) loc_Exact N 1) as (m1 & Hlow & Hm1 & _ & _ & ->).
  - lia.
  - lia.
  - unfold loc_ok. lia.
  - unfold emin, F32.prec, F32.emax. lia.
  - left. unfold F32.prec. lia.
  - change F32.prec with 24 in *. change F32.emax with 128 in *.
    rewrite Z.max_r in * by lia.
    set (k := Zdigits2 N - 24) in *.
    assert (Hk : 23 ≤ k ≤ 24) by (unfold k; lia).
    pose proof (pow2_pos k ltac:(lia)) as Hpk.
    assert (Hq : 8388608 ≤ N / 2 ^ k).
    { apply Z.div_le_lower_bound; [lia|].
      replace (Zdigits2 N - 1) with (k + 23) in Hb by (unfold k; lia).
      rewrite <- pow2_mul in Hb by lia. change (2 ^ 23) with 8388608 in Hb. lia. }
    change (2 ^ 24) with 16777216 in Hm1.
    unfold pack_rounded, pack_finite. change (2 ^ 24) with 16777216.
    destruct (Z.ltb_spec m1 16777216) as [Hlt|Hge].
    + rewrite (proj2 (Z.leb_le _ _)) by lia.
      exists (Z.to_pos m1), (ex + ey + k). split; [reflexivity|].
      rewrite Z2Pos.id by lia. lia.
    + assert (m1 = 16777216) as -> by lia.
      rewrite (proj2 (Z.leb_le _ _)) by lia.
      exists (Z.to_pos (16777216 / 2)), (ex + ey + k + 1). split; [reflexivity|].
      change (Z.pos (Z.to_pos (16777216 / 2))) with 8388608. lia.
Qed.

Lemma f32_of_int_nonneg (z : Z) :
  0 ≤ z < 2 ^ 31 → f32_nonneg (F32.of_int z) = true.
Proof.
  intros Hz. destruct z as [|p|p]; [reflexivity | | lia].
  unfold F32.of_int, binary_normalize.
  change F32.prec with 24. change F32.emax with 128.
  destruct (f32_round_spec p 0 ltac:(lia)) as (m & e & -> & He & _).
  - apply Z.le_trans with (2 ^ 31 * 2 ^ 149).
    + apply Z.mul_le_mono_nonneg_r; [simpl; lia | lia].
    + rewrite pow2_mul by lia. apply Z.pow_le_mono_r; lia.
  - simpl. apply Z.leb_le. exact He.
Qed.

(** [1 / (2 s^2)] is a non-negative finite float for a scale in
    [0.001f, 2^20]. *)
Lemma kernel_inv2s2_nonneg (ms : positive) (es : Z) :
  2 ^ 23 ≤ Z.pos ms < 2 ^ 24 → -33 ≤ es ≤ -3 →
  f32_nonneg (kernel_inv2s2 (S754_finite false ms es)) = true.
Proof.
  intros Hms Hes. unfold kernel_inv2s2.
  destruct (f32_mul_normal 8388608 ms (-22) es) as (m2 & e2 & H2 & Hm2 & He2).
  { change (2 ^ 23) with 8388608. change (2 ^ 24) with 16777216. lia. }
  { exact Hms. }
  { lia. }
  change (S754_finite false 8388608 (-22)) with F32.two in H2. rewrite H2.
  destruct (f32_mul_normal m2 ms e2 es Hm2 Hms ltac:(lia)) as (mX & eX & HX & HmX & HeX).
  rewrite HX.
  apply (f32_div_spec F32.one mX eX eq_refl ltac:(lia)).
  simpl scaled.
  change (2 ^ 23) with 8388608 in *.
  assert (Hp : 2 ^ 107 ≤ 2 ^ (eX + 149)) by (apply Z.pow_le_mono_r; lia).
  change (2 ^ (-23 + 149)) with (2 ^ 126).
  change (2 ^ 126) with 85070591730234615865843651857942052864.
  change (2 ^ 100) with 1267650600228229401496703205376.
  change (2 ^ 107) with 162259276829213363391578010288128 in Hp.
  nia.
Qed.

Section KernelValues.
Context {L : LibM}.

Lemma kernel_arg_nonpositive (a inv2s2 : spec_float) :
  f32_nonneg a = true → f32_nonneg inv2s2 = true →
  SFleb (F32.mul (F32.opp a) inv2s2) F32.zero = true ∧
  (a = S754_zero false → F32.mul (F32.opp a) inv2s2 = S754_zero true).
Proof.
  intros Ha Hi.
  destruct a as [[|]| | |[|] ma ea]; try discriminate Ha;
    destruct inv2s2 as [[|]| | |[|] mi ei]; try discriminate Hi;
    try (split; [reflexivity | intros _; reflexivity]).
  split; [|discriminate].
  unfold F32.mul, F32.opp, SFopp, SFmul. simpl xorb.
  destruct (binary_round_aux_sign F32.prec F32.emax true (Z.pos (ma * mi)) (ea + ei) loc_Exact
              ltac:(lia)) as [->|[->|(m & e & ->)]]; reflexivity.
Qed.

(** The raw weights, under the two facts about [expf] the kernel relies
    on: its values at arguments [x <= 0] lie in [[0, 1]], and it is 1 at
    [-0]. *)
Lemma kernel_raw_unit (inv2s2 : spec_float) (i : Z) :
  (∀ x, SFleb x F32.zero = true → f32_unit (expf x) = true) →
  expf (S754_zero true) = F32.one →
  f32_nonneg inv2s2 = true →
  -46340 ≤ i ≤ 46340 →
  f32_unit (kernel_raw inv2s2 i) = true ∧
  (i = 0 → kernel_raw inv2s2 i = F32.one).
Proof.
  intros Hexp Hone Hinv Hi. unfold kernel_raw.
  assert (Hsq : 0 ≤ i * i < 2 ^ 31).
  { change (2 ^ 31) with 2147483648. nia. }
  rewrite wrap_int_id by (unfold INT_MIN, INT_MAX; lia).
  destruct (kernel_arg_nonpositive (F32.of_int (i * i)) inv2s2
              (f32_of_int_nonneg (i * i) Hsq) Hinv) as [Hle Hzero].
  split; [apply Hexp, Hle|].
  intros ->. rewrite Hzero by reflexivity. exact Hone.
Qed.

Lemma kernel_raw_list_unit (inv2s2 : spec_float) (R : Z) :
  (∀ x, SFleb x F32.zero = true → f32_unit (expf x) = true) →
  expf (S754_zero true) = F32.one →
  f32_nonneg inv2s2 = true →
  0 ≤ R ≤ 46340 →
  let raw := kernel_raw inv2s2 <$> seqZ (- R) (2 * R + 1) in
  Forall (λ v, f32_unit v = true) raw ∧ F32.one ∈ raw ∧
  Z.of_nat (length raw) = 2 * R + 1.
Proof.
  intros Hexp Hone Hinv HR raw. unfold raw. split; [|split].
  - apply Forall_fmap, Forall_forall. intros i Hi.
    apply elem_of_seqZ in Hi. simpl.
    apply (kernel_raw_unit inv2s2 i Hexp Hone Hinv). lia.
  - apply list_elem_of_fmap. exists 0. split.
    + symmetry. apply (kernel_raw_unit inv2s2 0 Hexp Hone Hinv); [lia | reflexivity].
    + apply elem_of_seqZ. lia.
  - rewrite length_fmap, length_seqZ. lia.
Qed.

(** The normalised weights of unit raw weights of which one is 1: they
    are non-negative, and their exact sum is within [(4 n + 3) 2^-24] of 1
    for [n] weights. *)
Lemma normalise_sum (raw : list spec_float) :
  Forall (λ v, f32_unit v = true) raw → F32.one ∈ raw →
  Z.of_nat (length raw) ≤ 2 ^ 22 →
  Forall (λ v, f32_nonneg v = true) (normalise raw) ∧
  2 ^ 24 * Z.abs (scaled_sum (normalise raw) - 2 ^ 149)
    ≤ (4 * Z.of_nat (length raw) + 3) * 2 ^ 149.
Proof.
  intros Hraw Hone Hn.
  destruct (float_sum_spec raw Hraw Hn) as [Hnn Herr].
  pose proof (scaled_sum_elem raw F32.one Hone) as Hone'.
  change (scaled F32.one) with (2 ^ 149) in Hone'.
  pose proof (scaled_sum_bound raw Hraw) as Hup.
  set (n := Z.of_nat (length raw)) in *.
  set (T := scaled_sum raw) in *.
  unfold normalise.
  set (S := float_sum raw) in *.
  assert (H149 : 0 < 2 ^ 149) by (apply pow2_pos; lia).
  change (2 ^ 22) with 4194304 in *. change (2 ^ 24) with 16777216 in *.
  assert (HST : T ≤ 2 * scaled S).
  { assert (16777216 * Z.abs (scaled S - T) ≤ 8388608 * T) by nia. lia. }
  destruct S as [[|]| | |[|] mS eS] eqn:ES; try discriminate Hnn;
    [simpl scaled in HST; lia|].
  rewrite <- ES in *.
  assert (Hlt : F32.ltb F32.zero S = true) by (rewrite ES; reflexivity).
  rewrite Hlt.
  assert (HeS : -149 ≤ eS) by (rewrite ES in Hnn; apply Z.leb_le in Hnn; exact Hnn).
  destruct (normalise_spec raw mS eS HeS Hraw) as [Hall Hsum].
  { rewrite <- ES. lia. }
  rewrite <- ES in Hall, Hsum. split; [exact Hall|].
  fold T in Hsum. fold n in Hsum.
  change (2 ^ 24) with 16777216 in Hsum. change (2 ^ 23) with 8388608 in Hsum.
  set (Q := scaled_sum ((λ v, F32.div v S) <$> raw)) in *.
  pose proof (scaled_nonneg S) as HS0.
  assert (HSpos : 0 < scaled S) by lia.
  (* |Q - 1| S <= |Q S - T| + |T - S| *)
  assert (H1 : 16777216 * (Z.abs (Q - 2 ^ 149) * scaled S)
               ≤ 16777216 * Z.abs (Q * scaled S - T * 2 ^ 149)
                 + 16777216 * Z.abs (scaled S - T) * 2 ^ 149).
  { rewrite <- (Z.abs_eq (scaled S)) at 1 by lia. rewrite <- Z.abs_mul.
    rewrite <- Z.mul_assoc.
    rewrite <- (Z.abs_eq (2 ^ 149)) at 3 by lia. rewrite <- Z.abs_mul.
    replace ((Q - 2 ^ 149) * scaled S)
      with ((Q * scaled S - T * 2 ^ 149) - (scaled S - T) * 2 ^ 149) by ring.
    lia. }
  assert (H2 : 16777216 * Z.abs (scaled S - T) * 2 ^ 149 ≤ 2 * n * T * 2 ^ 149).
  { apply Z.mul_le_mono_nonneg_r; [lia | exact Herr]. }
  assert (H3 : 16777216 * (Z.abs (Q - 2 ^ 149) * scaled S)
               ≤ ((4 * n + 2) * 2 ^ 149 + n * 8388608) * scaled S).
  { assert (T * 2 ^ 149 ≤ 2 * scaled S * 2 ^ 149) by nia.
    assert (2 * n * T * 2 ^ 149 ≤ 2 * n * (2 * scaled S) * 2 ^ 149) by nia.
    nia. }
  assert (H4 : 16777216 * Z.abs (Q - 2 ^ 149) ≤ (4 * n + 2) * 2 ^ 149 + n * 8388608).
  { apply (Z.mul_le_mono_pos_r _ _ (scaled S) HSpos).
    rewrite <- Z.mul_assoc. exact H3. }
  assert (n * 8388608 ≤ 2 ^ 149).
  { change (2 ^ 149) with 713623846352979940529142984724747568191373312. lia. }
  lia.
Qed.
End KernelValues.

Lemma ceil_finite_scaled (M : positive) (E : Z) :
  E ≤ -9 → Z.pos M < 2 ^ 24 → ceil_finite false M E ≤ 32768.
Proof.
  intros HE HM. unfold ceil_finite.
  destruct (Z.leb_spec 0 E) as [|_]; [lia|].
  assert (Hp : 2 ^ 9 ≤ 2 ^ (- E)) by (apply Z.pow_le_mono_r; lia).
  change (2 ^ 9) with 512 in Hp. change (2 ^ 24) with 16777216 in HM.
  assert (- 32768 ≤ - Z.pos M / 2 ^ (- E)); [|lia].
  apply Z.div_le_lower_bound; lia.
Qed.

Section KernelContract.
Context {L : LibM}.

Lemma kernel_weights_code_symmetric (s : spec_float) (R d : Z) :
  0 ≤ d ≤ R →
  ∃ v, kernel_weights_code s R !! Z.to_nat (R - d) = Some v ∧
       kernel_weights_code s R !! Z.to_nat (R + d) = Some v.
Proof.
  intros Hd. unfold kernel_weights_code, normalise.
  set (inv := kernel_inv2s2 s).
  set (raw := kernel_raw inv <$> seqZ (- R) (2 * R + 1)).
  assert (Hl : raw !! Z.to_nat (R - d) = Some (kernel_raw inv d)).
  { unfold raw. rewrite list_lookup_fmap, lookup_seqZ_lt by lia. simpl.
    f_equal. replace (- R + Z.of_nat (Z.to_nat (R - d))) with (- d) by lia.
    unfold kernel_raw. rewrite Z.mul_opp_opp. reflexivity. }
  assert (Hr : raw !! Z.to_nat (R + d) = Some (kernel_raw inv d)).
  { unfold raw. rewrite list_lookup_fmap, lookup_seqZ_lt by lia. simpl.
    do 2 f_equal. lia. }
  destruct (F32.ltb F32.zero (float_sum raw)).
  - eexists. rewrite !list_lookup_fmap, Hl, Hr. split; reflexivity.
  - eexists. split; [exact Hl | exact Hr].
Qed.

(** The radius of a strength up to [2^11]. *)
Lemma kernel_radius_bound (ms : positive) (es c : Z) :
  2 ^ 23 ≤ Z.pos ms < 2 ^ 24 → -33 ≤ es ≤ -12 →
  ceil_to_int (F32.mul F32.three (S754_finite false ms es)) = Ok c →
  c ≤ 32768.
Proof.
  intros Hms Hes.
  change (2 ^ 23) with 8388608 in Hms. change (2 ^ 24) with 16777216 in Hms.
  pose proof (Zdigits2_le (12582912 * Z.pos ms) 48 ltac:(simpl; lia) ltac:(lia)) as Hd.
  destruct (mul_three_cases ms es ltac:(lia)) as [->|(M & E & -> & HM & HE)];
    [discriminate|].
  unfold ceil_to_int.
  destruct ((INT_MIN <=? ceil_finite false M E) && (ceil_finite false M E <=? INT_MAX));
    [|discriminate].
  intros [= <-]. apply ceil_finite_scaled; [lia | exact HM].
Qed.

(** The kernel of a finite strength in (0, 2^20], under the two facts
    about [expf] that the kernel relies on. *)
Lemma kernel_weights_code_sum (ms : positive) (es R : Z) :
  (∀ x, SFleb x F32.zero = true → f32_unit (expf x) = true) →
  expf (S754_zero true) = F32.one →
  2 ^ 23 ≤ Z.pos ms < 2 ^ 24 → -33 ≤ es ≤ -3 →
  0 ≤ R ≤ 46340 →
  Forall (λ v, f32_nonneg v = true) (kernel_weights_code (S754_finite false ms es) R) ∧
  2 ^ 24 * Z.abs (scaled_sum (kernel_weights_code (S754_finite false ms es) R) - 2 ^ 149)
    ≤ (8 * R + 7) * 2 ^ 149.
Proof.
  intros Hexp Hone Hms Hes HR.
  pose proof (kernel_inv2s2_nonneg ms es Hms Hes) as Hinv.
  destruct (kernel_raw_list_unit _ R Hexp Hone Hinv HR) as (Hraw & Hin & Hlen).
  unfold kernel_weights_code.
  set (raw := kernel_raw (kernel_inv2s2 (S754_finite false ms es)) <$> seqZ (- R) (2 * R + 1))
    in *.
  destruct (normalise_sum raw Hraw Hin) as [Hnn Hsum].
  { rewrite Hlen. change (2 ^ 22) with 4194304. lia. }
  split; [exact Hnn|].
  rewrite Hlen in Hsum.
  replace (8 * R + 7) with (4 * (2 * R + 1) + 3) by lia. exact Hsum.
Qed.
End KernelContract.

(** *** The radius against the formula *)

(** The ceiling of a quotient, [- ((- a) / b)]. *)
Lemma ceil_div_spec (a b c : Z) :
  0 < b → (- ((- a) / b) = c ↔ (c - 1) * b < a ≤ c * b).
Proof.
  intros Hb.
  pose proof (Z.div_mod (- a) b ltac:(lia)) as Hdm.
  pose proof (Z.mod_pos_bound (- a) b Hb) as Hmod.
  split.
  - intros <-. nia.
  - intros Hc. nia.
Qed.

(** The ceiling of a value rounded to the nearest multiple of [2^k], where
    the integers are multiples of it: the ceiling of the value, or one
    less. *)
Lemma ceil_of_rounded (N m1 k j : Z) :
  0 ≤ k → 0 ≤ j →
  2 * Z.abs (m1 * 2 ^ k - N) ≤ 2 ^ k →
  - ((- N) / 2 ^ (k + j)) - 1 ≤ - ((- m1) / 2 ^ j) ≤ - ((- N) / 2 ^ (k + j)).
Proof.
  intros Hk Hj Hr.
  pose proof (pow2_pos k Hk) as Hpk. pose proof (pow2_pos j Hj) as Hpj.
  rewrite <- pow2_mul by lia.
  set (K := 2 ^ k) in *. set (J := 2 ^ j) in *.
  set (n := - ((- N) / (K * J))).
  set (c := - ((- m1) / J)).
  assert (Hn : (n - 1) * (K * J) < N ≤ n * (K * J)).
  { apply (ceil_div_spec N (K * J) n); [nia | reflexivity]. }
  assert (Hc : (c - 1) * J < m1 ≤ c * J).
  { apply (ceil_div_spec m1 J c); [lia | reflexivity]. }
  split.
  - (* (n - 1) J <= m1 *)
    assert (H1 : (n - 1) * J * K < m1 * K + K) by lia.
    assert (H2 : (n - 1) * J < m1 + 1) by nia.
    assert (H3 : (n - 2) * J < c * J) by nia.
    nia.
  - assert (H1 : m1 * K ≤ n * J * K + K) by lia.
    assert (H1' : 2 * (m1 * K) ≤ 2 * (n * J * K) + K) by lia.
    assert (H2 : m1 ≤ n * J) by nia.
    assert (H3 : (c - 1) * J < n * J) by lia.
    nia.
Qed.

Lemma ceil_finite_spec (M : positive) (E c : Z) :
  E ≤ 0 →
  (c - 1) * 2 ^ (- E) < Z.pos M ≤ c * 2 ^ (- E) → ceil_finite false M E = c.
Proof.
  intros HE Hc. unfold ceil_finite.
  destruct (Z.leb_spec 0 E) as [HE0|HE0].
  - replace E with 0 in * by lia. simpl in Hc. rewrite Z.pow_0_r. lia.
  - apply ceil_div_spec; [apply pow2_pos; lia | exact Hc].
Qed.

(** The ceiling of the binary32 product [3.0f * s], for a scale [s] in
    [0.001f, 2^20], is the ceiling of [3 s] or one less. *)
Lemma mul_three_ceiling (ms : positive) (es c : Z) :
  2 ^ 23 ≤ Z.pos ms < 2 ^ 24 → -33 ≤ es ≤ -3 →
  ceil_to_int (F32.mul F32.three (S754_finite false ms es)) = Ok c →
  - ((- (3 * Z.pos ms)) / 2 ^ (- es)) - 1 ≤ c ≤ - ((- (3 * Z.pos ms)) / 2 ^ (- es)).
Proof.
  intros Hms Hes.
  change (2 ^ 23) with 8388608 in Hms. change (2 ^ 24) with 16777216 in Hms.
  unfold F32.mul, F32.three, SFmul. simpl xorb.
  rewrite Pos2Z.inj_mul. change (Z.pos 12582912) with 12582912.
  set (N := 12582912 * Z.pos ms).
  assert (HN : 2 ^ 46 ≤ N < 2 ^ 48).
  { unfold N. change (2 ^ 46) with 70368744177664.
    change (2 ^ 48) with 281474976710656. lia. }
  assert (Hd1 : 47 ≤ Zdigits2 N) by (apply (Zdigits2_ge N 46); lia).
  assert (Hd2 : Zdigits2 N ≤ 48) by (apply Zdigits2_le; lia).
  destruct (binary_round_aux_spec F32.prec F32.emax ltac:(unfold F32.prec; lia) false
              N (-22 + es) loc_Exact N 1) as (m1 & _ & Hm1 & Herr & _ & ->).
  - lia.
  - lia.
  - unfold loc_ok. lia.
  - unfold emin, F32.prec, F32.emax. lia.
  - left. unfold F32.prec. lia.
  - change F32.prec with 24 in *. change F32.emax with 128 in *.
    rewrite Z.max_r in * by lia.
    set (k := Zdigits2 N - 24) in *.
    assert (Hk : 23 ≤ k ≤ 24) by (unfold k; lia).
    set (j := 22 - es - k).
    assert (Hj : 1 ≤ j) by (unfold j; lia).
    rewrite !Z.mul_1_l in Herr.
    pose proof (ceil_of_rounded N m1 k j ltac:(lia) ltac:(lia) Herr) as Hceil.
    (* the exact product is 3 s *)
    assert (Hexact : - N / 2 ^ (k + j) = - (3 * Z.pos ms) / 2 ^ (- es)).
    { replace (k + j) with (22 + - es) by (unfold j; lia).
      rewrite <- pow2_mul by lia. unfold N.
      replace (- (12582912 * Z.pos ms)) with (2 ^ 22 * - (3 * Z.pos ms))
        by (change (2 ^ 22) with 4194304; lia).
      apply Z.div_mul_cancel_l.
      - pose proof (pow2_pos (- es) ltac:(lia)). lia.
      - discriminate. }
    rewrite Hexact in Hceil.
    (* the ceiling of the packed result is the ceiling of m1 / 2^j *)
    assert (Hpack : ∃ M E, pack_rounded 24 128 false m1 (-22 + es + k) = S754_finite false M E ∧
                           ceil_finite false M E = - ((- m1) / 2 ^ j)).
    { pose proof (pow2_pos j ltac:(lia)) as Hpj.
      assert (Hc : (- (- m1 / 2 ^ j) - 1) * 2 ^ j < m1 ≤ - (- m1 / 2 ^ j) * 2 ^ j).
      { apply (ceil_div_spec m1 (2 ^ j)); [lia | reflexivity]. }
      set (c' := - (- m1 / 2 ^ j)) in *.
      unfold pack_rounded, pack_finite. change (2 ^ 24) with 16777216 in *.
      destruct (Z.ltb_spec m1 16777216) as [Hlt|Hge].
      - rewrite (proj2 (Z.leb_le _ _)) by lia.
        exists (Z.to_pos m1), (-22 + es + k). split; [reflexivity|].
        apply ceil_finite_spec; [lia|].
        rewrite Z2Pos.id by lia.
        replace (- (-22 + es + k)) with j by (unfold j; lia). exact Hc.
      - assert (Hm1eq : m1 = 16777216) by lia.
        assert (Hhalf : m1 / 2 = 8388608) by (rewrite Hm1eq; reflexivity).
        rewrite (proj2 (Z.leb_le _ _)) by lia.
        exists (Z.to_pos (m1 / 2)), (-22 + es + k + 1). split; [reflexivity|].
        apply ceil_finite_spec; [lia|].
        rewrite Hhalf. change (Z.pos (Z.to_pos 8388608)) with 8388608.
        replace (- (-22 + es + k + 1)) with (j - 1) by (unfold j; lia).
        assert (Hj2 : 2 ^ j = 2 * 2 ^ (j - 1)).
        { rewrite <- Z.pow_succ_r by lia. f_equal. lia. }
        rewrite Hj2 in Hc. nia. }
    destruct Hpack as (M & E & -> & HME).
    unfold ceil_to_int. rewrite HME.
    destruct ((INT_MIN <=? - (- m1 / 2 ^ j)) && (- (- m1 / 2 ^ j) <=? INT_MAX));
      [|discriminate].
    intros [= <-]. exact Hceil.
Qed.

(** The radius against the formula of the specification. *)
Lemma kernel_radius_near_formula (sigma : spec_float) (c : Z) :
  F32.valid sigma = true →
  F32.ltb F32.zero sigma = true → SFleb sigma f32_2p20 = true →
  ceil_to_int (F32.mul F32.three (F32.max F32.milli sigma)) = Ok c →
  radius_formula sigma - 1 ≤ c ≤ radius_formula sigma.
Proof.
  intros Hvalid Hpos Hle.
  destruct (SFltb_zero_cases sigma Hpos) as [->|(m & e & ->)]; [discriminate Hle|].
  pose proof (valid_f32_mantissa false m e Hvalid) as Hm24.
  change (2 ^ 24) with 16777216 in Hm24.
  unfold F32.max, F32.ltb, F32.milli.
  destruct (SFltb (S754_finite false 8589935 (-33)) (S754_finite false m e)) eqn:Hlt.
  - apply SFltb_finite_pos in Hlt. apply SFleb_finite_pos in Hle.
    pose proof (valid_f32_normal false m e Hvalid ltac:(lia)) as Hm.
    intros Hc.
    pose proof (mul_three_ceiling m e c Hm ltac:(lia) Hc) as Hnear.
    unfold radius_formula.
    destruct (Z.leb_spec 0 e); [lia|].
    change (2 ^ 23) with 8388608 in Hm.
    destruct (Z.ltb_spec (1000 * Z.pos m) (2 ^ (- e))) as [Hsmall|_]; [exfalso|exact Hnear].
    destruct (Z.eq_dec e (-33)) as [->|Hne].
    + change (2 ^ (- -33)) with 8589934592 in Hsmall. lia.
    + assert (2 ^ (- e) ≤ 2 ^ 32) by (apply Z.pow_le_mono_r; lia).
      change (2 ^ 32) with 4294967296 in *. lia.
  - assert (Hnot : ¬ (-33 < e ∨ (-33 = e ∧ 8589935 < Z.pos m))).
    { intros H. apply SFltb_finite_pos in H. congruence. }
    intros Hc. vm_compute in Hc. injection Hc as <-.
    unfold radius_formula.
    destruct (Z.leb_spec 0 e); [lia|].
    destruct (Z.ltb_spec (1000 * Z.pos m) (2 ^ (- e))) as [_|_]; [lia|].
    assert (Hone : - (- (3 * Z.pos m) / 2 ^ (- e)) = 1); [|lia].
    apply ceil_div_spec; [apply pow2_pos; lia|].
    destruct (Z.eq_dec e (-33)) as [->|Hne].
    + change (2 ^ (- -33)) with 8589934592. lia.
    + assert (2 ^ 34 ≤ 2 ^ (- e)) by (apply Z.pow_le_mono_r; lia).
      change (2 ^ 34) with 17179869184 in *. lia.
Qed.

(** C8, as the code has it.  For a finite strength [sigma] in (0, 2^20],
    and a C library whose [expf] takes every [x <= 0] into [[0, 1]] and
    [-0] to 1: the kernel has radius [R >= 1], which is the ceiling of the
    binary32 product [3.0f * max(0.001f, sigma)], that is
    [ceil (3 * max (0.001, sigma))] or one less (and at most 32768 up to
    [sigma = 2^11]); it has [2 R + 1] weights, equal at the offsets [- d]
    and [d] from the centre; and up to [R = 46340], where [i * i] stays an
    [int], every weight is a non-negative finite float and the exact sum of
    the weights differs from 1 by at most [(8 R + 7) * 2^-24]. *)
Theorem gaussian_kernel_contract (L : LibM) (sigma : spec_float) :
  F32.valid sigma = true →
  F32.ltb F32.zero sigma = true → SFleb sigma f32_2p20 = true →
  (∀ x, SFleb x F32.zero = true → f32_unit (expf x) = true) →
  expf (S754_zero true) = F32.one →
  ∃ k, makeGaussianKernel sigma = Ok k ∧
       ceil_to_int (F32.mul F32.three (F32.max F32.milli sigma)) = Ok (kr k) ∧
       1 ≤ kr k ∧
       radius_formula sigma - 1 ≤ kr k ≤ radius_formula sigma ∧
       (SFleb sigma f32_2p11 = true → kr k ≤ 32768) ∧
       Z.of_nat (length (kw k)) = 2 * kr k + 1 ∧
       (∀ d, 0 ≤ d ≤ kr k →
          ∃ v, kw k !! Z.to_nat (kr k - d) = Some v ∧
               kw k !! Z.to_nat (kr k + d) = Some v) ∧
       (kr k ≤ 46340 →
          Forall (λ v, f32_nonneg v = true) (kw k) ∧
          2 ^ 24 * Z.abs (scaled_sum (kw k) - 2 ^ 149) ≤ (8 * kr k + 7) * 2 ^ 149).
Proof.
  intros Hvalid Hpos Hle Hexp Hone.
  destruct (makeGaussianKernel_defined sigma Hvalid Hpos Hle) as [k Hk].
  pose proof (makeGaussianKernel_radius_positive sigma k Hpos Hk) as Hr.
  destruct (makeGaussianKernel_inv sigma k Hk Hr) as (Hc & HR & Hkw).
  pose proof (makeGaussianKernel_shape sigma k Hk Hr) as [_ Hlen].
  destruct (kernel_scale_normal sigma Hvalid Hpos Hle) as (ms & es & Hs & Hms & Hes & H11).
  exists k. split; [exact Hk|]. split; [exact Hc|]. split; [exact Hr|].
  split; [apply kernel_radius_near_formula; assumption|].
  split; [|split; [exact Hlen|split]].
  - intros Hsmall. rewrite Hs in Hc.
    apply (kernel_radius_bound ms es (kr k) Hms); [|exact Hc].
    specialize (H11 Hsmall). lia.
  - intros d Hd. rewrite Hkw. apply kernel_weights_code_symmetric. exact Hd.
  - intros Hsq. rewrite Hkw, Hs.
    apply kernel_weights_code_sum; try assumption. lia.
Qed.

Lemma gaussian_kernel_contract_witness :
  ∃ k, makeGaussianKernel (L := example_libm_unit) example_half = Ok k ∧
       ceil_to_int (F32.mul F32.three (F32.max F32.milli example_half)) = Ok (kr k) ∧
       1 ≤ kr k ∧
       radius_formula example_half - 1 ≤ kr k ≤ radius_formula example_half ∧
       (SFleb example_half f32_2p11 = true → kr k ≤ 32768) ∧
       Z.of_nat (length (kw k)) = 2 * kr k + 1 ∧
       (∀ d, 0 ≤ d ≤ kr k →
          ∃ v, kw k !! Z.to_nat (kr k - d) = Some v ∧
               kw k !! Z.to_nat (kr k + d) = Some v) ∧
       (kr k ≤ 46340 →
          Forall (λ v, f32_nonneg v = true) (kw k) ∧
          2 ^ 24 * Z.abs (scaled_sum (kw k) - 2 ^ 149) ≤ (8 * kr k + 7) * 2 ^ 149).
Proof.
  apply (gaussian_kernel_contract example_libm_unit example_half).
  - vm_compute. reflexivity.
  - vm_compute. reflexivity.
  - vm_compute. reflexivity.
  - intros x _. simpl. unfold example_expf_unit.
    destruct (f32_unit (example_expf x)) eqn:Hv; [exact Hv | reflexivity].
  - vm_compute. reflexivity.
Defined.

(** C8 as stated fails in the radius: for [sigma = 11184811 * 2^-25], a
    little above 1/3, [ceil (3 * max (0.001, sigma))] is 2, and the kernel
    has radius 1 and three weights, because the binary32 product
    [3.0f * sigma] is rounded to 1 before the ceiling is taken. *)
Lemma gaussian_kernel_radius_inexact :
  let sigma := S754_finite false 11184811 (-25) in
  F32.valid sigma = true ∧ F32.ltb F32.zero sigma = true ∧
  radius_formula sigma = 2 ∧
  F32.mul F32.three (F32.max F32.milli sigma) = F32.one ∧
  ∃ k, makeGaussianKernel (L := example_libm) sigma = Ok k ∧
       kr k = 1 ∧ length (kw k) = 3%nat ∧ kr k ≠ radius_formula sigma.
Proof.
  cbv zeta. split; [vm_compute; reflexivity|]. split; [vm_compute; reflexivity|].
  split; [vm_compute; reflexivity|]. split; [vm_compute; reflexivity|].
  destruct (makeGaussianKernel (L := example_libm) (S754_finite false 11184811 (-25)))
    as [k| |] eqn:Hk; try (vm_compute in Hk; discriminate).
  exists k. split; [reflexivity|].
  assert (Hkr : kr k = 1) by (vm_compute in Hk; injection Hk as <-; reflexivity).
  split; [exact Hkr|]. split.
  - vm_compute in Hk. injection Hk as <-. reflexivity.
  - rewrite Hkr. vm_compute. discriminate.
Qed.

(** * Further properties *)

(** ** Contracts of downsample and blur *)

(** X1: [downsample] of an image stops in [rassert]: with tag 781234981
    when the requested width or height is not positive, else with tag
    781234982 when the source width or height is not positive, else with
    tag 781234983 when the channel count is neither 1 nor 3. *)
Theorem downsample_image_contract (L : LibM) (T : Type) (E : Elem T)
    (image : Image T) (w h : Z) :
  (w ≤ 0 ∨ h ≤ 0 → downsample_image image w h = Abort 781234981) ∧
  (0 < w → 0 < h → width image ≤ 0 ∨ height image ≤ 0 →
   downsample_image image w h = Abort 781234982) ∧
  (0 < w → 0 < h → 0 < width image → 0 < height image →
   channels image ≠ 1 → channels image ≠ 3 →
   downsample_image image w h = Abort 781234983).
Proof.
  unfold downsample_image. split; [|split].
  - intros Hwh.
    assert (Hc : (0 <? w) && (0 <? h) = false).
    { apply andb_false_iff. rewrite !Z.ltb_ge. lia. }
    rewrite Hc. reflexivity.
  - intros Hw Hh Hsrc.
    rewrite (proj2 (Z.ltb_lt 0 w) Hw), (proj2 (Z.ltb_lt 0 h) Hh). simpl.
    assert (Hc : (0 <? width image) && (0 <? height image) = false).
    { apply andb_false_iff. rewrite !Z.ltb_ge. lia. }
    rewrite Hc. reflexivity.
  - intros Hw Hh HW HH H1 H3.
    rewrite (proj2 (Z.ltb_lt 0 w) Hw), (proj2 (Z.ltb_lt 0 h) Hh). simpl.
    rewrite (proj2 (Z.ltb_lt 0 _) HW), (proj2 (Z.ltb_lt 0 _) HH). simpl.
    rewrite (proj2 (Z.eqb_neq _ 1) H1), (proj2 (Z.eqb_neq _ 3) H3). reflexivity.
Qed.

Lemma downsample_image_contract_witness :
  downsample_image (L := example_libm) (E := example_u8)
    (mkImage 2 2 1 [1; 2; 3; 4]) 0 5 = Abort 781234981 ∧
  downsample_image (L := example_libm) (E := example_u8)
    (mkImage 0 2 1 []) 1 1 = Abort 781234982 ∧
  downsample_image (L := example_libm) (E := example_u8)
    (mkImage 1 1 2 [1; 2]) 1 1 = Abort 781234983.
Proof.
  split; [|split].
  - apply (proj1 (downsample_image_contract example_libm Z example_u8
                    (mkImage 2 2 1 [1; 2; 3; 4]) 0 5)). lia.
  - apply (proj1 (proj2 (downsample_image_contract example_libm Z example_u8
                    (mkImage 0 2 1 []) 1 1))); simpl; lia.
  - apply (proj2 (proj2 (downsample_image_contract example_libm Z example_u8
                    (mkImage 1 1 2 [1; 2]) 1 1))); simpl; lia.
Defined.

(** X2: [blur] of an empty sequence is empty, whatever the strength; for a
    finite strength in (0, 2^20] and a sequence whose first colour has a
    channel count other than 1 or 3 it stops in [rassert] with tag
    981234003. *)
Theorem blur_colors_contract (L : LibM) (T : Type) (E : Elem T)
    (colors : list (Color T)) (c0 : Color T) (strength : spec_float) :
  blur_colors ([] : list (Color T)) strength = Ok [] ∧
  (F32.valid strength = true → F32.ltb F32.zero strength = true →
   SFleb strength f32_2p20 = true →
   color_channels c0 ≠ 1 → color_channels c0 ≠ 3 →
   blur_colors (c0 :: colors) strength = Abort 981234003).
Proof.
  split.
  - unfold blur_colors. destruct (negb (F32.ltb F32.zero strength)); reflexivity.
  - intros Hvalid Hpos Hle H1 H3.
    destruct (makeGaussianKernel_defined strength Hvalid Hpos Hle) as [k Hk].
    pose proof (makeGaussianKernel_radius_positive strength k Hpos Hk) as Hr.
    unfold blur_colors. rewrite Hpos. simpl.
    rewrite Hk. simpl.
    rewrite (proj2 (Z.eqb_neq (kr k) 0)) by lia.
    unfold vec_get. simpl.
    rewrite (proj2 (Z.eqb_neq _ 1) H1), (proj2 (Z.eqb_neq _ 3) H3). reflexivity.
Qed.

Lemma blur_colors_contract_witness :
  blur_colors (L := example_libm) (E := example_u8) ([] : list (Color Z)) example_half = Ok [] ∧
  blur_colors (L := example_libm) (E := example_u8) [[1; 2]; [3; 4]] example_half
  = Abort 981234003.
Proof.
  split.
  - apply (proj1 (blur_colors_contract example_libm Z example_u8 [] [] example_half)).
  - apply (proj2 (blur_colors_contract example_libm Z example_u8 [[3; 4]] [1; 2] example_half));
      vm_compute; (reflexivity || discriminate).
Defined.

(** ** Sequence resampling: length, idempotence and order *)

Lemma for_loop_length {A : Type} (body : Z → list A → res (list A)) (fuel : nat)
    (i : Z) (s s' : list A) :
  (∀ j t t', body j t = Ok t' → length t' = S (length t)) →
  for_loop fuel i body s = Ok s' → length s' = (length s + fuel)%nat.
Proof.
  intros Hbody. revert i s. induction fuel as [|fuel IH]; intros i s; simpl.
  - intros [= ->]. lia.
  - destruct (body i s) as [t| |] eqn:Hb; simpl; try discriminate.
    intros Hrest. rewrite (IH _ _ Hrest), (Hbody _ _ _ Hb). lia.
Qed.

(** ** The index formula is order-preserving *)

Lemma round_div_mono (a b c : Z) :
  0 < c → a ≤ b → round_div a c ≤ round_div b c.
Proof.
  intros Hc Hab. unfold round_div. apply Z.div_le_mono; lia.
Qed.

Lemma round_div_step (a c : Z) :
  0 < c → round_div (a + c) c = round_div a c + 1.
Proof.
  intros Hc. unfold round_div.
  replace (2 * (a + c) + c) with (2 * a + c + 1 * (2 * c)) by ring.
  rewrite Z.div_add by lia. reflexivity.
Qed.

Lemma round_div_same (i c : Z) : 0 < c → round_div (i * c) c = i.
Proof.
  intros Hc. apply round_div_unique; [exact Hc | nia].
Qed.

Lemma index_formula_range (i n m : Z) :
  1 ≤ m → 0 ≤ index_formula i n m ≤ m - 1.
Proof. intros Hm. unfold index_formula. apply clampi_range. lia. Qed.

Lemma index_formula_round (i n m : Z) :
  2 ≤ n → 1 ≤ m → 0 ≤ i ≤ n - 1 →
  index_formula i n m = round_div (i * (m - 1)) (n - 1).
Proof.
  intros Hn Hm Hi. unfold index_formula. apply clampi_id.
  pose proof (round_div_nearest (i * (m - 1)) (n - 1) ltac:(nia) ltac:(lia)). nia.
Qed.

Lemma index_formula_strict (i j n m : Z) :
  2 ≤ n → n ≤ m → 0 ≤ i → i < j → j ≤ n - 1 →
  index_formula i n m < index_formula j n m.
Proof.
  intros Hn Hm Hi Hij Hj.
  rewrite !index_formula_round by lia.
  apply Z.lt_le_trans with (round_div (i * (m - 1) + (n - 1)) (n - 1)).
  - rewrite round_div_step by lia. lia.
  - apply round_div_mono; [lia | nia].
Qed.

Lemma index_formula_same (i n : Z) :
  1 ≤ n → 0 ≤ i ≤ n - 1 → index_formula i n n = i.
Proof.
  intros Hn Hi. unfold index_formula.
  destruct (Z.eq_dec n 1) as [->|Hn1].
  - unfold clampi. simpl. lia.
  - rewrite round_div_same by lia. apply clampi_id. lia.
Qed.

(** Resampling up and back down returns to the same index *)
Lemma index_formula_inverse (i n m : Z) :
  2 ≤ n → n ≤ m → 0 ≤ i ≤ n - 1 →
  index_formula (index_formula i n m) m n = i.
Proof.
  intros Hn Hm Hi.
  destruct (Z.eq_dec n m) as [<-|Hnm].
  { rewrite (index_formula_same i n) by lia. apply index_formula_same; lia. }
  pose proof (index_formula_range i n m ltac:(lia)) as Hr.
  rewrite (index_formula_round _ m n) by lia.
  rewrite (index_formula_round i n m) in * by lia.
  pose proof (round_div_nearest (i * (m - 1)) (n - 1) ltac:(nia) ltac:(lia)) as HK.
  apply round_div_unique; [lia|]. lia.
Qed.

(** ** Sublists picked by increasing indices *)

Lemma sublist_increasing {A : Type} (out src : list A) (f : nat → nat) :
  (∀ i j, (i < j)%nat → (j < length out)%nat → (f i < f j)%nat) →
  (∀ i, (i < length out)%nat → out !! i = src !! f i) →
  sublist out src.
Proof.
  revert src f. induction out as [|x out IH]; intros src f Hinc Hget.
  - apply sublist_nil_l.
  - pose proof (Hget 0%nat ltac:(simpl; lia)) as H0. simpl in H0.
    symmetry in H0.
    rewrite <- (take_drop_middle src (f 0%nat) x H0).
    apply sublist_inserts_l. apply sublist_skip.
    apply (IH _ (λ i, (f (S i) - S (f 0%nat))%nat)).
    + intros i j Hij Hj.
      pose proof (Hinc (S i) (S j) ltac:(lia) ltac:(simpl; lia)).
      pose proof (Hinc 0%nat (S i) ltac:(lia) ltac:(simpl; lia)). lia.
    + intros i Hi.
      pose proof (Hinc 0%nat (S i) ltac:(lia) ltac:(simpl; lia)).
      rewrite lookup_drop.
      replace (S (f 0%nat) + (f (S i) - S (f 0%nat)))%nat with (f (S i)) by lia.
      apply (Hget (S i)). simpl. lia.
Qed.

Section DownsampleColorsMore.
Context {L : LibM} {T : Type}.

Lemma downsample_colors_Ok_length (colors out : list (Color T)) (n : Z) :
  downsample_colors colors n = Ok out →
  out = colors ∨ out = [] ∨ Z.of_nat (length out) = n.
Proof.
  unfold downsample_colors.
  destruct (Z.leb_spec n 0); [intros [= <-]; auto|].
  destruct (decide (colors = [])); [intros [= <-]; auto|].
  destruct (Z.leb_spec (wrap_int (Z.of_nat (length colors))) n); [intros [= <-]; auto|].
  destruct (Z.eqb_spec n 1) as [->|Hn1].
  - destruct (vec_get colors _); simpl; try discriminate.
    intros [= <-]. right. right. reflexivity.
  - intros Hloop. right. right.
    apply for_loop_length in Hloop.
    + simpl in Hloop. lia.
    + intros j t t'. destruct (vec_get colors _); simpl; try discriminate.
      intros [= <-]. rewrite length_app. simpl. lia.
Qed.

Lemma downsample_colors_single (colors : list (Color T)) :
  1 < Z.of_nat (length colors) ≤ INT_MAX →
  ∃ c, colors !! Z.to_nat (Z.of_nat (length colors) / 2) = Some c ∧
       downsample_colors colors 1 = Ok [c].
Proof.
  intros Hlen. set (m := Z.of_nat (length colors)) in *.
  assert (Hm2 : 0 ≤ m / 2 < m).
  { split; [apply Z.div_pos; lia | apply Z.div_lt_upper_bound; lia]. }
  destruct (lookup_lt_is_Some_2 colors (Z.to_nat (m / 2))) as [c Hc];
    [unfold m in *; lia|].
  exists c. split; [exact Hc|].
  unfold downsample_colors. simpl.
  destruct (decide (colors = [])) as [->|_]; [simpl in *; lia|].
  rewrite wrap_int_id by (unfold INT_MIN, INT_MAX in *; lia). fold m.
  destruct (Z.leb_spec m 1) as [Hle|Hgt]; [lia|].
  rewrite Z.quot_div_nonneg by lia.
  rewrite (vec_get_Ok colors (m / 2) c) by (auto; lia). reflexivity.
Qed.

(** X3: the resampled sequence has [min n (length colors)] elements, and
    none for [n <= 0]. *)
Theorem downsample_colors_length (colors : list (Color T)) (n : Z) :
  Z.of_nat (length colors) ≤ INT_MAX →
  ∃ out, downsample_colors colors n = Ok out ∧
    Z.of_nat (length out) = Z.max 0 (Z.min n (Z.of_nat (length colors))).
Proof.
  intros Hmax.
  pose proof (downsample_colors_shortcuts L T colors n) as (H0 & _ & Hpass).
  destruct (Z.le_gt_cases n 0) as [Hn|Hn].
  { exists []. split; [apply H0; exact Hn | simpl; lia]. }
  destruct (Z.le_gt_cases (Z.of_nat (length colors)) n) as [Hle|Hgt].
  { exists colors. split; [apply Hpass; exact Hle | lia]. }
  destruct (Z.eq_dec n 1) as [->|Hn1].
  - destruct (downsample_colors_single colors ltac:(lia)) as (c & _ & Hc).
    exists [c]. split; [exact Hc | simpl; lia].
  - destruct (downsample_colors_spec colors n ltac:(lia) Hmax) as (out & Hout & Hlen & _).
    exists out. split; [exact Hout | lia].
Qed.

(** X4: resampling the result again to the same length changes nothing. *)
Theorem downsample_colors_idempotent (colors : list (Color T)) (n : Z) :
  Z.of_nat (length colors) ≤ INT_MAX → n ≤ INT_MAX →
  ∃ out, downsample_colors colors n = Ok out ∧ downsample_colors out n = Ok out.
Proof.
  intros Hmax Hn.
  destruct (downsample_colors_outcome colors n Hmax) as [out Hout].
  exists out. split; [exact Hout|].
  pose proof (downsample_colors_shortcuts L T out n) as (H0 & Hnil & Hpass).
  destruct (downsample_colors_Ok_length colors out n Hout) as [->|[->|Hlen]].
  - exact Hout.
  - apply Hnil. reflexivity.
  - apply Hpass. lia.
Qed.

(** X5: where [(n - 1) * (length - 1) < 2^52], the resampled sequence is a
    sublist of the source: source elements in their order, none taken
    twice. *)
Theorem downsample_colors_sublist (colors : list (Color T)) (n : Z) :
  Z.of_nat (length colors) ≤ INT_MAX →
  (n - 1) * (Z.of_nat (length colors) - 1) < 2 ^ 52 →
  ∃ out, downsample_colors colors n = Ok out ∧ sublist out colors.
Proof.
  intros Hmax Hsmall.
  pose proof (downsample_colors_shortcuts L T colors n) as (H0 & _ & Hpass).
  destruct (Z.le_gt_cases n 0) as [Hn|Hn].
  { exists []. split; [apply H0; exact Hn | apply sublist_nil_l]. }
  destruct (Z.le_gt_cases (Z.of_nat (length colors)) n) as [Hle|Hgt].
  { exists colors. split; [apply Hpass; exact Hle | reflexivity]. }
  destruct (Z.eq_dec n 1) as [->|Hn1].
  - destruct (downsample_colors_single colors ltac:(lia)) as (c & Hc & Hout).
    exists [c]. split; [exact Hout|].
    apply singleton_sublist_l. eapply list_elem_of_lookup_2. exact Hc.
  - destruct (downsample_colors_spec colors n ltac:(lia) Hmax) as (out & Hout & Hlen & Hidx).
    exists out. split; [exact Hout|].
    set (m := Z.of_nat (length colors)) in *.
    apply (sublist_increasing out colors (λ i, Z.to_nat (index_formula (Z.of_nat i) n m))).
    + intros i j Hij Hj.
      pose proof (index_formula_strict (Z.of_nat i) (Z.of_nat j) n m
                    ltac:(lia) ltac:(lia) ltac:(lia) ltac:(lia) ltac:(lia)).
      pose proof (index_formula_range (Z.of_nat i) n m ltac:(lia)). lia.
    + intros i Hi.
      pose proof (Hidx (Z.of_nat i) ltac:(lia)) as Hget.
      rewrite Nat2Z.id in Hget. rewrite Hget.
      rewrite map_index_round_exact; [reflexivity | unfold INT_MAX in *; lia | lia | lia |].
      nia.
Qed.
End DownsampleColorsMore.

Lemma downsample_colors_length_witness :
  ∃ out, downsample_colors (L := example_libm) [[1]; [2]; [3]; [4]; [5]] 3 = Ok out ∧
    Z.of_nat (length out) = Z.max 0 (Z.min 3 (Z.of_nat (length [[1]; [2]; [3]; [4]; [5]]))).
Proof.
  apply (downsample_colors_length (L := example_libm) [[1]; [2]; [3]; [4]; [5]] 3).
  unfold INT_MAX. simpl. lia.
Defined.

Lemma downsample_colors_idempotent_witness :
  ∃ out, downsample_colors (L := example_libm) [[1]; [2]; [3]; [4]; [5]] 3 = Ok out ∧
         downsample_colors (L := example_libm) out 3 = Ok out.
Proof.
  apply (downsample_colors_idempotent (L := example_libm) [[1]; [2]; [3]; [4]; [5]] 3);
    unfold INT_MAX; simpl; lia.
Defined.

Lemma downsample_colors_sublist_witness :
  ∃ out, downsample_colors (L := example_libm) [[1]; [2]; [3]; [4]; [5]] 3 = Ok out ∧
         sublist out [[1]; [2]; [3]; [4]; [5]].
Proof.
  apply (downsample_colors_sublist (L := example_libm) [[1]; [2]; [3]; [4]; [5]] 3).
  - unfold INT_MAX. simpl. lia.
  - simpl. lia.
Defined.

(** ** Rasters are determined by their elements *)

Lemma flat_split (W Hh C p : Z) :
  0 ≤ W → 0 ≤ Hh → 0 ≤ C → 0 ≤ p < W * Hh * C →
  ∃ y x c, 0 ≤ y < Hh ∧ 0 ≤ x < W ∧ 0 ≤ c < C ∧ p = (y * W + x) * C + c.
Proof.
  intros HW HH HC Hp.
  assert (0 < C) by nia. assert (0 < W) by nia.
  exists (p / C / W), ((p / C) mod W), (p mod C).
  pose proof (Z.mod_pos_bound p C ltac:(lia)).
  pose proof (Z.mod_pos_bound (p / C) W ltac:(lia)).
  pose proof (Z.div_mod p C ltac:(lia)) as E1.
  pose proof (Z.div_mod (p / C) W ltac:(lia)) as E2.
  assert (0 ≤ p / C) by (apply Z.div_pos; lia).
  assert (0 ≤ p / C / W) by (apply Z.div_pos; lia).
  assert (p / C < W * Hh) by (apply Z.div_lt_upper_bound; nia).
  assert (p / C / W < Hh) by (apply Z.div_lt_upper_bound; nia).
  repeat split; try lia; nia.
Qed.

Lemma img_get_lookup {T : Type} (img : Image T) (y x c : Z) (v : T) :
  width img * height img * channels img < 2 ^ 64 →
  0 ≤ y < height img → 0 ≤ x < width img → 0 ≤ c < channels img →
  img_get img y x c = Ok v →
  data img !! Z.to_nat ((y * width img + x) * channels img + c) = Some v.
Proof.
  intros Hsz Hy Hx Hc. unfold img_get.
  destruct (in_image img y x c); [|discriminate].
  rewrite (flat_index_eq _ (height img) _ x y c Hsz Hx Hy Hc).
  intros Hget. apply vec_get_inv in Hget. apply Hget.
Qed.

Lemma image_eq {T : Type} (a b : Image T) :
  wf_image a →
  width b = width a → height b = height a → channels b = channels a →
  Z.of_nat (length (data b)) = width a * height a * channels a →
  (∀ y x c, 0 ≤ y < height a → 0 ≤ x < width a → 0 ≤ c < channels a →
     ∃ v, img_get a y x c = Ok v ∧ img_get b y x c = Ok v) →
  b = a.
Proof.
  intros Hwf HW HH HC Hlen Hpix.
  pose proof (wf_image_size a Hwf) as Hsz.
  destruct Hwf as (HWr & HHr & HCr & Hlena & _).
  assert (Hdata : data b = data a).
  { apply list_eq. intros p.
    destruct (decide (Z.of_nat p < width a * height a * channels a)) as [Hp|Hp].
    - destruct (flat_split (width a) (height a) (channels a) (Z.of_nat p))
        as (y & x & c & Hy & Hx & Hc & E); try lia.
      destruct (Hpix y x c Hy Hx Hc) as (v & Ha & Hb).
      apply img_get_lookup in Ha; try assumption.
      apply img_get_lookup in Hb; rewrite ?HW, ?HH, ?HC; try assumption.
      rewrite HW, HC in Hb. rewrite <- E, Nat2Z.id in Ha, Hb. congruence.
    - rewrite !lookup_ge_None_2 by lia. reflexivity. }
  destruct a, b; simpl in *. congruence.
Qed.

Section DownsampleImageMore.
Context {L : LibM} {T : Type} {E : Elem T}.

(** X6: an image of width and height up to 2^26 resampled to its own size
    is returned unchanged. *)
Theorem downsample_image_same_size (image : Image T) :
  wf_image image →
  0 < width image → 0 < height image →
  channels image = 1 ∨ channels image = 3 →
  (width image - 1) * (width image - 1) < 2 ^ 52 →
  (height image - 1) * (height image - 1) < 2 ^ 52 →
  downsample_image image (width image) (height image) = Ok image.
Proof.
  intros Hwf HW HH Hch HsW HsH.
  pose proof Hwf as (HWr & HHr & _).
  destruct (downsample_image_spec image (width image) (height image) Hwf HW HH Hch
              ltac:(lia) ltac:(lia))
    as (out & Hout & HoW & HoH & HoC & Hlen & Hpix).
  rewrite Hout. f_equal.
  apply image_eq; try assumption.
  intros y x c Hy Hx Hc.
  exists (pixel image y x c). split.
  - apply img_get_wf; assumption.
  - rewrite (Hpix y x c Hy Hx Hc). do 2 f_equal.
    + unfold source_index. destruct (Z.eqb_spec (height image) 1) as [E1|NE].
      * rewrite E1. change (safe_mid_index 1) with 0. lia.
      * rewrite map_index_round_exact by (try lia; nia).
        apply index_formula_same; lia.
    + unfold source_index. destruct (Z.eqb_spec (width image) 1) as [E1|NE].
      * rewrite E1. change (safe_mid_index 1) with 0. lia.
      * rewrite map_index_round_exact by (try lia; nia).
        apply index_formula_same; lia.
Qed.

(** X7: where the target is not larger than the source and the products
    of the sizes are below 2^52, the result is a sub-grid of the source:
    rows and columns are taken in increasing order, none twice, and every
    channel of an output pixel comes from the same source pixel. *)
Theorem downsample_image_subgrid (image : Image T) (w h : Z) :
  wf_image image →
  channels image = 1 ∨ channels image = 3 →
  1 ≤ w ≤ width image → 1 ≤ h ≤ height image →
  (w - 1) * (width image - 1) < 2 ^ 52 →
  (h - 1) * (height image - 1) < 2 ^ 52 →
  ∃ out (sy sx : Z → Z),
    downsample_image image w h = Ok out ∧
    (∀ y y', 0 ≤ y → y < y' → y' < h → sy y < sy y') ∧
    (∀ x x', 0 ≤ x → x < x' → x' < w → sx x < sx x') ∧
    ∀ y x c, 0 ≤ y < h → 0 ≤ x < w → 0 ≤ c < channels image →
      0 ≤ sy y < height image ∧ 0 ≤ sx x < width image ∧
      ∃ v, img_get image (sy y) (sx x) c = Ok v ∧ img_get out y x c = Ok v.
Proof.
  intros Hwf Hch Hw Hh HsW HsH.
  pose proof Hwf as (HWr & HHr & _).
  destruct (downsample_image_spec image w h Hwf ltac:(lia) ltac:(lia) Hch
              ltac:(lia) ltac:(lia))
    as (out & Hout & HoW & HoH & HoC & Hlen & Hpix).
  exists out, (source_index h (height image)), (source_index w (width image)).
  split; [exact Hout|]. split; [|split].
  - intros y y' Hy Hyy Hy'. unfold source_index.
    destruct (Z.eqb_spec h 1); [lia|].
    rewrite !map_index_round_exact by (try lia; nia).
    apply index_formula_strict; lia.
  - intros x x' Hx Hxx Hx'. unfold source_index.
    destruct (Z.eqb_spec w 1); [lia|].
    rewrite !map_index_round_exact by (try lia; nia).
    apply index_formula_strict; lia.
  - intros y x c Hy Hx Hc.
    pose proof (source_index_range h (height image) y ltac:(lia)) as Hsy.
    pose proof (source_index_range w (width image) x ltac:(lia)) as Hsx.
    split; [exact Hsy|]. split; [exact Hsx|].
    eexists. split; [apply img_get_wf; assumption | apply Hpix; assumption].
Qed.
End DownsampleImageMore.

Lemma downsample_image_same_size_witness :
  downsample_image (L := example_libm) (E := example_u8)
    (mkImage 3 2 1 [1; 2; 3; 4; 5; 6]) 3 2 = Ok (mkImage 3 2 1 [1; 2; 3; 4; 5; 6]).
Proof.
  apply (downsample_image_same_size (L := example_libm) (E := example_u8)
           (mkImage 3 2 1 [1; 2; 3; 4; 5; 6])).
  - unfold wf_image, INT_MAX, PTRDIFF_MAX. simpl. lia.
  - simpl. lia.
  - simpl. lia.
  - left. reflexivity.
  - simpl. lia.
  - simpl. lia.
Defined.

Lemma downsample_image_subgrid_witness :
  let image := mkImage 5 5 1 (seqZ 0 25) in
  ∃ out (sy sx : Z → Z),
    downsample_image (L := example_libm) (E := example_u8) image 3 3 = Ok out ∧
    (∀ y y', 0 ≤ y → y < y' → y' < 3 → sy y < sy y') ∧
    (∀ x x', 0 ≤ x → x < x' → x' < 3 → sx x < sx x') ∧
    ∀ y x c, 0 ≤ y < 3 → 0 ≤ x < 3 → 0 ≤ c < channels image →
      0 ≤ sy y < height image ∧ 0 ≤ sx x < width image ∧
      ∃ v, img_get image (sy y) (sx x) c = Ok v ∧ img_get out y x c = Ok v.
Proof.
  apply (downsample_image_subgrid (L := example_libm) (E := example_u8)
           (mkImage 5 5 1 (seqZ 0 25)) 3 3).
  - unfold wf_image, INT_MAX, PTRDIFF_MAX. simpl. lia.
  - left. reflexivity.
  - simpl. lia.
  - simpl. lia.
  - simpl. lia.
  - simpl. lia.
Defined.

(** ** The kernel is symmetric *)

Section KernelWeights.
Context {L : LibM}.

Lemma kernel_raw_even (inv2s2 : spec_float) (i : Z) :
  kernel_raw inv2s2 (- i) = kernel_raw inv2s2 i.
Proof. unfold kernel_raw. rewrite Z.mul_opp_opp. reflexivity. Qed.

Lemma kernel_loop_weights (R : Z) (inv2s2 : spec_float) (w : list spec_float) :
  0 ≤ R < 2 ^ 30 → Z.of_nat (length w) = 2 * R + 1 →
  ∃ ws, for_range (- R) (R + 1) (λ i (ws : list spec_float * spec_float),
          let v := expf (F32.mul (F32.opp (F32.of_int (wrap_int (i * i)))) inv2s2) in
          w ← vec_set ws.1 (wrap_size (wrap_int (i + R))) v;
          Ok (w, F32.add ws.2 v)) (w, F32.zero) = Ok ws ∧
        Z.of_nat (length ws.1) = 2 * R + 1 ∧
        ∀ i, - R ≤ i ≤ R → ws.1 !! Z.to_nat (i + R) = Some (kernel_raw inv2s2 i).
Proof.
  intros HR Hlen.
  destruct (for_range_inv
    (λ j (ws : list spec_float * spec_float),
       Z.of_nat (length ws.1) = 2 * R + 1 ∧
       ∀ i, - R ≤ i < j → ws.1 !! Z.to_nat (i + R) = Some (kernel_raw inv2s2 i))
    (λ i (ws : list spec_float * spec_float),
          let v := expf (F32.mul (F32.opp (F32.of_int (wrap_int (i * i)))) inv2s2) in
          w ← vec_set ws.1 (wrap_size (wrap_int (i + R))) v;
          Ok (w, F32.add ws.2 v))
    (- R) (R + 1) (w, F32.zero)) as (ws & Hws & Hl & Hall).
  - lia.
  - split; [exact Hlen | intros i Hi; lia].
  - intros j ws Hj [Hl Hprev]. cbv zeta.
    rewrite (wrap_int_id (j + R)) by (unfold INT_MIN, INT_MAX; lia).
    rewrite wrap_size_id by lia.
    rewrite vec_set_Ok by lia. simpl.
    eexists. split; [reflexivity|]. simpl. split.
    + rewrite length_insert. exact Hl.
    + intros i Hi. destruct (Z.eq_dec i j) as [->|Hne].
      * rewrite list_lookup_insert_eq by lia. reflexivity.
      * rewrite list_lookup_insert_ne by lia. apply Hprev. lia.
  - exists ws. split; [exact Hws|]. split; [exact Hl|].
    intros i Hi. apply Hall. lia.
Qed.

(** X8: the kernel of a strength greater than zero has [2 * r + 1]
    weights, and the weights at offsets [- d] and [d] from the centre are
    equal. *)
Theorem makeGaussianKernel_symmetric (sigma : spec_float) (k : Kernel1D) :
  F32.ltb F32.zero sigma = true →
  makeGaussianKernel sigma = Ok k →
  Z.of_nat (length (kw k)) = 2 * kr k + 1 ∧
  ∀ d, 0 ≤ d ≤ kr k →
    ∃ v, kw k !! Z.to_nat (kr k - d) = Some v ∧ kw k !! Z.to_nat (kr k + d) = Some v.
Proof.
  intros Hpos. unfold makeGaussianKernel. rewrite Hpos. simpl.
  destruct (ceil_to_int _) as [c| |] eqn:Hc; simpl; try discriminate.
  apply ceil_to_int_range in Hc.
  set (R := Z.max 0 c).
  assert (HR : 0 ≤ R ≤ INT_MAX) by (unfold R, INT_MIN, INT_MAX in *; lia).
  unfold vec_new.
  destruct (Z.leb_spec (wrap_size (wrap_int (wrap_int (2 * R) + 1))) PTRDIFF_MAX)
    as [Hfit|_]; simpl; [|discriminate].
  destruct (kernel_size_fits R HR Hfit) as [HR30 Hsize]. rewrite Hsize.
  set (inv2s2 := F32.div F32.one (F32.mul (F32.mul F32.two (F32.max F32.milli sigma))
                                          (F32.max F32.milli sigma))).
  destruct (kernel_loop_weights R inv2s2 (replicate (Z.to_nat (2 * R + 1)) F32.zero))
    as (ws & Hws & Hlen & Hat).
  - lia.
  - rewrite length_replicate. lia.
  - cbv zeta in Hws |- *. rewrite Hws. simpl. intros [= <-]. simpl. split.
    + destruct (F32.ltb F32.zero ws.2); [rewrite length_fmap|]; exact Hlen.
    + intros d Hd.
      pose proof (Hat (- d) ltac:(lia)) as Hl.
      pose proof (Hat d ltac:(lia)) as Hr.
      rewrite kernel_raw_even in Hl.
      replace (- d + R) with (R - d) in Hl by lia.
      replace (d + R) with (R + d) in Hr by lia.
      destruct (F32.ltb F32.zero ws.2).
      * eexists. rewrite !list_lookup_fmap, Hl, Hr. split; reflexivity.
      * eexists. split; [exact Hl | exact Hr].
Qed.
End KernelWeights.

Lemma makeGaussianKernel_symmetric_witness :
  Z.of_nat (length (kw example_kernel)) = 2 * kr example_kernel + 1 ∧
  ∀ d, 0 ≤ d ≤ kr example_kernel →
    ∃ v, kw example_kernel !! Z.to_nat (kr example_kernel - d) = Some v ∧
         kw example_kernel !! Z.to_nat (kr example_kernel + d) = Some v.
Proof.
  apply (makeGaussianKernel_symmetric (L := example_libm) example_half example_kernel);
    vm_compute; reflexivity.
Defined.

(** ** Conversion of 8-bit values to float and back *)

Section ElementRoundTrip.
Context {L : LibM}.

Lemma u8_round_trip_all :
  forallb (λ v, from_f_u8 (F32.of_int v) =? v) (seqZ 0 256) = true.
Proof. vm_compute. reflexivity. Qed.

(** X9: an 8-bit value converted to float by [to_f] and back by [from_f]
    is unchanged; so is a float element. *)
Theorem to_f_from_f_round_trip :
  (∀ v : Z, 0 ≤ v ≤ 255 → from_f (Elem := uint8_elem) (to_f (Elem := uint8_elem) v) = v) ∧
  (∀ v : spec_float, from_f (Elem := float_elem) (to_f (Elem := float_elem) v) = v).
Proof.
  split; [|reflexivity].
  intros v Hv. simpl.
  pose proof u8_round_trip_all as Hall.
  rewrite forallb_forall in Hall.
  apply Z.eqb_eq. apply Hall. apply list_elem_of_In, elem_of_seqZ. lia.
Qed.
End ElementRoundTrip.

Lemma to_f_from_f_round_trip_witness :
  from_f (Elem := @uint8_elem example_libm) (to_f (Elem := @uint8_elem example_libm) 200) = 200.
Proof.
  apply (proj1 (to_f_from_f_round_trip (L := example_libm))). lia.
Defined.

(** ** A blurred element depends on the window around it *)

Lemma convolve_local (k : Kernel1D) (f g : Z → spec_float) (extent pos : Z) :
  0 ≤ pos < extent →
  (∀ s, 0 ≤ s < extent → pos - kr k ≤ s ≤ pos + kr k → f s = g s) →
  convolve k f extent pos = convolve k g extent pos.
Proof.
  intros Hpos Hfg. unfold convolve. apply foldl_ext_in. intros acc d Hd.
  apply elem_of_seqZ in Hd.
  rewrite Hfg; [reflexivity | |]; unfold clamp_to_edge; lia.
Qed.

Section BlurLocal.
Context {L : LibM} {T : Type} {E : Elem T}.

Lemma blur_image_reference_local (k : Kernel1D) (a b : Image T) (y x c : Z) :
  width b = width a → height b = height a →
  0 ≤ y < height a → 0 ≤ x < width a →
  (∀ sy sx, 0 ≤ sy < height a → 0 ≤ sx < width a →
     y - kr k ≤ sy ≤ y + kr k → x - kr k ≤ sx ≤ x + kr k →
     pixel a sy sx c = pixel b sy sx c) →
  blur_image_reference k a y x c = blur_image_reference k b y x c.
Proof.
  intros HW HH Hy Hx Hwin. unfold blur_image_reference. f_equal.
  rewrite HH. apply convolve_local; [lia|].
  intros sy Hsy Hnear. unfold blur_horizontal_reference.
  rewrite HW. apply convolve_local; [lia|].
  intros sx Hsx Hnearx. f_equal. apply Hwin; lia.
Qed.

(** X10: a blurred pixel depends only on the source pixels of its channel
    at most [r] rows and [r] columns away: two images of the same shape that
    agree there have the same blurred value. *)
Theorem blur_image_local (a b : Image T) (strength : spec_float) (k : Kernel1D)
    (y x c : Z) :
  makeGaussianKernel strength = Ok k → 1 ≤ kr k →
  wf_image a → wf_image b →
  width b = width a → height b = height a → channels b = channels a →
  channels a = 1 ∨ channels a = 3 →
  width a + kr k ≤ INT_MAX → height a + kr k ≤ INT_MAX →
  0 ≤ y < height a → 0 ≤ x < width a → 0 ≤ c < channels a →
  (∀ sy sx, 0 ≤ sy < height a → 0 ≤ sx < width a →
     y - kr k ≤ sy ≤ y + kr k → x - kr k ≤ sx ≤ x + kr k →
     img_get a sy sx c = img_get b sy sx c) →
  ∃ oa ob v, blur_image a strength = Ok oa ∧ blur_image b strength = Ok ob ∧
    img_get oa y x c = Ok v ∧ img_get ob y x c = Ok v.
Proof.
  intros Hmk Hr Hwfa Hwfb HW HH HC Hch HfitW HfitH Hy Hx Hc Hwin.
  destruct (blur_image_spec a strength k Hmk Hr Hwfa ltac:(lia) ltac:(lia) Hch HfitW HfitH)
    as (oa & Hoa & _ & _ & _ & _ & Hpa).
  destruct (blur_image_spec b strength k Hmk Hr Hwfb ltac:(lia) ltac:(lia)
              ltac:(rewrite HC; exact Hch) ltac:(lia) ltac:(lia))
    as (ob & Hob & _ & _ & _ & _ & Hpb).
  exists oa, ob, (blur_image_reference k a y x c).
  split; [exact Hoa|]. split; [exact Hob|]. split.
  - apply Hpa; assumption.
  - rewrite Hpb by lia. f_equal. symmetry.
    apply blur_image_reference_local; try assumption.
    intros sy sx Hsy Hsx Hny Hnx.
    pose proof (Hwin sy sx Hsy Hsx Hny Hnx) as Hsame.
    rewrite (img_get_wf a sy sx c Hwfa Hsy Hsx Hc) in Hsame.
    rewrite (img_get_wf b sy sx c Hwfb) in Hsame by lia.
    congruence.
Qed.

(** X11: [blur] keeps the shape: the blurred image is well-formed with
    the width, height and channel count of the source, and the blurred
    sequence has the length and the channel count of the source; for every
    strength that is not greater than zero, or finite and at most 2^20. *)
Theorem blur_keeps_shape (image : Image T) (colors : list (Color T)) (C : Z)
    (strength : spec_float) :
  wf_image image →
  0 < width image → 0 < height image →
  channels image = 1 ∨ channels image = 3 →
  Z.of_nat (length colors) ≤ INT_MAX →
  C = 1 ∨ C = 3 →
  Forall (λ col, color_channels col = C) colors →
  F32.ltb F32.zero strength = false ∨
    (F32.valid strength = true ∧ SFleb strength f32_2p20 = true) →
  (∃ out, blur_image image strength = Ok out ∧
     wf_image out ∧ width out = width image ∧ height out = height image ∧
     channels out = channels image) ∧
  (∃ out, blur_colors colors strength = Ok out ∧
     length out = length colors ∧ Forall (λ col, color_channels col = C) out).
Proof.
  intros Hwf HW HH Hch Hmax HC Hcols Hs.
  destruct (F32.ltb F32.zero strength) eqn:Hpos.
  - destruct Hs as [|[Hvalid Hle]]; [discriminate|].
    destruct (makeGaussianKernel_defined strength Hvalid Hpos Hle) as [k Hk].
    pose proof (makeGaussianKernel_radius_positive strength k Hpos Hk) as Hr.
    split.
    + destruct (blur_image_total image strength k Hk Hr Hwf HW HH Hch)
        as (out & Hout & HoW & HoH & HoC & HoL & _).
      exists out. split; [exact Hout|].
      destruct Hwf as (HWr & HHr & HCr & Hlen & Hfit).
      repeat split; lia.
    + destruct (decide (colors = [])) as [->|Hne].
      * exists []. split; [|auto].
        unfold blur_colors. rewrite Hpos. reflexivity.
      * assert (Hlen : 1 ≤ Z.of_nat (length colors))
          by (destruct colors; [congruence | simpl; lia]).
        exists (blur_colors_code_list k colors C).
        split; [exact (blur_colors_total colors strength k C Hk Hr Hlen Hmax HC Hcols)|].
        unfold blur_colors_code_list. split.
        -- rewrite length_fmap, length_seqZ. lia.
        -- apply Forall_fmap, Forall_forall. intros i _. simpl.
           unfold color_channels. rewrite length_fmap, length_seqZ. lia.
  - split.
    + exists image. split; [|auto].
      unfold blur_image. rewrite Hpos. reflexivity.
    + exists colors. split; [|auto].
      unfold blur_colors. rewrite Hpos. reflexivity.
Qed.
End BlurLocal.

Lemma blur_image_local_witness :
  let a := mkImage 5 1 1 [10; 20; 30; 40; 50] in
  let b := mkImage 5 1 1 [10; 20; 30; 40; 99] in
  ∃ oa ob v,
    blur_image (L := example_libm) (E := example_u8) a example_half = Ok oa ∧
    blur_image (L := example_libm) (E := example_u8) b example_half = Ok ob ∧
    img_get oa 0 1 0 = Ok v ∧ img_get ob 0 1 0 = Ok v.
Proof.
  apply (blur_image_local (L := example_libm) (E := example_u8)
           (mkImage 5 1 1 [10; 20; 30; 40; 50]) (mkImage 5 1 1 [10; 20; 30; 40; 99])
           example_half example_kernel 0 1 0).
  - vm_compute. reflexivity.
  - vm_compute. discriminate.
  - unfold wf_image, INT_MAX, PTRDIFF_MAX. simpl. lia.
  - unfold wf_image, INT_MAX, PTRDIFF_MAX. simpl. lia.
  - reflexivity.
  - reflexivity.
  - reflexivity.
  - left. reflexivity.
  - unfold INT_MAX. vm_compute. discriminate.
  - unfold INT_MAX. vm_compute. discriminate.
  - simpl. lia.
  - simpl. lia.
  - simpl. lia.
  - change (kr example_kernel) with 2. simpl. intros sy sx Hsy Hsx _ Hnx.
    assert (sy = 0) as -> by lia.
    assert (sx = 0 ∨ sx = 1 ∨ sx = 2 ∨ sx = 3) as [->|[->|[->| ->]]] by lia;
      reflexivity.
Defined.

Lemma blur_keeps_shape_witness :
  let image := mkImage 3 2 1 [0; 0; 255; 255; 0; 0] in
  let colors := [[0; 0; 0]; [255; 255; 255]; [0; 0; 0]] in
  (∃ out, blur_image (L := example_libm) (E := example_u8) image example_half = Ok out ∧
     wf_image out ∧ width out = width image ∧ height out = height image ∧
     channels out = channels image) ∧
  (∃ out, blur_colors (L := example_libm) (E := example_u8) colors example_half = Ok out ∧
     length out = length colors ∧ Forall (λ col, color_channels col = 3) out).
Proof.
  apply (blur_keeps_shape (L := example_libm) (E := example_u8)
           (mkImage 3 2 1 [0; 0; 255; 255; 0; 0])
           [[0; 0; 0]; [255; 255; 255]; [0; 0; 0]] 3 example_half).
  - unfold wf_image, INT_MAX, PTRDIFF_MAX. simpl. lia.
  - simpl. lia.
  - simpl. lia.
  - left. reflexivity.
  - unfold INT_MAX. simpl. lia.
  - right. reflexivity.
  - repeat constructor.
  - right. split; vm_compute; reflexivity.
Defined.

(** ** The helpers of the tests *)

Lemma vec_reserve_Ok (n : Z) : 0 ≤ n ≤ INT_MAX → vec_reserve (wrap_size n) = Ok tt.
Proof.
  unfold INT_MAX. intros Hn. unfold vec_reserve.
  rewrite wrap_size_id by lia.
  rewrite (proj2 (Z.leb_le n PTRDIFF_MAX)) by (unfold PTRDIFF_MAX; lia). reflexivity.
Qed.

Lemma vec_reserve_negative (n : Z) :
  INT_MIN ≤ n < 0 → vec_reserve (wrap_size n) = Fault LengthError.
Proof.
  unfold INT_MIN. intros Hn. unfold vec_reserve, wrap_size.
  replace n with (n + 2 ^ 64 + (-1) * 2 ^ 64) by ring.
  rewrite Z.mod_add by lia. rewrite Z.mod_small by lia.
  destruct (Z.leb_spec (n + 2 ^ 64) PTRDIFF_MAX) as [H|H]; [|reflexivity].
  unfold PTRDIFF_MAX in H. lia.
Qed.

Section TestsProofs.
Context {L : LibM}.

Lemma lround_scaled_quotient (a i c : Z) :
  0 < a < 2 ^ 31 → 0 < i ≤ c → 0 < c < 2 ^ 31 → a * i < 2 ^ 52 →
  lround (F64.div (F64.mul (F64.of_int a) (F64.of_int i)) (F64.of_int c))
  = round_div (a * i) c.
Proof.
  intros Ha Hi Hc Hsmall.
  destruct (mul_of_int a i Ha ltac:(lia)) as (M & E & V & -> & HM & HV & HE & Herr).
  assert (HA : 0 < a * i) by nia.
  assert (HVA : V = a * i).
  { change (2 ^ 53) with 9007199254740992 in Herr.
    change (2 ^ 52) with 4503599627370496 in Hsmall. lia. }
  subst V.
  destruct (div_lround M E (a * i) c HM HV ltac:(lia) Hc) as (m1 & u & Hu & Hm1 & Hrel & ->).
  { split; [lia|]. change (2 ^ 32) with 4294967296. change (2 ^ 31) with 2147483648 in *. nia. }
  apply round_div_exact; try lia.
  pose proof (pow2_pos u ltac:(lia)) as Hpu.
  change (2 ^ 52) with 4503599627370496 in *.
  change (2 ^ 53) with 9007199254740992 in *.
  destruct (Z.lt_ge_cases c (2 ^ u)) as [|Hge]; [assumption|]. nia.
Qed.

(** The red channel of element [i] of the gradient of [m] elements. *)
Lemma gradient_red (m i : Z) :
  1 ≤ m ≤ INT_MAX → 0 ≤ i < m →
  wrap_u8 (lround (F64.div (F64.mul f64_255 (F64.of_int i))
                           (F64.of_int (Z.max 1 (wrap_int (m - 1))))))
  = round_div (255 * i) (Z.max 1 (m - 1)).
Proof.
  unfold INT_MAX. intros Hm Hi.
  rewrite (wrap_int_id (m - 1)) by (unfold INT_MIN, INT_MAX; lia).
  set (c := Z.max 1 (m - 1)).
  assert (Hc : 0 < c < 2 ^ 31) by (unfold c; lia).
  assert (Hlr : lround (F64.div (F64.mul f64_255 (F64.of_int i)) (F64.of_int c))
                = round_div (255 * i) c).
  { destruct (Z.eq_dec i 0) as [->|Hi0].
    - rewrite (of_int_pos c) by lia. simpl.
      symmetry. apply round_div_unique; lia.
    - change f64_255 with (F64.of_int 255).
      apply lround_scaled_quotient; unfold c; lia. }
  rewrite Hlr.
  pose proof (round_div_nearest (255 * i) c ltac:(lia) ltac:(lia)) as HK.
  unfold wrap_u8. apply Z.mod_small.
  assert (i ≤ c) by (unfold c; lia). nia.
Qed.

(** X12: [makeRedGradient m] throws for a negative [m]; otherwise it has
    [m] colours, colour [i] is [(round (255 i / max (1, m - 1)), 0, 0)], and
    from two elements on it starts at (0, 0, 0) and ends at (255, 0, 0). *)
Theorem makeRedGradient_spec (m : Z) :
  (INT_MIN ≤ m < 0 → makeRedGradient m = Fault LengthError) ∧
  (0 ≤ m ≤ INT_MAX →
   ∃ v, makeRedGradient m = Ok v ∧ Z.of_nat (length v) = m ∧
     (∀ i, 0 ≤ i < m →
        v !! Z.to_nat i = Some [round_div (255 * i) (Z.max 1 (m - 1)); 0; 0]) ∧
     (2 ≤ m → head v = Some [0; 0; 0] ∧ last v = Some [255; 0; 0])).
Proof.
  split.
  - intros Hm. unfold makeRedGradient. rewrite vec_reserve_negative by exact Hm.
    reflexivity.
  - intros Hm. unfold makeRedGradient. rewrite vec_reserve_Ok by exact Hm. simpl.
    destruct (for_range_inv
      (λ j (v : list (Color Z)),
         Z.of_nat (length v) = j ∧
         ∀ i, 0 ≤ i < j →
           v !! Z.to_nat i = Some [round_div (255 * i) (Z.max 1 (m - 1)); 0; 0])
      (λ i v,
         let r := wrap_u8 (lround (F64.div (F64.mul f64_255 (F64.of_int i))
                                           (F64.of_int (Z.max 1 (wrap_int (m - 1)))))) in
         Ok (v ++ [[r; 0; 0]]))
      0 m []) as (v & Hv & Hlen & Hall).
    + lia.
    + split; [reflexivity | intros i Hi; lia].
    + intros j t Hj [Hl Hprev]. cbv zeta.
      rewrite gradient_red by lia. unfold Color in *.
      eexists. split; [reflexivity|]. split.
      * rewrite length_app. simpl. lia.
      * intros i Hi. destruct (Z.eq_dec i j) as [->|Hne].
        -- rewrite lookup_app_r by lia.
           replace (Z.to_nat j - length t)%nat with 0%nat by lia. reflexivity.
        -- rewrite lookup_app_l by lia. apply Hprev. lia.
    + exists v. split; [exact Hv|]. split; [exact Hlen|]. split; [exact Hall|].
      intros Hm2. unfold Color in *. split.
      * rewrite head_lookup.
        pose proof (Hall 0 ltac:(lia)) as H0. change (Z.to_nat 0) with 0%nat in H0.
        rewrite H0. do 2 f_equal. apply round_div_unique; lia.
      * rewrite last_lookup.
        replace (pred (length v)) with (Z.to_nat (m - 1)) by lia.
        rewrite (Hall (m - 1) ltac:(lia)).
        rewrite Z.max_r by lia. rewrite round_div_same by lia. reflexivity.
Qed.

Section StretchProofs.
Context {T : Type}.

Lemma expectedIndicesRound_loop (m n : Z) :
  2 ≤ n ≤ INT_MAX → 1 ≤ m ≤ INT_MAX →
  ∃ idx, expectedIndicesRound m n = Ok idx ∧ Z.of_nat (length idx) = n ∧
    ∀ i, 0 ≤ i < n → idx !! Z.to_nat i = Some (map_index_round i n m).
Proof.
  intros Hn Hm. unfold expectedIndicesRound.
  rewrite vec_reserve_Ok by lia. simpl.
  destruct (Z.leb_spec n 0); [lia|]. destruct (Z.leb_spec m 0); [lia|]. simpl.
  destruct (Z.eqb_spec n 1); [lia|].
  destruct (for_range_inv
    (λ j (idx : list Z),
       Z.of_nat (length idx) = j ∧
       ∀ i, 0 ≤ i < j → idx !! Z.to_nat i = Some (map_index_round i n m))
    (λ i idx, Ok (idx ++ [map_index_round i n m]))
    0 n []) as (idx & Hidx & Hlen & Hall).
  - lia.
  - split; [reflexivity | intros i Hi; lia].
  - intros j t Hj [Hl Hprev].
    eexists. split; [reflexivity|]. split.
    + rewrite length_app. simpl. lia.
    + intros i Hi. destruct (Z.eq_dec i j) as [->|Hne].
      * rewrite lookup_app_r by lia.
        replace (Z.to_nat j - length t)%nat with 0%nat by lia. reflexivity.
      * rewrite lookup_app_l by lia. apply Hprev. lia.
  - exists idx. split; [exact Hidx|]. split; [exact Hlen | exact Hall].
Qed.

(** X13: [expectedIndicesRound(m, n)] throws for a negative [n] (it
    reserves before it tests), is empty for [n = 0] or [m <= 0], and
    otherwise has [n] indices, all in [[0, m - 1]]. *)
Theorem expectedIndicesRound_spec (m n : Z) :
  (INT_MIN ≤ n < 0 → expectedIndicesRound m n = Fault LengthError) ∧
  (0 ≤ n ≤ INT_MAX → n = 0 ∨ m ≤ 0 → expectedIndicesRound m n = Ok []) ∧
  (1 ≤ n ≤ INT_MAX → 1 ≤ m ≤ INT_MAX →
   ∃ idx, expectedIndicesRound m n = Ok idx ∧ Z.of_nat (length idx) = n ∧
     Forall (λ j, 0 ≤ j < m) idx).
Proof.
  split; [|split].
  - intros Hn. unfold expectedIndicesRound.
    rewrite vec_reserve_negative by exact Hn. reflexivity.
  - intros Hn Hz. unfold expectedIndicesRound.
    rewrite vec_reserve_Ok by exact Hn. simpl.
    assert (Hc : (n <=? 0) || (m <=? 0) = true).
    { apply orb_true_iff. rewrite !Z.leb_le. lia. }
    rewrite Hc. reflexivity.
  - intros Hn Hm. destruct (Z.eq_dec n 1) as [->|Hn1].
    + exists [Z.quot m 2]. split.
      * unfold expectedIndicesRound. rewrite vec_reserve_Ok by lia. simpl.
        destruct (Z.leb_spec m 0); [lia | reflexivity].
      * split; [reflexivity|]. constructor; [|constructor].
        rewrite Z.quot_div_nonneg by lia.
        split; [apply Z.div_pos; lia | apply Z.div_lt_upper_bound; lia].
    + destruct (expectedIndicesRound_loop m n ltac:(lia) Hm) as (idx & Hidx & Hlen & Hget).
      exists idx. split; [exact Hidx|]. split; [exact Hlen|].
      apply Forall_lookup. intros p j Hp.
      assert (Z.of_nat p < n).
      { apply lookup_lt_Some in Hp. lia. }
      pose proof (Hget (Z.of_nat p) ltac:(lia)) as Hg.
      rewrite Nat2Z.id in Hg.
      pose proof (map_index_round_range (Z.of_nat p) n m Hm). 
      assert (j = map_index_round (Z.of_nat p) n m) by congruence. lia.
Qed.

(** X14: the index list the tests compute agrees with [downsample]: for
    every source and every target length from 1 to below the source length,
    output element [i] is the source element at
    [expectedIndicesRound(m, n)[i]]. *)
Theorem downsample_colors_matches_expected (colors : list (Color T)) (n : Z) :
  1 ≤ n → n < Z.of_nat (length colors) → Z.of_nat (length colors) ≤ INT_MAX →
  ∃ out idx,
    downsample_colors colors n = Ok out ∧
    expectedIndicesRound (Z.of_nat (length colors)) n = Ok idx ∧
    Z.of_nat (length out) = n ∧ Z.of_nat (length idx) = n ∧
    ∀ i, 0 ≤ i < n →
      ∃ j, idx !! Z.to_nat i = Some j ∧ 0 ≤ j < Z.of_nat (length colors) ∧
           out !! Z.to_nat i = colors !! Z.to_nat j.
Proof.
  intros Hn Hlt Hmax. set (m := Z.of_nat (length colors)) in *.
  destruct (Z.eq_dec n 1) as [->|Hn1].
  - destruct (downsample_colors_single colors ltac:(fold m; lia)) as (c & Hc & Hout).
    exists [c], [Z.quot m 2]. split; [exact Hout|]. split.
    { unfold expectedIndicesRound. rewrite vec_reserve_Ok by (unfold INT_MAX; lia). simpl.
      destruct (Z.leb_spec m 0); [lia | reflexivity]. }
    split; [reflexivity|]. split; [reflexivity|].
    intros i Hi. assert (i = 0) as -> by lia.
    exists (Z.quot m 2). rewrite Z.quot_div_nonneg by lia.
    split; [reflexivity|]. split.
    + split; [apply Z.div_pos; lia | apply Z.div_lt_upper_bound; lia].
    + simpl. fold m in Hc. rewrite Hc. reflexivity.
  - destruct (downsample_colors_spec colors n ltac:(fold m; lia) Hmax)
      as (out & Hout & Hlen & Hget).
    destruct (expectedIndicesRound_loop m n ltac:(unfold INT_MAX in *; lia) ltac:(lia))
      as (idx & Hidx & Hil & Higet).
    exists out, idx. repeat (split; [assumption|]).
    intros i Hi. exists (map_index_round i n m).
    split; [apply Higet; exact Hi|]. split.
    + pose proof (map_index_round_range i n m ltac:(lia)). lia.
    + apply Hget. exact Hi.
Qed.

Lemma stretchToWidth_loop (dflt : Color T) (small : list (Color T)) (W : Z) :
  1 ≤ Z.of_nat (length small) ≤ INT_MAX → 2 ≤ W ≤ INT_MAX →
  ∃ big, stretchToWidth dflt small W = Ok big ∧ Z.of_nat (length big) = W ∧
    ∀ x, 0 ≤ x < W →
      big !! Z.to_nat x
      = small !! Z.to_nat (map_index_round x W (Z.of_nat (length small))).
Proof.
  intros Hn HW. set (n := Z.of_nat (length small)) in *.
  unfold stretchToWidth, vec_new.
  rewrite Z.max_r by lia.
  rewrite wrap_size_id by (unfold INT_MAX in *; lia).
  rewrite (proj2 (Z.leb_le W PTRDIFF_MAX)) by (unfold INT_MAX, PTRDIFF_MAX in *; lia).
  simpl.
  destruct (decide (small = [])) as [->|_]; [simpl in *; lia|].
  destruct (Z.leb_spec W 0); [lia|]. destruct (Z.eqb_spec W 1); [lia|].
  fold n. rewrite (wrap_int_id n) by (unfold INT_MIN, INT_MAX in *; lia).
  destruct (for_range_inv
    (λ j (out : list (Color T)),
       Z.of_nat (length out) = W ∧
       ∀ x, 0 ≤ x < j → out !! Z.to_nat x = small !! Z.to_nat (map_index_round x W n))
    (λ x out,
       c ← vec_get small (wrap_size (map_index_round x W n));
       vec_set out (wrap_size x) c)
    0 W (replicate (Z.to_nat W) dflt)) as (big & Hbig & Hlen & Hall).
  - lia.
  - split; [rewrite length_replicate; lia | intros x Hx; lia].
  - intros j t Hj [Hl Hprev].
    pose proof (map_index_round_range j W n ltac:(lia)) as Hr.
    rewrite (wrap_size_id (map_index_round j W n)) by (unfold INT_MAX in *; lia).
    rewrite (wrap_size_id j) by (unfold INT_MAX in *; lia).
    destruct (lookup_lt_is_Some_2 small (Z.to_nat (map_index_round j W n))) as [c Hc];
      [unfold n in *; lia|].
    rewrite (vec_get_Ok small _ c) by (auto; lia). simpl.
    rewrite vec_set_Ok by lia.
    eexists. split; [reflexivity|]. split.
    + rewrite length_insert. exact Hl.
    + intros x Hx. destruct (Z.eq_dec x j) as [->|Hne].
      * rewrite list_lookup_insert_eq by lia. symmetry. exact Hc.
      * rewrite list_lookup_insert_ne by lia. apply Hprev. lia.
  - exists big. split; [exact Hbig|]. split; [exact Hlen | exact Hall].
Qed.

(** X15: a sequence stretched to a width not below its length and
    resampled back to its length is the sequence again, where
    [(W - 1) * (length - 1) < 2^52]. *)
Theorem downsample_stretchToWidth (dflt : Color T) (small : list (Color T)) (W : Z) :
  1 ≤ Z.of_nat (length small) → Z.of_nat (length small) ≤ W → W ≤ INT_MAX →
  (W - 1) * (Z.of_nat (length small) - 1) < 2 ^ 52 →
  ∃ big, stretchToWidth dflt small W = Ok big ∧ Z.of_nat (length big) = W ∧
    downsample_colors big (Z.of_nat (length small)) = Ok small.
Proof.
  intros Hn HnW HW Hsmall. set (n := Z.of_nat (length small)) in *.
  destruct (Z.eq_dec W 1) as [->|HW1].
  - (* one element stretched to width one *)
    assert (Hn1 : n = 1) by lia.
    destruct small as [|c [|c' small']]; simpl in n; try (unfold n in *; simpl in *; lia).
    exists [c]. split; [reflexivity|]. split; [reflexivity|].
    apply (downsample_colors_shortcuts L T [c] 1). simpl. lia.
  - destruct (stretchToWidth_loop dflt small W ltac:(fold n; lia) ltac:(lia))
      as (big & Hbig & Hlen & Hget).
    fold n in Hget.
    exists big. split; [exact Hbig|]. split; [exact Hlen|].
    assert (Hexact : ∀ x, 0 ≤ x < W → map_index_round x W n = index_formula x W n).
    { intros x Hx. apply map_index_round_exact; try lia. nia. }
    destruct (Z.eq_dec n W) as [HnWeq|HnWne].
    + (* same width: the stretch is the identity and downsample passes it through *)
      assert (big = small) as ->.
      { apply list_eq. intros p.
        destruct (decide (Z.of_nat p < W)) as [Hp|Hp].
        - pose proof (Hget (Z.of_nat p) ltac:(lia)) as Hg.
          rewrite Hexact in Hg by lia. rewrite HnWeq in Hg.
          rewrite index_formula_same in Hg by lia.
          rewrite Nat2Z.id in Hg. exact Hg.
        - rewrite !lookup_ge_None_2 by (unfold n in *; lia). reflexivity. }
      apply (downsample_colors_shortcuts L T small n). unfold n. lia.
    + destruct (Z.eq_dec n 1) as [Hn1|Hn1].
      * (* one colour: every stretched element is that colour *)
        destruct (downsample_colors_single big ltac:(lia)) as (c & Hc & Hout).
        rewrite Hn1, Hout. f_equal.
        rewrite Hlen in Hc.
        assert (HW2 : 0 ≤ W / 2 < W).
        { split; [apply Z.div_pos; lia | apply Z.div_lt_upper_bound; lia]. }
        rewrite (Hget (W / 2) HW2) in Hc.
        pose proof (map_index_round_range (W / 2) W n ltac:(lia)) as Hr.
        replace (map_index_round (W / 2) W n) with 0 in Hc by lia.
        destruct small as [|c0 [|c1 small']]; simpl in n; try (unfold n in *; simpl in *; lia).
        simpl in Hc. congruence.
      * destruct (downsample_colors_spec big n ltac:(lia) ltac:(lia))
          as (out & Hout & Holen & Hoget).
        rewrite Hout. f_equal.
        apply list_eq. intros p.
        destruct (decide (Z.of_nat p < n)) as [Hp|Hp].
        -- pose proof (Hoget (Z.of_nat p) ltac:(lia)) as Hg.
           rewrite Nat2Z.id, Hlen in Hg. rewrite Hg.
           rewrite (map_index_round_exact (Z.of_nat p) n W) by (try lia; nia).
           pose proof (index_formula_range (Z.of_nat p) n W ltac:(lia)) as Hr.
           rewrite Hget by lia. rewrite Hexact by lia.
           rewrite index_formula_inverse by lia.
           rewrite Nat2Z.id. reflexivity.
        -- rewrite !lookup_ge_None_2 by (unfold n in *; lia). reflexivity.
Qed.
(** X16: [stretchToWidth] returns no element for a width [<= 0], and for
    an empty source [W] default-constructed colours. *)
Theorem stretchToWidth_edge (dflt : Color T) (small : list (Color T)) (W : Z) :
  (INT_MIN ≤ W ≤ 0 → stretchToWidth dflt small W = Ok []) ∧
  (0 < W ≤ INT_MAX → stretchToWidth dflt [] W = Ok (replicate (Z.to_nat W) dflt)).
Proof.
  split.
  - intros HW. unfold stretchToWidth, vec_new.
    rewrite Z.max_l by lia. simpl.
    destruct (decide (small = [])); [reflexivity|].
    rewrite (proj2 (Z.leb_le W 0)) by lia. reflexivity.
  - intros HW. unfold stretchToWidth, vec_new.
    rewrite Z.max_r by lia.
    rewrite wrap_size_id by (unfold INT_MAX in *; lia).
    rewrite (proj2 (Z.leb_le W PTRDIFF_MAX)) by (unfold INT_MAX, PTRDIFF_MAX in *; lia).
    reflexivity.
Qed.
End StretchProofs.
End TestsProofs.

Lemma makeRedGradient_spec_witness :
  makeRedGradient (L := example_libm) (-1) = Fault LengthError ∧
  ∃ v, makeRedGradient (L := example_libm) 10 = Ok v ∧ Z.of_nat (length v) = 10 ∧
     (∀ i, 0 ≤ i < 10 →
        v !! Z.to_nat i = Some [round_div (255 * i) (Z.max 1 (10 - 1)); 0; 0]) ∧
     (2 ≤ 10 → head v = Some [0; 0; 0] ∧ last v = Some [255; 0; 0]).
Proof.
  split.
  - apply (proj1 (makeRedGradient_spec (L := example_libm) (-1))).
    unfold INT_MIN. lia.
  - apply (proj2 (makeRedGradient_spec (L := example_libm) 10)).
    unfold INT_MAX. lia.
Defined.

Lemma expectedIndicesRound_spec_witness :
  expectedIndicesRound (L := example_libm) 10 (-1) = Fault LengthError ∧
  expectedIndicesRound (L := example_libm) 0 4 = Ok [] ∧
  ∃ idx, expectedIndicesRound (L := example_libm) 10 4 = Ok idx ∧
    Z.of_nat (length idx) = 4 ∧ Forall (λ j, 0 ≤ j < 10) idx.
Proof.
  split; [|split].
  - apply (proj1 (expectedIndicesRound_spec (L := example_libm) 10 (-1))).
    unfold INT_MIN. lia.
  - apply (proj1 (proj2 (expectedIndicesRound_spec (L := example_libm) 0 4)));
      [unfold INT_MAX; lia | right; lia].
  - apply (proj2 (proj2 (expectedIndicesRound_spec (L := example_libm) 10 4)));
      unfold INT_MAX; lia.
Defined.

Lemma downsample_colors_matches_expected_witness :
  let colors := [[0]; [10]; [20]; [30]; [40]; [50]; [60]; [70]; [80]; [90]] in
  ∃ out idx,
    downsample_colors (L := example_libm) colors 4 = Ok out ∧
    expectedIndicesRound (L := example_libm) (Z.of_nat (length colors)) 4 = Ok idx ∧
    Z.of_nat (length out) = 4 ∧ Z.of_nat (length idx) = 4 ∧
    ∀ i, 0 ≤ i < 4 →
      ∃ j, idx !! Z.to_nat i = Some j ∧ 0 ≤ j < Z.of_nat (length colors) ∧
           out !! Z.to_nat i = colors !! Z.to_nat j.
Proof.
  apply (downsample_colors_matches_expected (L := example_libm)
           [[0]; [10]; [20]; [30]; [40]; [50]; [60]; [70]; [80]; [90]] 4).
  - lia.
  - simpl. lia.
  - unfold INT_MAX. simpl. lia.
Defined.

Lemma downsample_stretchToWidth_witness :
  ∃ big, stretchToWidth (L := example_libm) [0] [[1]; [2]; [3]] 7 = Ok big ∧
    Z.of_nat (length big) = 7 ∧
    downsample_colors (L := example_libm) big (Z.of_nat (length [[1]; [2]; [3]]))
    = Ok [[1]; [2]; [3]].
Proof.
  apply (downsample_stretchToWidth (L := example_libm) [0] [[1]; [2]; [3]] 7).
  - simpl. lia.
  - simpl. lia.
  - unfold INT_MAX. lia.
  - simpl. lia.
Defined.

Lemma stretchToWidth_edge_witness :
  stretchToWidth (L := example_libm) [0] [[1]; [2]] (-3) = Ok [] ∧
  stretchToWidth (L := example_libm) [0] ([] : list (Color Z)) 2 = Ok [[0]; [0]].
Proof.
  split.
  - apply (proj1 (stretchToWidth_edge (L := example_libm) [0] [[1]; [2]] (-3))).
    unfold INT_MIN. lia.
  - apply (proj2 (stretchToWidth_edge (L := example_libm) [0] [[1]; [2]] 2)).
    unfold INT_MAX. lia.
Defined.

(** ** Enlarging an image *)

Section DownsampleEnlarge.
Context {L : LibM} {T : Type} {E : Elem T}.

Lemma source_index_onto (target source s : Z) :
  1 ≤ source → source ≤ target → target ≤ INT_MAX →
  (target - 1) * (source - 1) < 2 ^ 52 →
  0 ≤ s < source →
  ∃ i, 0 ≤ i < target ∧ source_index target source i = s.
Proof.
  intros Hs Hst Ht Hsmall Hrange.
  destruct (Z.eq_dec target 1) as [->|Ht1].
  - exists 0. split; [lia|].
    assert (source = 1) as -> by lia. change (source_index 1 1 0) with 0. lia.
  - destruct (Z.eq_dec source 1) as [->|Hs1].
    + exists 0. split; [lia|].
      pose proof (source_index_range target 1 0 ltac:(unfold INT_MAX; lia)). lia.
    + exists (index_formula s source target).
      pose proof (index_formula_range s source target ltac:(lia)) as Hr.
      split; [lia|]. unfold source_index.
      destruct (Z.eqb_spec target 1); [lia|].
      rewrite map_index_round_exact by (try lia; nia).
      apply index_formula_inverse; lia.
Qed.

(** X17: an image resampled to a size not smaller than its own, in both
    axes, keeps every source pixel: each one is some pixel of the result,
    with all its channels (where the products of the sizes are below
    2^52). *)
Theorem downsample_image_enlarge (image : Image T) (w h : Z) :
  wf_image image →
  0 < width image → 0 < height image →
  channels image = 1 ∨ channels image = 3 →
  width image ≤ w → w ≤ INT_MAX → height image ≤ h → h ≤ INT_MAX →
  (w - 1) * (width image - 1) < 2 ^ 52 →
  (h - 1) * (height image - 1) < 2 ^ 52 →
  ∃ out, downsample_image image w h = Ok out ∧
    width out = w ∧ height out = h ∧ channels out = channels image ∧
    ∀ sy sx, 0 ≤ sy < height image → 0 ≤ sx < width image →
      ∃ y x, 0 ≤ y < h ∧ 0 ≤ x < w ∧
        ∀ c, 0 ≤ c < channels image →
          ∃ v, img_get image sy sx c = Ok v ∧ img_get out y x c = Ok v.
Proof.
  intros Hwf HW HH Hch Hw HwM Hh HhM HsW HsH.
  destruct (downsample_image_spec image w h Hwf HW HH Hch ltac:(lia) ltac:(lia))
    as (out & Hout & HoW & HoH & HoC & _ & Hpix).
  exists out. repeat (split; [assumption|]).
  intros sy sx Hsy Hsx.
  destruct (source_index_onto h (height image) sy ltac:(lia) Hh HhM HsH Hsy) as (y & Hy & Ey).
  destruct (source_index_onto w (width image) sx ltac:(lia) Hw HwM HsW Hsx) as (x & Hx & Ex).
  exists y, x. split; [exact Hy|]. split; [exact Hx|].
  intros c Hc. exists (pixel image sy sx c). split.
  - apply img_get_wf; assumption.
  - rewrite (Hpix y x c Hy Hx Hc), Ey, Ex. reflexivity.
Qed.
End DownsampleEnlarge.

Lemma downsample_image_enlarge_witness :
  let image := mkImage 2 2 1 [1; 2; 3; 4] in
  ∃ out, downsample_image (L := example_libm) (E := example_u8) image 5 3 = Ok out ∧
    width out = 5 ∧ height out = 3 ∧ channels out = channels image ∧
    ∀ sy sx, 0 ≤ sy < height image → 0 ≤ sx < width image →
      ∃ y x, 0 ≤ y < 3 ∧ 0 ≤ x < 5 ∧
        ∀ c, 0 ≤ c < channels image →
          ∃ v, img_get image sy sx c = Ok v ∧ img_get out y x c = Ok v.
Proof.
  apply (downsample_image_enlarge (L := example_libm) (E := example_u8)
           (mkImage 2 2 1 [1; 2; 3; 4]) 5 3).
  - unfold wf_image, INT_MAX, PTRDIFF_MAX. simpl. lia.
  - simpl. lia.
  - simpl. lia.
  - left. reflexivity.
  - simpl. lia.
  - unfold INT_MAX. lia.
  - simpl. lia.
  - unfold INT_MAX. lia.
  - simpl. lia.
  - simpl. lia.
Defined.

(** ** A blurred element of a sequence depends on the window around it *)

Section BlurColorsLocal.
Context {L : LibM} {T : Type} {E : Elem T}.

Lemma blur_colors_reference_list_lookup (k : Kernel1D) (colors : list (Color T))
    (C i c : Z) :
  0 ≤ i < Z.of_nat (length colors) → 0 ≤ c < C →
  blur_colors_reference_list k colors C !! Z.to_nat i
    ≫= (λ col : Color T, col !! Z.to_nat c)
  = Some (blur_colors_reference k colors i c).
Proof.
  intros Hi Hc. unfold blur_colors_reference_list.
  rewrite list_lookup_fmap, lookup_seqZ_lt by lia. simpl.
  rewrite list_lookup_fmap, lookup_seqZ_lt by lia. simpl.
  rewrite !Z2Nat.id by lia. reflexivity.
Qed.

(** X18: a blurred element of a sequence depends only on the source
    elements of its channel at most [r] positions away. *)
Theorem blur_colors_local (a b : list (Color T)) (C : Z) (strength : spec_float)
    (k : Kernel1D) (i c : Z) :
  makeGaussianKernel strength = Ok k → 1 ≤ kr k →
  length b = length a →
  Z.of_nat (length a) + kr k ≤ INT_MAX →
  C = 1 ∨ C = 3 →
  Forall (λ col, color_channels col = C) a →
  Forall (λ col, color_channels col = C) b →
  0 ≤ i < Z.of_nat (length a) → 0 ≤ c < C →
  (∀ s, 0 ≤ s < Z.of_nat (length a) → i - kr k ≤ s ≤ i + kr k →
     colors_get a s c = colors_get b s c) →
  ∃ oa ob v, blur_colors a strength = Ok oa ∧ blur_colors b strength = Ok ob ∧
    colors_get oa i c = Ok v ∧ colors_get ob i c = Ok v.
Proof.
  intros Hmk Hr Hlen Hfit HC Hca Hcb Hi Hc Hwin.
  exists (blur_colors_reference_list k a C), (blur_colors_reference_list k b C),
         (blur_colors_reference k a i c).
  split; [apply blur_colors_spec; auto; lia|].
  split; [apply blur_colors_spec; auto; lia|].
  assert (Hread : ∀ (l : list (Color T)),
            length l = length a →
            colors_get (blur_colors_reference_list k l C) i c
            = Ok (blur_colors_reference k l i c)).
  { intros l Hl.
    pose proof (blur_colors_reference_list_lookup k l C i c ltac:(lia) Hc) as Hlk.
    unfold colors_get, color_get.
    destruct (blur_colors_reference_list k l C !! Z.to_nat i) as [col|] eqn:Hcol;
      [|discriminate]. simpl in Hlk.
    rewrite (vec_get_Ok _ i col) by (auto; lia). simpl.
    apply vec_get_Ok; [lia | exact Hlk]. }
  split; [apply Hread; reflexivity|].
  rewrite (Hread b Hlen). f_equal.
  unfold blur_colors_reference. f_equal. rewrite Hlen.
  symmetry. apply convolve_local; [lia|].
  intros s Hs Hnear. f_equal.
  pose proof (Hwin s Hs Hnear) as Hsame.
  assert (Hat : ∀ (l : list (Color T)),
            length l = length a → Forall (λ col, color_channels col = C) l →
            colors_get l s c = Ok (color_at l s c)).
  { intros l Hl Hcl. unfold colors_get, color_at, color_get. unfold Color in *.
    destruct (lookup_lt_is_Some_2 l (Z.to_nat s)) as [col Hcol]; [lia|].
    rewrite (vec_get_Ok l s col) by (auto; lia). simpl. rewrite Hcol.
    assert (Hn : color_channels col = C).
    { eapply (proj1 (Forall_lookup _ _) Hcl). exact Hcol. }
    unfold color_channels in Hn.
    destruct (lookup_lt_is_Some_2 col (Z.to_nat c)) as [v Hv]; [lia|].
    rewrite Hv. simpl. apply vec_get_Ok; [lia | exact Hv]. }
  rewrite (Hat a eq_refl Hca), (Hat b Hlen Hcb) in Hsame. congruence.
Qed.
End BlurColorsLocal.

Lemma blur_colors_local_witness :
  let a := [[10]; [20]; [30]; [40]; [50]] in
  let b := [[10]; [20]; [30]; [40]; [99]] in
  ∃ oa ob v,
    blur_colors (L := example_libm) (E := example_u8) a example_half = Ok oa ∧
    blur_colors (L := example_libm) (E := example_u8) b example_half = Ok ob ∧
    colors_get oa 1 0 = Ok v ∧ colors_get ob 1 0 = Ok v.
Proof.
  apply (blur_colors_local (L := example_libm) (E := example_u8)
           [[10]; [20]; [30]; [40]; [50]] [[10]; [20]; [30]; [40]; [99]] 1
           example_half example_kernel 1 0).
  - vm_compute. reflexivity.
  - vm_compute. discriminate.
  - reflexivity.
  - unfold INT_MAX. vm_compute. discriminate.
  - left. reflexivity.
  - repeat constructor.
  - repeat constructor.
  - simpl. lia.
  - lia.
  - change (kr example_kernel) with 2. simpl. intros s Hs Hn.
    assert (s = 0 ∨ s = 1 ∨ s = 2 ∨ s = 3) as [->|[->|[->| ->]]] by lia;
      reflexivity.
Defined.

(** ** The floor of the strength *)

Section KernelFloor.
Context {L : LibM}.

(** X19: the floor 0.001f of the strength: every strength in (0, 0.001f]
    gives the kernel of 0.001f, which has radius 1 and three weights. *)
Theorem makeGaussianKernel_floor (sigma : spec_float) :
  F32.ltb F32.zero sigma = true → F32.ltb F32.milli sigma = false →
  makeGaussianKernel sigma = makeGaussianKernel F32.milli ∧
  ∃ k, makeGaussianKernel sigma = Ok k ∧ kr k = 1 ∧ length (kw k) = 3%nat.
Proof.
  intros Hpos Hsmall.
  assert (Heq : makeGaussianKernel sigma = makeGaussianKernel F32.milli).
  { unfold makeGaussianKernel. rewrite Hpos.
    change (F32.ltb F32.zero F32.milli) with true.
    unfold F32.max. rewrite Hsmall.
    change (F32.ltb F32.milli F32.milli) with false. reflexivity. }
  split; [exact Heq|]. rewrite Heq.
  destruct (makeGaussianKernel_defined F32.milli) as [k Hk]; try reflexivity.
  exists k. split; [exact Hk|].
  assert (Hr : kr k = 1).
  { revert Hk. unfold makeGaussianKernel.
    change (F32.ltb F32.zero F32.milli) with true. simpl negb. cbv iota.
    destruct (ceil_to_int _) as [c| |] eqn:Hc; simpl; try discriminate.
    assert (c = 1) as -> by (vm_compute in Hc; congruence).
    destruct (vec_new _ _) as [w| |]; simpl; try discriminate.
    destruct (for_range _ _ _ _) as [ws| |]; simpl; try discriminate.
    intros [= <-]. reflexivity. }
  split; [exact Hr|].
  pose proof (makeGaussianKernel_shape F32.milli k Hk ltac:(lia)) as [_ Hlen].
  rewrite Hr in Hlen. lia.
Qed.
End KernelFloor.

Lemma makeGaussianKernel_floor_witness :
  makeGaussianKernel (L := example_libm) (S754_finite false 8388608 (-40))
  = makeGaussianKernel (L := example_libm) F32.milli ∧
  ∃ k, makeGaussianKernel (L := example_libm) (S754_finite false 8388608 (-40)) = Ok k ∧
       kr k = 1 ∧ length (kw k) = 3%nat.
Proof.
  apply (makeGaussianKernel_floor (L := example_libm) (S754_finite false 8388608 (-40)));
    vm_compute; reflexivity.
Defined.
